(** * budgetizer: storage-hierarchy design-space search

    A shallow embedding of [budgetizer.cpp], and the properties of its
    feasibility checker, cost and time functions, workload simulator,
    configuration search, printing and [main].

    The program manipulates C++ [float]s, [unsigned]s and [std::vector]s:

    - the arithmetic the program performs on [float] is collected in the
      interface [FloatOps]; the functions of the program are written once,
      over that interface.  The instance [binary32] is IEEE-754 single
      precision as specified by the standard library's [SpecFloat]
      (24 bits of precision, round to nearest even, infinities and NaN);
      this is the arithmetic the compiled program runs.  A number of that
      arithmetic has its value in the rationals ([SF2Q]), and the results
      about rounding are stated on those values;
    - an [unsigned] device count is an [N]; the program only compares
      counts, stores them and converts them to [float], so no operation
      on them can wrap around;
    - [operator[]] on a vector is a partial lookup: an index past the end is
      undefined behaviour in C++ and [None] here, and that [None] is
      propagated to the caller by the option monad;
    - the variables that the closure [enumerate] captures by reference are
      the fields of the record [Search], which is threaded through the
      enumeration together with the vector [config];
    - what the program writes to [cout] is the list of the items streamed,
      in order; a [float] is kept as the value handed to the stream.

    The file first gives the program, its catalog and the vocabulary of the
    specification, and then the proofs. *)

From Stdlib Require Import ZArith NArith QArith Qpower Lqa Lia String.
From Stdlib Require Import Floats.SpecFloat.
From stdpp Require Import base option list.

Local Open Scope Z_scope.
Local Open Scope nat_scope.

(** ** The arithmetic of [float] *)

Class FloatOps (F : Type) := {
  of_Z : Z -> F;            (* conversion of an integer operand *)
  fadd : F -> F -> F;
  fsub : F -> F -> F;
  fmul : F -> F -> F;
  fdiv : F -> F -> F;
  flt : F -> F -> bool;     (* operator<  *)
  feq : F -> F -> bool;     (* operator== *)
  float_max : F             (* numeric_limits<float>::max() *)
}.

(** [unsigned] operands are converted to [float] before a mixed operation. *)
Definition of_unsigned {F} `{FloatOps F} (n : N) : F := of_Z (Z.of_N n).

(** [a > b] on floats is [b < a]. *)
Definition fgt {F} `{FloatOps F} (a b : F) : bool := flt b a.

(** IEEE-754 binary32: [prec = 24], [emax = 128]. *)
Definition prec32 : Z := 24.
Definition emax32 : Z := 128.

#[export] Instance binary32 : FloatOps spec_float := {|
  of_Z z := binary_normalize prec32 emax32 z 0 false;
  fadd := SFadd prec32 emax32;
  fsub := SFsub prec32 emax32;
  fmul := SFmul prec32 emax32;
  fdiv := SFdiv prec32 emax32;
  flt := SFltb;
  feq := SFeqb;
  float_max := SFmax_float prec32 emax32
|}.

(** ** Data model *)

Record Tech (F : Type) := {
  name : string;
  capacity : F;   (* capacity in bytes *)
  cost : F;       (* cost in $ *)
  IOs : F;        (* IO operations per second *)
  latency : F;    (* latency in seconds *)
  max : N         (* maximum device count *)
}.
Arguments name {F} _.
Arguments capacity {F} _.
Arguments cost {F} _.
Arguments IOs {F} _.
Arguments latency {F} _.
Arguments max {F} _.

Record AccessGroup (F : Type) := {
  fraction : F;   (* fraction of all accesses *)
  size : F        (* access size in bytes *)
}.
Arguments fraction {F} _.
Arguments size {F} _.

(** [typedef vector<unsigned> Config;] number of devices per Tech *)
Abbreviation Config := (list N) (only parsing).
(** [typedef vector<AccessGroup> Workload;] fraction of accesses *)
Abbreviation Workload F := (list (AccessGroup F)) (only parsing).

(** A loop body that may hit undefined behaviour, iterated left to right. *)
Fixpoint foldM {A S : Type} (body : S -> A -> option S) (xs : list A) (s : S) : option S :=
  match xs with
  | [] => Some s
  | x :: xs' => s' ← body s x; foldM body xs' s'
  end.

Section Budgetizer.
Context {F : Type} `{FloatOps F}.

(** The global [vector<Tech> techs]. *)
Variable techs : list (Tech F).

(** [config[t] * techs[t].capacity] *)
Definition tierCapacity (config : Config) (t : nat) : option F :=
  c ← config !! t; tech ← techs !! t; Some (fmul (of_unsigned c) (capacity tech)).

(** [float sumSpaceNeeded = 0; for (AccessGroup g : workload) sumSpaceNeeded += g.size;] *)
Definition sumSpaceNeeded (workload : Workload F) : F :=
  fold_left (fun s g => fadd s (size g)) workload (of_Z 0).

(** [for (t = 0; t < techs.size(); t++) if (config[t]) indexes.push_back(t);]
    run over the tier numbers [ts], starting from the vector [indexes]. *)
Fixpoint collect_indexes (config : Config) (ts : list nat) (indexes : list nat) : option (list nat) :=
  match ts with
  | [] => Some indexes
  | t :: ts' =>
      c ← config !! t;
      collect_indexes config ts' (if (c =? 0)%N then indexes else indexes ++ [t])
  end.

(** [for (i = 1; i < indexes.size(); i++) if (cap(indexes[i]) < cap(indexes[i-1])) return false;]
    run over the positions [positions]; [Some false] is the early return. *)
Fixpoint inclusive_loop (config : Config) (indexes : list nat) (positions : list nat) : option bool :=
  match positions with
  | [] => Some true
  | i :: positions' =>
      cur ← indexes !! i;
      prev ← indexes !! (i - 1);
      ccur ← tierCapacity config cur;
      cprev ← tierCapacity config prev;
      if flt ccur cprev then Some false (* level is not inclusive *)
      else inclusive_loop config indexes positions'
  end.

Definition isValid (config : Config) (workload : Workload F) : option bool :=
  c0 ← config !! 0;
  if (c0 =? 0)%N then Some false (* we need some RAM *)
  else
    let sum := sumSpaceNeeded workload in
    indexes ← collect_indexes config (seq 0 (length techs)) [];
    inclusive ← inclusive_loop config indexes (seq 1 (length indexes - 1));
    if negb inclusive then Some false
    else
      back ← last indexes;
      cback ← tierCapacity config back;
      if flt cback sum then Some false (* last-level device not big enough for data *)
      else Some true.

(** [for (i = 0; i < techs.size(); i++) cost += config[i] * techs[i].cost;] *)
Definition configCost (config : Config) : option F :=
  foldM (fun acc i =>
           c ← config !! i; tech ← techs !! i;
           Some (fadd acc (fmul (of_unsigned c) (cost tech))))
        (seq 0 (length techs)) (of_Z 0).

(** average time per access in seconds *)
Definition avgTimePerAccess (accessFractions : list F) : option F :=
  foldM (fun sum i =>
           a ← accessFractions !! i; tech ← techs !! i;
           Some (fadd sum (fmul a (fdiv (of_Z 1) (IOs tech)))))
        (seq 0 (length accessFractions)) (of_Z 0).

(** average latency per access in seconds *)
Definition avgLatencyPerAccess (accessFractions : list F) : option F :=
  foldM (fun sum i =>
           a ← accessFractions !! i; tech ← techs !! i;
           Some (fadd sum (fmul a (latency tech))))
        (seq 0 (length accessFractions)) (of_Z 0).

End Budgetizer.

Section Simulator.
Context {F : Type} `{FloatOps F}.
Variable techs : list (Tech F).

(** The locals of [computeAccessFractions] that live across loop iterations. *)
Record SimState := {
  tech : nat;
  techCapacity : F;
  fractionsOut : list F
}.

(** One turn of the [while (true)] loop for the group [g].  [g] is the loop's
    own copy of the group ([for (AccessGroup g : workload)] iterates by
    value), so the write to [g.fraction] does not reach the workload. *)
Inductive Turn :=
  | Advance (g' : AccessGroup F) (st' : SimState)   (* the loop goes round again *)
  | Break (st' : SimState).                         (* [break] *)

Definition turn (config : Config) (g : AccessGroup F) (st : SimState) : option Turn :=
  if fgt (size g) (techCapacity st) then
    let f := fmul (fdiv (techCapacity st) (size g)) (fraction g) in
    out_t ← fractionsOut st !! tech st;
    let out := <[tech st := fadd out_t f]> (fractionsOut st) in
    let g' := {| fraction := fsub (fraction g) f; size := size g |} in
    (* g.size does not change as we assume inclusive caches *)
    let tech' := S (tech st) in
    c ← config !! tech';
    tc ← techs !! tech';
    Some (Advance g' {| tech := tech';
                        techCapacity := fmul (of_unsigned c) (capacity tc);
                        fractionsOut := out |})
  else
    out_t ← fractionsOut st !! tech st;
    Some (Break {| tech := tech st;
                   techCapacity := fsub (techCapacity st) (size g);
                   fractionsOut := <[tech st := fadd out_t (fraction g)]> (fractionsOut st) |}).

(** The [while (true)] loop for one group.  A turn that does not [break]
    increments [tech] and reads [config[tech]] and [techs[tech]], which is
    undefined once [tech] reaches the end of the vectors; so the loop takes
    fewer than [techs.size()] turns before it breaks or runs off the catalog,
    and [fuel = techs.size()] never runs out (lemma [place_group_fuel]). *)
Fixpoint place_group (fuel : nat) (config : Config) (g : AccessGroup F) (st : SimState) : option SimState :=
  t ← turn config g st;
  match t with
  | Break st' => Some st'
  | Advance g' st' =>
      match fuel with
      | O => None
      | S fuel' => place_group fuel' config g' st'
      end
  end.

(** The state before the first group:
    [fill(fractionsOut.begin(), fractionsOut.end(), 0); tech = 0;
     techCapacity = config[tech] * techs[tech].capacity;]
    [fractionsOut0] is the caller's buffer, whose contents are overwritten. *)
Definition sim_start (config : Config) (fractionsOut0 : list F) : option SimState :=
  let filled := map (fun _ => of_Z 0) fractionsOut0 in
  c ← config !! 0;
  tc ← techs !! 0;
  Some {| tech := 0; techCapacity := fmul (of_unsigned c) (capacity tc); fractionsOut := filled |}.

(** access fraction for each technology *)
Definition computeAccessFractions (workload : Workload F) (config : Config) (fractionsOut0 : list F) : option (list F) :=
  st0 ← sim_start config fractionsOut0;
  st ← foldM (fun st g => place_group (length techs) config g st) workload st0;
  Some (fractionsOut st).

End Simulator.
Arguments tech {F} _.
Arguments techCapacity {F} _.
Arguments fractionsOut {F} _.

Section Search.
Context {F : Type} `{FloatOps F}.
Variable techs : list (Tech F).

(** The variables of [findBestConfig] that the closure [enumerate] captures
    by reference.  The vector [config] is the closure's own by-reference
    argument and is passed along explicitly. *)
Record Search := {
  accessFractions : list F;
  bestCost : F;
  bestTime : F;
  bestConfig : Config;
  bestAccessFractions : list F
}.

(** The body of [if (configPos == techs.size())]: one complete configuration. *)
Definition visit (workload : Workload F) (costLimit : F) (optimizeThroughput : bool)
    (config : Config) (s : Search) : option Search :=
  valid ← isValid techs config workload;
  if (valid : bool) then
    cost ← configCost techs config;
    if flt cost costLimit then
      fractions ← computeAccessFractions techs workload config (accessFractions s);
      time ← (if optimizeThroughput then avgTimePerAccess techs fractions
              else avgLatencyPerAccess techs fractions);
      if flt time (bestTime s) || (feq time (bestTime s) && flt cost (bestCost s)) then
        Some {| accessFractions := fractions;
                bestCost := cost; bestTime := time;
                bestConfig := config; bestAccessFractions := fractions |}
      else
        Some {| accessFractions := fractions;
                bestCost := bestCost s; bestTime := bestTime s;
                bestConfig := bestConfig s; bestAccessFractions := bestAccessFractions s |}
    else Some s
  else Some s.

(** The values taken by [count] in [for (count = 0; count < max; count++)]. *)
Definition counts (max : N) : list N := map N.of_nat (seq 0 (N.to_nat max)).

(** The closure [enumerate].  [rest] is the part of [techs] from [configPos]
    on: [configPos == techs.size()] when it is empty, and its head is
    [techs[configPos]] otherwise.  The assignment [config[configPos] = count]
    is in range, because [config] has [techs.size()] entries.  The result
    carries the vector [config] as the call leaves it. *)
Fixpoint enumerate (workload : Workload F) (costLimit : F) (optimizeThroughput : bool)
    (rest : list (Tech F)) (configPos : nat) (config : Config) (s : Search)
    : option (Config * Search) :=
  match rest with
  | [] => s' ← visit workload costLimit optimizeThroughput config s; Some (config, s')
  | t :: rest' =>
      foldM (fun (cs : Config * Search) count =>
               enumerate workload costLimit optimizeThroughput rest' (S configPos)
                 (<[configPos := count]> (fst cs)) (snd cs))
            (counts (max t)) (config, s)
  end.

(** The captured variables before [enumerate(config, 0)]. *)
Definition initial : Search :=
  {| accessFractions := replicate (length techs) (of_Z 0);
     bestCost := float_max; bestTime := float_max;
     bestConfig := replicate (length techs) 0%N;
     bestAccessFractions := replicate (length techs) (of_Z 0) |}.

(** [findBestConfig] returns [bestConfig]; the other fields of the final
    state are what it prints before returning. *)
Definition findBestConfig (workload : Workload F) (costLimit : F) (optimizeThroughput : bool) : option Search :=
  cs ← enumerate workload costLimit optimizeThroughput techs 0 (replicate (length techs) 0%N) initial;
  Some (snd cs).

End Search.
Arguments accessFractions {F} _.
Arguments bestCost {F} _.
Arguments bestTime {F} _.
Arguments bestConfig {F} _.
Arguments bestAccessFractions {F} _.

(** ** What the program prints *)

Section Printing.
Context {F : Type} `{FloatOps F}.
Variable techs : list (Tech F).

(** [const float MB = 1024ull*1024; const float GB = 1024*MB;
     const float TB = 1024*GB;] *)
Definition MB : F := of_Z (1024 * 1024).
Definition GB : F := fmul (of_Z 1024) MB.
Definition TB : F := fmul (of_Z 1024) GB.

(** [a >= b] on floats: [a > b] or [a == b]. *)
Definition fge (a b : F) : bool := flt b a || feq a b.

(** What is handed to [cout], in order: [Text] for a string, [Number] for
    a [float] (the stream formats it), [Endl] for [endl]. *)
Inductive Item :=
  | Text (s : string)
  | Number (x : F)
  | Endl.

Definition printCapacity (config : Config) (tech : nat) : option (list Item) :=
  capacity ← tierCapacity techs config tech;
  if fge capacity TB then Some [Number (fdiv capacity TB); Text " TB"]
  else if fge capacity GB then Some [Number (fdiv capacity GB); Text " GB"]
  else if fge capacity MB then Some [Number (fdiv capacity MB); Text " MB"]
  else Some [Number capacity].

(** The lines [findBestConfig] prints once the enumeration is over, from
    the captured variables [s]. *)
Definition report (optimizeThroughput : bool) (s : @Search F) : option (list Item) :=
  rows ← foldM (fun out t =>
                  tc ← techs !! t;
                  shown ← printCapacity (bestConfig s) t;
                  c ← bestConfig s !! t;
                  a ← bestAccessFractions s !! t;
                  Some (out ++ [Text (name tc); Text " "] ++ shown ++
                        [Text " ($"; Number (fmul (cost tc) (of_unsigned c)); Text ")";
                         Text ": "; Number a; Endl]))
               (seq 0 (length techs))
               [Text "ops/s: "; Number (fdiv (of_Z 1) (bestTime s)); Text " (";
                Text (if optimizeThroughput then "throughput" else "latency");
                Text ")"; Endl];
  Some (rows ++ [Text "totalCost: $"; Number (bestCost s); Endl; Endl]).

(** [findBestConfig] as a whole: what it prints and the vector it returns. *)
Definition findBestConfig_printed (workload : Workload F) (costLimit : F) (optimizeThroughput : bool)
    : option (list Item * Config) :=
  s ← findBestConfig techs workload costLimit optimizeThroughput;
  out ← report optimizeThroughput s;
  Some (out, bestConfig s).

(** The loop of [main] over the cost budgets, which are integer literals
    converted to [float]:
    [cout << "---" << endl << "cost budget $" << costLimit << endl;
     auto tp = findBestConfig(workload, costLimit, true);] *)
Definition main_loop (workload : Workload F) (budgets : list Z) : option (list Item) :=
  foldM (fun out budget =>
           let costLimit := of_Z budget in
           tp ← findBestConfig_printed workload costLimit true;
           Some (out ++ [Text "---"; Endl; Text "cost budget $"; Number costLimit; Endl] ++ fst tp))
        budgets [].

End Printing.
Arguments Text {F} _.
Arguments Number {F} _.
Arguments Endl {F}.

(** ** The catalog and workload of the program *)

Module Binary32.

(** A [double] literal or operation, and its conversion to [float]. *)
Definition double_div (a b : Z) : spec_float :=
  SFdiv 53 1024 (binary_normalize 53 1024 a 0 false) (binary_normalize 53 1024 b 0 false).
Definition double_sub : spec_float -> spec_float -> spec_float := SFsub 53 1024.
Definition to_float (d : spec_float) : spec_float :=
  match d with
  | S754_finite s m e => binary_normalize prec32 emax32 (if s then Z.neg m else Z.pos m) e s
  | _ => d
  end.

Definition f (z : Z) : spec_float := of_Z z.
Definition mul : spec_float -> spec_float -> spec_float := fmul.

Definition ms : spec_float := to_float (double_div 1 1000).
Definition us : spec_float := to_float (double_div 1 1000000).
Definition ns : spec_float := to_float (double_div 1 1000000000).
Definition MB : spec_float := f (1024 * 1024).
Definition GB : spec_float := mul (f 1024) MB.
Definition TB : spec_float := mul (f 1024) GB.
Definition K : spec_float := f 1000.
Definition M : spec_float := f 1000000.

Definition techs : list (Tech spec_float) :=
  [ {| name := "RAM"; capacity := mul (f 64) GB; cost := f 500; IOs := mul (f 10) M;
       latency := mul (f 100) ns; max := 16 |};
    {| name := "NVM"; capacity := mul (f 256) GB; cost := f 500; IOs := mul (f 5) M;
       latency := mul (f 400) ns; max := 8 |};
    {| name := "SSD"; capacity := mul (f 1) TB; cost := f 500; IOs := mul (f 500) K;
       latency := mul (f 100) us; max := 16 |};
    {| name := "HDD"; capacity := mul (f 4) TB; cost := f 200; IOs := f 100;
       latency := mul (f 10) ms; max := 16 |} ].

(** The workload of [main]. *)
Definition workload : Workload spec_float :=
  [ {| fraction := to_float (double_div 8 10); size := mul (f 111) GB |};
    {| fraction := to_float (double_sub (double_div 2 10) (double_div 1 1000)); size := mul (f 1) TB |};
    {| fraction := to_float (double_div 1 1000); size := mul (f 10) TB |} ].

(** *** Inputs and results of particular runs *)

(** What [findBestConfig(workload, 2000, true)], the first call of [main],
    leaves in the captured variables. *)
Definition main_result : Search :=
  {| accessFractions :=
       [S754_finite false 13477200 (-24); S754_zero false; S754_zero false;
        S754_finite false 13200065 (-26)];
     bestCost := S754_finite false 13107200 (-13);
     bestTime := S754_finite false 15584986 (-36);
     bestConfig := [1; 0; 1; 3]%N;
     bestAccessFractions :=
       [S754_finite false 15477360 (-25); S754_zero false;
        S754_finite false 8659853 (-24); S754_finite false 12117871 (-29)] |}.

(** One access group: a tenth of the accesses (0.1f) on 192 GB. *)
Definition tenth_workload : Workload spec_float :=
  [ {| fraction := to_float (double_div 1 10); size := mul (f 192) GB |} ].

(** Two access groups: 64 GB and one byte. *)
Definition byte_workload : Workload spec_float :=
  [ {| fraction := to_float (double_div 1 2); size := mul (f 64) GB |};
    {| fraction := to_float (double_div 1 2); size := f 1 |} ].

End Binary32.

(** [main]: what the program prints, and its exit status. *)
Module Main.

Definition budgets : list Z := [2000; 4000; 6000; 8000; 10000; 15000; 100000]%Z.

Definition main : option (list (@Item spec_float) * Z) :=
  out ← main_loop Binary32.techs Binary32.workload budgets;
  Some (out, 0%Z).

End Main.

(** ** A catalog with a tie *)

(** A catalog with two interchangeable slow tiers, and two access groups:
    half of the accesses on 5 bytes, half on 100 bytes. *)
Module Twins.

Definition techs : list (Tech spec_float) :=
  [ {| name := "fast"; capacity := Binary32.f 10; cost := Binary32.f 100;
       IOs := Binary32.f 1000; latency := Binary32.ms; max := 2 |};
    {| name := "slow"; capacity := Binary32.f 1000; cost := Binary32.f 10;
       IOs := Binary32.f 100; latency := Binary32.mul (Binary32.f 10) Binary32.ms; max := 2 |};
    {| name := "twin"; capacity := Binary32.f 1000; cost := Binary32.f 10;
       IOs := Binary32.f 100; latency := Binary32.mul (Binary32.f 10) Binary32.ms; max := 2 |} ].

Definition workload : Workload spec_float :=
  [ {| fraction := Binary32.to_float (Binary32.double_div 1 2); size := Binary32.f 5 |};
    {| fraction := Binary32.to_float (Binary32.double_div 1 2); size := Binary32.f 100 |} ].

(** What [findBestConfig(workload, 200, true)] leaves in the captured
    variables on this catalog. *)
Definition result : Search :=
  {| accessFractions :=
       [S754_finite false 8808038 (-24); S754_finite false 15938355 (-25); S754_zero false];
     bestCost := S754_finite false 14417920 (-17);
     bestTime := S754_finite false 11327976 (-31);
     bestConfig := [1; 0; 1]%N;
     bestAccessFractions :=
       [S754_finite false 8808038 (-24); S754_zero false; S754_finite false 15938355 (-25)] |}.

End Twins.

(** ** The feasibility rules in the words of the specification *)

Section FeasibilitySpec.
Context {F : Type} `{FloatOps F}.
Variable techs : list (Tech F).

(** Tier [t] has a nonzero device count. *)
Definition populated (config : Config) (t : nat) : Prop :=
  exists c, config !! t = Some c /\ c <> 0%N.

(** [i] is the populated tier just before the populated tier [j]. *)
Definition previous_populated (config : Config) (i j : nat) : Prop :=
  i < j /\ populated config i /\ populated config j /\
  forall k, i < k < j -> ~ populated config k.

(** [l] is the last (slowest) populated tier. *)
Definition last_populated (config : Config) (l : nat) : Prop :=
  populated config l /\ forall k, l < k -> ~ populated config k.

(** Rule 2: no populated tier has strictly less total capacity than the
    populated tier before it. *)
Definition inclusive (config : Config) : Prop :=
  forall i j ci cj,
    previous_populated config i j ->
    tierCapacity techs config i = Some ci ->
    tierCapacity techs config j = Some cj ->
    flt cj ci = false.

(** Rule 3: the last populated tier's total capacity is not strictly less
    than the sum of all access-group sizes. *)
Definition holds_working_set (config : Config) (workload : Workload F) : Prop :=
  forall l cl,
    last_populated config l ->
    tierCapacity techs config l = Some cl ->
    flt cl (sumSpaceNeeded workload) = false.

Definition isValid_spec (config : Config) (workload : Workload F) : Prop :=
  populated config 0 /\ inclusive config /\ holds_working_set config workload.

(** The vector [indexes] lists tier numbers in increasing order. *)
Definition increasing (l : list nat) : Prop :=
  forall p q x y, l !! p = Some x -> l !! q = Some y -> p < q -> x < y.

End FeasibilitySpec.

(** ** The feasibility rules, over the values the specification names *)

Section FeasibilityRules.
Context {F : Type} `{FloatOps F}.
Variable techs : list (Tech F).

(** The total capacity of a tier: the device count, converted to [float],
    times the per-device capacity, rounded as a [float] product is. *)
Definition total_capacity (tech : Tech F) (count : N) : F :=
  fmul (of_Z (Z.of_N count)) (capacity tech).

(** The sum of the sizes of the access groups, added up in [float] from
    zero, first group first, each addition rounding. *)
Fixpoint sum_of_sizes_from (sum : F) (workload : Workload F) : F :=
  match workload with
  | [] => sum
  | g :: rest => sum_of_sizes_from (fadd sum (size g)) rest
  end.

Definition sum_of_sizes (workload : Workload F) : F :=
  sum_of_sizes_from (of_Z 0) workload.

(** [cap] is the total capacity of tier [t] under [config]. *)
Definition capacity_of (config : Config) (t : nat) (cap : F) : Prop :=
  exists count tech,
    config !! t = Some count /\ techs !! t = Some tech /\ cap = total_capacity tech count.

(** Rule 1: the first tier has a device. *)
Definition rule_first_tier (config : Config) : Prop :=
  exists count, config !! 0 = Some count /\ count <> 0%N.

(** Rule 2: no populated tier's total capacity is strictly less than the
    total capacity of the populated tier before it. *)
Definition rule_inclusive (config : Config) : Prop :=
  forall i j ci cj,
    previous_populated config i j ->
    capacity_of config i ci -> capacity_of config j cj ->
    flt cj ci = false.

(** Rule 3: the last populated tier's total capacity is not strictly less
    than the sum of the sizes. *)
Definition rule_working_set (config : Config) (workload : Workload F) : Prop :=
  forall l cl,
    last_populated config l -> capacity_of config l cl ->
    flt cl (sum_of_sizes workload) = false.

Definition isValid_rules (config : Config) (workload : Workload F) : Prop :=
  rule_first_tier config /\ rule_inclusive config /\ rule_working_set config workload.

End FeasibilityRules.

(** ** The search space and the ranking, in the words of the specification *)

Section SearchSpec.
Context {F : Type} `{FloatOps F}.
Variable techs : list (Tech F).

(** The Cartesian product of the device counts of the tiers [rest], each
    ranging over [[0, max)], in the order of the enumeration (the last tier
    is the innermost loop). *)
Fixpoint assignments (rest : list (Tech F)) : list Config :=
  match rest with
  | [] => [[]]
  | t :: rest' => concat (map (fun count => map (cons count) (assignments rest')) (counts (max t)))
  end.

Definition search_space : list Config := assignments techs.

(** One device count per tier, each below the tier's [max]. *)
Definition in_range (config : Config) : Prop :=
  length config = length techs /\
  forall t tech k, techs !! t = Some tech -> config !! t = Some k -> (k < max tech)%N.

(** The configuration [findBestConfig] starts from. *)
Definition zero_config : Config := replicate (length techs) 0%N.

(** The simulator called on a zeroed buffer of [techs.size()] entries. *)
Definition simulate (workload : Workload F) (config : Config) : option (list F) :=
  computeAccessFractions techs workload config (replicate (length techs) (of_Z 0)).

(** The time metric selected by [optimizeThroughput]. *)
Definition timeOf (optimizeThroughput : bool) (fractions : list F) : option F :=
  if optimizeThroughput then avgTimePerAccess techs fractions
  else avgLatencyPerAccess techs fractions.

(** [config] passes the feasibility check and costs strictly less than the limit. *)
Definition feasible (workload : Workload F) (costLimit : F) (config : Config) (cost : F) : Prop :=
  isValid techs config workload = Some true /\
  configCost techs config = Some cost /\
  flt cost costLimit = true.

(** A feasible configuration together with its cost, access fractions and time. *)
Definition scored (workload : Workload F) (costLimit : F) (optimizeThroughput : bool)
    (config : Config) (cost : F) (fractions : list F) (time : F) : Prop :=
  feasible workload costLimit config cost /\
  simulate workload config = Some fractions /\
  timeOf optimizeThroughput fractions = Some time.

(** The best slots still hold their initial values. *)
Definition untouched (s : Search) : Prop :=
  bestCost s = float_max /\ bestTime s = float_max /\
  bestConfig s = zero_config /\
  bestAccessFractions s = replicate (length techs) (of_Z 0).

(** [(time, cost)] does not beat the best slots of [s]. *)
Definition not_better (time cost : F) (s : Search) : Prop :=
  flt time (bestTime s) = false /\
  (feq time (bestTime s) = true -> flt cost (bestCost s) = false).

(** The best slots of [s] hold the scored configuration at position [i] of
    the list [visited], and no scored configuration before it in the list
    ties with it on both time and cost. *)
Definition selected (workload : Workload F) (costLimit : F) (optimizeThroughput : bool)
    (visited : list Config) (s : Search) (i : nat) : Prop :=
  visited !! i = Some (bestConfig s) /\
  scored workload costLimit optimizeThroughput
    (bestConfig s) (bestCost s) (bestAccessFractions s) (bestTime s) /\
  forall j c cost fractions time,
    j < i -> visited !! j = Some c ->
    scored workload costLimit optimizeThroughput c cost fractions time ->
    ~ (feq time (bestTime s) = true /\ feq cost (bestCost s) = true).

(** [config] is not feasible: the check of [visit] that skips it. *)
Definition infeasibleb (workload : Workload F) (costLimit : F) (config : Config) : bool :=
  match isValid techs config workload with
  | Some true =>
      match configCost techs config with
      | Some cost => negb (flt cost costLimit)
      | None => true
      end
  | _ => true
  end.

(** Within the device-count caps of the catalog, the total capacity of a
    tier is a number (not NaN) that does not shrink when devices are added. *)
Definition capacity_monotone : Prop :=
  forall t tech n n',
    techs !! t = Some tech -> (0 < n)%N -> (n <= n')%N -> (n' < max tech)%N ->
    feq (fmul (of_unsigned n) (capacity tech)) (fmul (of_unsigned n) (capacity tech)) = true /\
    flt (fmul (of_unsigned n') (capacity tech)) (fmul (of_unsigned n) (capacity tech)) = false.

(** The same, as a check that can be run on a catalog. *)
Definition capacity_monotoneb : bool :=
  forallb (fun tech =>
    forallb (fun n' =>
      forallb (fun n =>
        if (0 <? n)%N && (n <=? n')%N then
          feq (fmul (of_unsigned n) (capacity tech)) (fmul (of_unsigned n) (capacity tech)) &&
          negb (flt (fmul (of_unsigned n') (capacity tech)) (fmul (of_unsigned n) (capacity tech)))
        else true)
      (counts (max tech)))
    (counts (max tech)))
  techs.

(** The best slots are either still untouched or hold a scored configuration
    that was visited. *)
Definition best_is_visited (workload : Workload F) (costLimit : F) (optimizeThroughput : bool)
    (visited : list Config) (s : Search) : Prop :=
  length (accessFractions s) = length techs /\
  (untouched s \/
   (bestConfig s ∈ visited /\
    scored workload costLimit optimizeThroughput
      (bestConfig s) (bestCost s) (bestAccessFractions s) (bestTime s))).


(** The invariant of the search: no visited scored configuration beats the
    best slots, and the best slots hold the first of the visited scored
    configurations with their time and cost. *)
Definition ranked (workload : Workload F) (costLimit : F) (optimizeThroughput : bool)
    (visited : list Config) (s : Search) : Prop :=
  length (accessFractions s) = length techs /\
  (forall c cost fractions time,
     c ∈ visited ->
     scored workload costLimit optimizeThroughput c cost fractions time ->
     not_better time cost s) /\
  (untouched s \/
   exists i, selected workload costLimit optimizeThroughput visited s i).

(** [a <= b] on floats. *)
Definition fle (a b : F) : bool := flt a b || feq a b.

End SearchSpec.

(** The comparisons of a [float] arithmetic behave like an order with
    incomparable elements (NaN): every law below holds for IEEE-754. *)
Class OrderLaws (F : Type) `{FloatOps F} : Prop := {
  flt_irrefl : forall a, flt a a = false;
  flt_trans : forall a b c, flt a b = true -> flt b c = true -> flt a c = true;
  feq_trans : forall a b c, feq a b = true -> feq b c = true -> feq a c = true;
  feq_flt : forall a b c, feq a b = true -> flt b c = true -> flt a c = true;
  flt_feq : forall a b c, flt a b = true -> feq b c = true -> flt a c = true;
  (* a <= b <= c through a number b that is not NaN *)
  nlt_trans : forall a b c,
    feq b b = true -> flt b a = false -> flt c b = false -> flt c a = false
}.

(** Only numbers compare (NaN is neither below nor equal to anything), and
    two numbers are ordered or equal. *)
Class TotalLaws (F : Type) `{FloatOps F} : Prop := {
  flt_number : forall a b, flt a b = true -> feq a a = true /\ feq b b = true;
  feq_number : forall a b, feq a b = true -> feq a a = true /\ feq b b = true;
  feq_sym : forall a b, feq a b = true -> feq b a = true;
  trichotomy : forall a b,
    feq a a = true -> feq b b = true -> flt a b = false -> flt b a = false -> feq a b = true
}.

(** The exact sum of a list of rationals. *)
Definition Qsum (l : list Q) : Q := fold_right Qplus 0%Q l.

(** ** The best slots and the sentinel; searches that complete *)

Section SearchBounds.
Context {F : Type} `{FloatOps F}.
Variable techs : list (Tech F).

(** The best time does not exceed the sentinel, and the best slots are
    either untouched or hold a pair that beat the pair of sentinels. *)
Definition below_sentinel (s : @Search F) : Prop :=
  length (accessFractions s) = length techs /\
  flt float_max (bestTime s) = false /\
  (untouched techs s \/
   flt (bestTime s) float_max = true \/
   (feq (bestTime s) float_max = true /\ flt (bestCost s) float_max = true)).

(** The simulator has a result on [config] whenever [isValid] accepts it:
    a check that can be run on a configuration. *)
Definition simulatesb (workload : Workload F) (config : Config) : bool :=
  match isValid techs config workload with
  | Some true =>
      match simulate techs workload config with
      | Some _ => true
      | None => false
      end
  | _ => true
  end.

End SearchBounds.

(** ** The order of the enumeration *)

(** The strict lexicographic order on count vectors, the first tier being
    the most significant. *)
Fixpoint lex_lt (a b : Config) : Prop :=
  match a, b with
  | x :: a', y :: b' => (x < y)%N \/ (x = y /\ lex_lt a' b')
  | _, _ => False
  end.

(** The entries of [l] appear in strictly increasing order for [R]. *)
Definition ascending {A : Type} (R : A -> A -> Prop) (l : list A) : Prop :=
  forall i j a b, l !! i = Some a -> l !! j = Some b -> i < j -> R a b.

(** The number of leaves of the enumeration: the product of the [max]
    fields of the tiers. *)
Definition leaves {F : Type} (rest : list (Tech F)) : nat :=
  fold_right (fun t n => N.to_nat (max t) * n) 1 rest.

(** ** Values of binary32 numbers, and rounding *)

(** The rational [m * 2^e]. *)
Definition F2Q (m e : Z) : Q := (inject_Z m * 2 ^ e)%Q.

(** The value of a number; an infinity or NaN has none, and is given 0. *)
Definition SF2Q (x : spec_float) : Q :=
  match x with
  | S754_finite s m e => F2Q (cond_Zopp s (Z.pos m)) e
  | _ => 0%Q
  end.


(** The position of [x] in [[m * 2^e, (m+1) * 2^e)], for the mantissa [m]
    and the round and sticky bits of the record [mrs]: on the lower end,
    below the middle, in the middle, or above it. *)
Definition located (mrs : shr_record) (e : Z) (x : Q) : Prop :=
  (0 <= shr_m mrs)%Z /\
  match shr_r mrs, shr_s mrs with
  | false, false => (x == F2Q (shr_m mrs) e)%Q
  | false, true => (F2Q (shr_m mrs) e < x /\ 2 * x < 2 * F2Q (shr_m mrs) e + 2 ^ e)%Q
  | true, false => (2 * x == 2 * F2Q (shr_m mrs) e + 2 ^ e)%Q
  | true, true => (2 * F2Q (shr_m mrs) e + 2 ^ e < 2 * x /\ x < F2Q (shr_m mrs) e + 2 ^ e)%Q
  end.

(** A non-negative number that binary32 represents: zero, or [m * 2^e] for
    a mantissa and an exponent in the format. *)
Definition representable (y : Q) : Prop :=
  (y == 0)%Q \/ exists m e, bounded prec32 emax32 m e = true /\ (y == F2Q (Z.pos m) e)%Q.

(** Half the distance between 1 and the next binary32 number: [2^-24]. *)
Definition u32 : Q := 1 # 16777216.

(** The number [r] that rounding returns for the magnitude [R] of the
    format (unbounded above) and the sign [s]: a zero, the number itself,
    or an infinity when [R] is [2^128] or more. *)
Definition rounded (s : bool) (R : Q) (r : spec_float) : Prop :=
  valid_binary prec32 emax32 r = true /\
  (((R == 0)%Q /\ r = S754_zero s) \/
   (exists m e, r = S754_finite s m e /\ (R == F2Q (Z.pos m) e)%Q) \/
   ((2 ^ 128 <= R)%Q /\ r = S754_infinity s)).

(** [R] is a number of the format nearest to [x >= 0]: no representable
    number lies strictly between [x] and [R]. *)
Definition nearest (x R : Q) : Prop :=
  (forall y, representable y -> (x <= y)%Q -> (R <= y)%Q) /\
  (forall y, representable y -> (y <= x)%Q -> (y <= R)%Q).

(** [R] is what rounding to nearest, ties to even, makes of [x >= 0]: [x]
    lies between two neighbours of the grid of the format at its height
    (step [2^e1], with [e1 = emin] or a full mantissa), and [R] is the
    neighbour that [round_nearest_even] picks from the position of [x]. *)
Definition nearest_even (x R : Q) : Prop :=
  exists mrs e1,
    located mrs e1 x /\ (-149 <= e1)%Z /\ (shr_m mrs < 2 ^ 24)%Z /\
    ((-149 < e1)%Z -> (2 ^ 23 <= shr_m mrs)%Z) /\
    (R == F2Q (round_nearest_even (shr_m mrs) (loc_of_shr_record mrs)) e1)%Q.

(** A well-formed binary32 number that is finite and not negative (either
    zero counts). *)
Definition finite_nonneg (x : spec_float) : Prop :=
  match x with
  | S754_zero _ => True
  | S754_finite false m e => bounded prec32 emax32 m e = true
  | _ => False
  end.

(** The same, or +infinity. *)
Definition nonneg (x : spec_float) : Prop :=
  finite_nonneg x \/ x = S754_infinity false.

(** The number [r] is the rounding of the exact result [x >= 0] of an
    operation: the number of the format nearest to [x], or +infinity when
    that number is [2^128] or more. *)
Definition rounds_to (x : Q) (r : spec_float) : Prop :=
  exists R : Q,
    nearest x R /\ nearest_even x R /\
    ((finite_nonneg r /\ (SF2Q r == R)%Q) \/ (r = S754_infinity false /\ (2 ^ 128 <= R)%Q)).

(** The rounding of [x], the nearest number being within the relative
    error [2^-24] of [x]. *)
Definition rounds_within (x : Q) (r : spec_float) : Prop :=
  exists R : Q,
    nearest x R /\ nearest_even x R /\ ((1 - u32) * x <= R)%Q /\ (R <= (1 + u32) * x)%Q /\
    ((finite_nonneg r /\ (SF2Q r == R)%Q) \/ (r = S754_infinity false /\ (2 ^ 128 <= R)%Q)).

(** [a <= b] for two numbers that are not negative: [b] is +infinity, or
    both are finite with values in order. *)
Definition le32 (a b : spec_float) : Prop :=
  nonneg a /\
  (b = S754_infinity false \/ (finite_nonneg a /\ finite_nonneg b /\ (SF2Q a <= SF2Q b)%Q)).

(** A zero of either sign. *)
Definition is_zero (x : spec_float) : Prop := exists s, x = S754_zero s.

(** Tiers without devices hold no fraction, and the cursor has no capacity
    left while it stands on one of them. *)
Definition unused_state (config : Config) (st : @SimState spec_float) : Prop :=
  (forall t x, config !! t = Some 0%N -> fractionsOut st !! t = Some x -> is_zero x) /\
  (config !! tech st = Some 0%N -> is_zero (techCapacity st)).

(** The remaining capacity and the accumulated fractions of the simulator
    are numbers that are not negative. *)
Definition nonneg_state (st : @SimState spec_float) : Prop :=
  nonneg (techCapacity st) /\ Forall nonneg (fractionsOut st).





(** ** Loops *)

Lemma foldM_app {A S : Type} (body : S -> A -> option S) (xs ys : list A) (s : S) :
  foldM body (xs ++ ys) s = s' ← foldM body xs s; foldM body ys s'.
Proof.
  revert s. induction xs as [|x xs IH]; intros s; simpl; [done|].
  destruct (body s x); simpl; [apply IH | done].
Qed.

(** An invariant of the loop body holds when the loop is left. *)
Lemma foldM_invariant {A S : Type} (body : S -> A -> option S) (I : S -> Prop) (xs : list A) :
  (forall s x s', x ∈ xs -> I s -> body s x = Some s' -> I s') ->
  forall s s', I s -> foldM body xs s = Some s' -> I s'.
Proof.
  induction xs as [|x xs IH]; intros Hbody s s' Hs Hrun; simpl in Hrun.
  - by simplify_eq.
  - destruct (body s x) as [s1|] eqn:Hb; simpl in Hrun; [|done].
    eapply IH; [|eapply Hbody; [|exact Hs|exact Hb]|exact Hrun].
    + intros ? ? ? Hin. apply Hbody. by right.
    + by left.
Qed.

(** A loop whose body never fails runs to its end. *)
Lemma foldM_total {A S : Type} (body : S -> A -> option S) (I : S -> Prop) (xs : list A) :
  (forall s x, x ∈ xs -> I s -> exists s', body s x = Some s' /\ I s') ->
  forall s, I s -> exists s', foldM body xs s = Some s' /\ I s'.
Proof.
  induction xs as [|x xs IH]; intros Hbody s Hs; simpl.
  - eauto.
  - destruct (Hbody s x) as (s1 & -> & Hs1); [by left|done|]. simpl.
    apply IH; [|done]. intros ? ? Hin. apply Hbody. by right.
Qed.

(** ** The feasibility checker *)

Section FeasibilityProofs.
Context {F : Type} `{FloatOps F}.
Variable techs : list (Tech F).

Lemma increasing_snoc (l : list nat) (t : nat) :
  increasing l -> (forall x, x ∈ l -> x < t) -> increasing (l ++ [t]).
Proof.
  intros Hinc Hlt p q x y Hp Hq Hpq.
  apply lookup_app_Some in Hp as [Hp|[Hlen Hp]];
    apply lookup_app_Some in Hq as [Hq|[Hlen' Hq]].
  - eauto.
  - apply list_lookup_singleton_Some in Hq as [_ <-].
    apply Hlt. by eapply list_elem_of_lookup_2.
  - apply lookup_lt_Some in Hq. lia.
  - apply list_lookup_singleton_Some in Hp as [Hp _].
    apply list_lookup_singleton_Some in Hq as [Hq _]. lia.
Qed.

Lemma increasing_inj (l : list nat) p q x :
  increasing l -> l !! p = Some x -> l !! q = Some x -> p = q.
Proof.
  intros Hinc Hp Hq.
  destruct (Nat.lt_trichotomy p q) as [Hlt|[->|Hlt]]; [|done|].
  - specialize (Hinc _ _ _ _ Hp Hq Hlt). lia.
  - specialize (Hinc _ _ _ _ Hq Hp Hlt). lia.
Qed.

Lemma increasing_lt_inv (l : list nat) p q x y :
  increasing l -> l !! p = Some x -> l !! q = Some y -> x < y -> p < q.
Proof.
  intros Hinc Hp Hq Hxy.
  destruct (Nat.lt_trichotomy p q) as [Hlt|[->|Hlt]]; [done| |].
  - simplify_eq. lia.
  - specialize (Hinc _ _ _ _ Hq Hp Hlt). lia.
Qed.

(** The loop that fills [indexes]: with [indexes] holding the populated tiers
    below [a], in increasing order, it ends holding those below [a + k]. *)
Lemma collect_indexes_spec (config : Config) (k a : nat) (acc : list nat) :
  a + k <= length config ->
  increasing acc ->
  (forall x, x ∈ acc <-> x < a /\ populated config x) ->
  exists indexes,
    collect_indexes config (seq a k) acc = Some indexes /\
    increasing indexes /\
    (forall x, x ∈ indexes <-> x < a + k /\ populated config x).
Proof.
  revert a acc. induction k as [|k IH]; intros a acc Hlen Hinc Hmem; simpl.
  - exists acc. split; [done|]. split; [done|].
    intros x. rewrite Hmem. by replace (a + 0) with a by lia.
  - destruct (lookup_lt_is_Some_2 config a) as [c Hc]; [lia|].
    rewrite Hc. simpl.
    destruct (IH (S a) (if (c =? 0)%N then acc else acc ++ [a])) as (indexes & Hrun & Hinc' & Hmem').
    + lia.
    + destruct (c =? 0)%N; [done|].
      apply increasing_snoc; [done|]. intros x Hx. by apply Hmem in Hx as [? _].
    + intros x. destruct (N.eqb_spec c 0) as [->|Hne].
      * rewrite Hmem. split.
        -- intros [? ?]. split; [lia|done].
        -- intros [Hx Hpop]. split; [|done].
           destruct (decide (x = a)) as [->|]; [|lia].
           destruct Hpop as (c' & Hc' & Hne). by simplify_eq.
      * rewrite elem_of_app, Hmem, list_elem_of_singleton. split.
        -- intros [[? ?]| ->]; [split; [lia|done]|]. split; [lia|]. by exists c.
        -- intros [Hx Hpop]. destruct (decide (x = a)); [by right|left]. split; [lia|done].
    + exists indexes. split; [done|]. split; [done|].
      intros x. rewrite Hmem'. by replace (S a + k) with (a + S k) by lia.
Qed.

Lemma tierCapacity_Some (config : Config) (t : nat) :
  t < length config -> t < length techs ->
  exists c tech, config !! t = Some c /\ techs !! t = Some tech /\
    tierCapacity techs config t = Some (fmul (of_unsigned c) (capacity tech)).
Proof.
  intros Hc Ht.
  destruct (lookup_lt_is_Some_2 config t Hc) as [c Hc'].
  destruct (lookup_lt_is_Some_2 techs t Ht) as [tech Ht'].
  exists c, tech. unfold tierCapacity. rewrite Hc', Ht'. done.
Qed.

Lemma populated_lt (config : Config) (t : nat) :
  populated config t -> t < length config.
Proof. intros (c & Hc & _). by eapply lookup_lt_Some. Qed.

(** Neighbours in [indexes] are exactly the pairs of a populated tier and the
    populated tier before it. *)
Lemma adjacent_previous_populated (config : Config) (indexes : list nat) (i j : nat) :
  increasing indexes ->
  (forall x, x ∈ indexes <-> populated config x) ->
  previous_populated config i j <->
  exists p, indexes !! p = Some i /\ indexes !! S p = Some j.
Proof.
  intros Hinc Hmem. split.
  - intros (Hij & Hi & Hj & Hnone).
    apply Hmem, list_elem_of_lookup in Hi as [p Hp].
    apply Hmem, list_elem_of_lookup in Hj as [q Hq].
    exists p. split; [done|].
    assert (p < q) as Hpq by (by eapply increasing_lt_inv).
    destruct (decide (q = S p)) as [->|Hne]; [done|].
    destruct (lookup_lt_is_Some_2 indexes (S p)) as [m Hm].
    { apply lookup_lt_Some in Hq. lia. }
    exfalso. apply (Hnone m).
    + split; [eapply (Hinc p (S p)); eauto|eapply (Hinc (S p) q); eauto; lia].
    + apply Hmem. by eapply list_elem_of_lookup_2.
  - intros (p & Hp & Hq). split; [eapply (Hinc p (S p)); eauto|].
    split; [apply Hmem; by eapply list_elem_of_lookup_2|].
    split; [apply Hmem; by eapply list_elem_of_lookup_2|].
    intros k [Hik Hkj] Hk.
    apply Hmem, list_elem_of_lookup in Hk as [r Hr].
    assert (p < r) by (by eapply increasing_lt_inv).
    assert (r < S p) by (by eapply increasing_lt_inv).
    lia.
Qed.

(** [indexes.back()] is the last populated tier. *)
Lemma back_last_populated (config : Config) (indexes : list nat) (l : nat) :
  increasing indexes ->
  (forall x, x ∈ indexes <-> populated config x) ->
  last_populated config l <-> last indexes = Some l.
Proof.
  intros Hinc Hmem. rewrite last_lookup. split.
  - intros [Hl Hnone].
    apply Hmem, list_elem_of_lookup in Hl as [p Hp].
    assert (p < length indexes) as Hlt by (by eapply lookup_lt_Some).
    destruct (decide (p = pred (length indexes))) as [->|Hne]; [done|].
    destruct (lookup_lt_is_Some_2 indexes (pred (length indexes))) as [m Hm]; [lia|].
    exfalso. apply (Hnone m).
    + eapply (Hinc p (pred (length indexes))); eauto. lia.
    + apply Hmem. by eapply list_elem_of_lookup_2.
  - intros Hl. split; [apply Hmem; by eapply list_elem_of_lookup_2|].
    intros k Hlk Hk.
    apply Hmem, list_elem_of_lookup in Hk as [r Hr].
    assert (pred (length indexes) < r) by (by eapply increasing_lt_inv).
    apply lookup_lt_Some in Hr. lia.
Qed.

(** The loop that compares neighbouring populated tiers. *)
Lemma inclusive_loop_spec (config : Config) (indexes positions : list nat) :
  (forall x, x ∈ indexes -> x < length config /\ x < length techs) ->
  (forall p, p ∈ positions -> 1 <= p < length indexes) ->
  exists b,
    inclusive_loop techs config indexes positions = Some b /\
    (b = true <->
     forall p i j ci cj,
       p ∈ positions ->
       indexes !! (p - 1) = Some i -> indexes !! p = Some j ->
       tierCapacity techs config i = Some ci -> tierCapacity techs config j = Some cj ->
       flt cj ci = false).
Proof.
  intros Hrange. induction positions as [|p ps IH]; intros Hpos; simpl.
  - exists true. split; [done|]. split; [|done]. intros _ p ? ? ? ? Hp. by apply elem_of_nil in Hp.
  - destruct (Hpos p) as [Hp1 Hp2]; [by left|].
    destruct (lookup_lt_is_Some_2 indexes p) as [cur Hcur]; [lia|].
    destruct (lookup_lt_is_Some_2 indexes (p - 1)) as [prev Hprev]; [lia|].
    rewrite Hcur, Hprev. simpl.
    destruct (Hrange cur) as [? ?]; [by eapply list_elem_of_lookup_2|].
    destruct (Hrange prev) as [? ?]; [by eapply list_elem_of_lookup_2|].
    destruct (tierCapacity_Some config cur) as (c1 & t1 & _ & _ & Hccur); [done..|].
    destruct (tierCapacity_Some config prev) as (c2 & t2 & _ & _ & Hcprev); [done..|].
    rewrite Hccur, Hcprev. simpl.
    destruct (flt _ _) eqn:Hlt.
    + exists false. split; [done|]. split; [done|]. intros Hall.
      rewrite (Hall p prev cur _ _) in Hlt; [done|by left|done..].
    + destruct IH as (b & Hrun & Hb); [intros; apply Hpos; by right|].
      exists b. split; [done|]. rewrite Hb. split.
      * intros Hall q i j ci cj Hq Hi Hj Hci Hcj.
        apply elem_of_cons in Hq as [->|Hq]; [|by eapply Hall].
        by simplify_eq.
      * intros Hall q i j ci cj Hq. apply Hall. by right.
Qed.

(** [isValid] returns a boolean on every configuration with one entry per
    tier of a non-empty catalog, and that boolean says whether the three
    feasibility rules hold. *)
Lemma isValid_correct (config : Config) (workload : Workload F) :
  length config = length techs -> techs <> [] ->
  exists b, isValid techs config workload = Some b /\
            (b = true <-> isValid_spec techs config workload).
Proof.
  intros Hlen Hne.
  assert (0 < length techs) as Hpos by (destruct techs; simpl; [done|lia]).
  destruct (lookup_lt_is_Some_2 config 0) as [c0 Hc0]; [lia|].
  unfold isValid. rewrite Hc0. simpl.
  destruct (N.eqb_spec c0 0) as [->|Hc0ne].
  { exists false. split; [done|]. split; [done|].
    intros [(c & Hc & Hcne) _]. by simplify_eq. }
  destruct (collect_indexes_spec config (length techs) 0 []) as (indexes & -> & Hinc & Hmem).
  { lia. }
  { intros p q x y Hp. by rewrite lookup_nil in Hp. }
  { intros x. split; [by intros ?%elem_of_nil|lia]. }
  simpl.
  assert (forall x, x ∈ indexes <-> populated config x) as Hmem'.
  { intros x. rewrite Hmem. split; [by intros [_ ?]|].
    intros Hx. split; [|done]. apply populated_lt in Hx. lia. }
  assert (forall x, x ∈ indexes -> x < length config /\ x < length techs) as Hrange.
  { intros x Hx. apply Hmem' in Hx. apply populated_lt in Hx. lia. }
  destruct (inclusive_loop_spec config indexes (seq 1 (length indexes - 1)) Hrange)
    as (b & -> & Hb).
  { intros p Hp. apply elem_of_seq in Hp. lia. }
  simpl.
  assert (b = true <-> inclusive techs config) as Hincl.
  { rewrite Hb. split.
    - intros Hall i j ci cj Hprev Hci Hcj.
      apply (adjacent_previous_populated config indexes i j Hinc Hmem') in Hprev as (p & Hp & Hq).
      apply (Hall (S p) i j); [|by replace (S p - 1) with p by lia|done..].
      apply elem_of_seq. apply lookup_lt_Some in Hq. lia.
    - intros Hall p i j ci cj Hp Hi Hj. apply Hall.
      apply (adjacent_previous_populated config indexes i j Hinc Hmem').
      apply elem_of_seq in Hp. exists (p - 1). split; [done|].
      by replace (S (p - 1)) with p by lia. }
  destruct b; simpl.
  2:{ exists false. split; [done|]. split; [done|]. intros (_ & Hi & _). by apply Hincl in Hi. }
  assert (populated config 0) as Hpop0 by (by exists c0).
  destruct (last indexes) as [back|] eqn:Hback.
  2:{ apply last_None in Hback. subst indexes. apply Hmem' in Hpop0. by apply elem_of_nil in Hpop0. }
  simpl.
  destruct (Hrange back) as [? ?]; [by eapply last_Some_elem_of|].
  destruct (tierCapacity_Some config back) as (c & t & _ & _ & Hcback); [done..|].
  rewrite Hcback. simpl.
  destruct (flt _ _) eqn:Hlt.
  - exists false. split; [done|]. split; [done|]. intros (_ & _ & Hws).
    rewrite (Hws back _) in Hlt; [done| |done].
    by apply (back_last_populated config indexes back Hinc Hmem').
  - exists true. split; [done|]. split; [|done]. intros _.
    split; [done|]. split; [by apply Hincl|].
    intros l cl Hl Hcl.
    apply (back_last_populated config indexes l Hinc Hmem') in Hl.
    by simplify_eq.
Qed.

End FeasibilityProofs.

(** ** The comparison laws of binary32 *)

(** [SFcompare] orders the representations lexicographically, which makes
    the laws hold for every [spec_float], canonical or not. *)
Ltac SFcompare_cases :=
  unfold SFltb, SFeqb, SFcompare;
  repeat match goal with
         | x : spec_float |- _ => destruct x
         | s : bool |- _ => destruct s
         end;
  simpl; try done;
  change (Pos.compare_cont Eq) with Pos.compare;
  repeat match goal with
         | |- context [(?a ?= ?b)%Z] => destruct (Z.compare_spec a b); simpl; try done
         | |- context [(?a ?= ?b)%positive] => destruct (Pos.compare_spec a b); simpl; try done
         end;
  try lia.

#[export] Instance binary32_laws : OrderLaws spec_float.
Proof.
  split; simpl.
  - intros a. SFcompare_cases.
  - intros a b c. SFcompare_cases.
  - intros a b c. SFcompare_cases.
  - intros a b c. SFcompare_cases.
  - intros a b c. SFcompare_cases.
  - intros a b c. SFcompare_cases.
Qed.

(** ** The simulator: buffer, length and fuel *)

Section SimulatorProofs.
Context {F : Type} `{FloatOps F}.
Variable techs : list (Tech F).

Lemma turn_length (config : Config) (g : AccessGroup F) (st : SimState) (t : Turn) :
  turn techs config g st = Some t ->
  match t with
  | Advance _ st' => length (fractionsOut st') = length (fractionsOut st) /\ tech st' = S (tech st)
                     /\ tech st' < length techs
  | Break st' => length (fractionsOut st') = length (fractionsOut st) /\ tech st' = tech st
  end.
Proof.
  unfold turn. intros Hturn.
  destruct (fgt _ _); simplify_option_eq; rewrite length_insert; split; try done.
  split; [done|]. by eapply lookup_lt_Some.
Qed.

Lemma place_group_length (fuel : nat) (config : Config) (g : AccessGroup F) (st st' : SimState) :
  place_group techs fuel config g st = Some st' ->
  length (fractionsOut st') = length (fractionsOut st).
Proof.
  revert g st. induction fuel as [|fuel IH]; intros g st; simpl;
    destruct (turn techs config g st) as [[g1 st1|st1]|] eqn:Hturn; simpl; try done;
    apply turn_length in Hturn.
  - intros ?; simplify_eq. by destruct Hturn.
  - intros Hrun. apply IH in Hrun. destruct Hturn as [? _]. congruence.
  - intros ?; simplify_eq. by destruct Hturn.
Qed.

(** The fuel of [place_group] is immaterial once it covers the tiers that
    are left: the loop breaks or runs off the catalog first. *)
Lemma place_group_fuel (fuel1 fuel2 : nat) (config : Config) (g : AccessGroup F) (st : SimState) :
  length techs - tech st <= fuel1 -> length techs - tech st <= fuel2 ->
  place_group techs fuel1 config g st = place_group techs fuel2 config g st.
Proof.
  revert fuel2 g st. induction fuel1 as [|fuel1 IH]; intros fuel2 g st H1 H2; simpl.
  - destruct fuel2 as [|fuel2]; [done|]. simpl.
    destruct (turn techs config g st) as [[g1 st1|st1]|] eqn:Hturn; simpl; try done.
    apply turn_length in Hturn. lia.
  - destruct (turn techs config g st) as [[g1 st1|st1]|] eqn:Hturn; simpl.
    + pose proof (turn_length _ _ _ _ Hturn) as (_ & Ht & Hlt).
      destruct fuel2 as [|fuel2]; [lia|]. simpl. rewrite Hturn. simpl.
      apply IH; lia.
    + destruct fuel2; simpl; by rewrite Hturn.
    + destruct fuel2; simpl; by rewrite Hturn.
Qed.

Lemma computeAccessFractions_length (workload : Workload F) (config : Config) (buffer out : list F) :
  computeAccessFractions techs workload config buffer = Some out ->
  length out = length buffer.
Proof.
  unfold computeAccessFractions, sim_start. intros Hrun. simplify_option_eq.
  match goal with
  | Hfold : foldM _ _ ?st0 = Some ?st |- _ =>
      change (length (fractionsOut st) = length buffer);
      transitivity (length (fractionsOut st0)); [|simpl; by rewrite length_map];
      revert Hfold; generalize st0
  end.
  induction workload as [|g w IH]; intros st0 Hfold; simpl in Hfold.
  - by simplify_eq.
  - destruct (place_group _ _ _ _ _) as [st1|] eqn:Hg; simpl in Hfold; [|done].
    apply place_group_length in Hg. rewrite <- Hg. by apply IH.
Qed.

(** Only the length of the caller's buffer matters: [fill] overwrites it. *)
Lemma computeAccessFractions_buffer (workload : Workload F) (config : Config) (buffer1 buffer2 : list F) :
  length buffer1 = length buffer2 ->
  computeAccessFractions techs workload config buffer1 =
  computeAccessFractions techs workload config buffer2.
Proof.
  intros Hlen. unfold computeAccessFractions, sim_start.
  replace (map (fun _ : F => of_Z 0) buffer1) with (map (fun _ : F => of_Z 0) buffer2); [done|].
  revert buffer2 Hlen. induction buffer1 as [|x b1 IH]; intros [|y b2] Hlen; simpl in *; try done.
  f_equal. apply IH. lia.
Qed.

End SimulatorProofs.

(** ** The enumeration visits the search space in order *)

Lemma foldM_map {A B S : Type} (body : S -> B -> option S) (f : A -> B) (xs : list A) (s : S) :
  foldM body (map f xs) s = foldM (fun s x => body s (f x)) xs s.
Proof.
  revert s. induction xs as [|x xs IH]; intros s; simpl; [done|].
  destruct (body s (f x)); simpl; [apply IH|done].
Qed.

Lemma foldM_ext {A S : Type} (body1 body2 : S -> A -> option S) (xs : list A) (s : S) :
  (forall s x, body1 s x = body2 s x) -> foldM body1 xs s = foldM body2 xs s.
Proof.
  intros Hext. revert s. induction xs as [|x xs IH]; intros s; simpl; [done|].
  rewrite Hext. destruct (body2 s x); simpl; [apply IH|done].
Qed.

(** An invariant that speaks of the part of the list already processed. *)
Lemma foldM_invariant_prefix {A S : Type} (body : S -> A -> option S)
    (I : list A -> S -> Prop) (xs : list A) :
  (forall done x s s', I done s -> body s x = Some s' -> I (done ++ [x]) s') ->
  forall done s s', I done s -> foldM body xs s = Some s' -> I (done ++ xs) s'.
Proof.
  intros Hbody. induction xs as [|x xs IH]; intros done s s' Hs Hrun; simpl in Hrun.
  - simplify_eq. by rewrite app_nil_r.
  - destruct (body s x) as [s1|] eqn:Hb; simpl in Hrun; [|done].
    replace (done ++ x :: xs) with ((done ++ [x]) ++ xs) by (by rewrite <- app_assoc).
    eapply IH; [|exact Hrun]. by eapply Hbody.
Qed.

Section SearchProofs.
Context {F : Type} `{FloatOps F}.
Variable techs : list (Tech F).
Variable workload : Workload F.
Variable costLimit : F.
Variable optimizeThroughput : bool.

Lemma elem_of_counts (m k : N) : k ∈ counts m <-> (k < m)%N.
Proof.
  unfold counts. rewrite list_elem_of_fmap. split.
  - intros (i & -> & Hi). apply elem_of_seq in Hi. lia.
  - intros Hk. exists (N.to_nat k). split; [lia|]. apply elem_of_seq. lia.
Qed.

Lemma elem_of_assignments (rest : list (Tech F)) (a : Config) :
  a ∈ assignments rest ->
  length a = length rest /\
  forall t tech k, rest !! t = Some tech -> a !! t = Some k -> (k < max tech)%N.
Proof.
  revert a. induction rest as [|t0 rest IH]; intros a; simpl.
  - intros ->%list_elem_of_singleton. split; [done|]. intros t tech k Ht. by rewrite lookup_nil in Ht.
  - intros Ha. apply list_elem_of_In, in_concat in Ha as (l & Hl & Ha).
    apply list_elem_of_In in Hl, Ha.
    apply list_elem_of_fmap in Hl as (count & -> & Hcount).
    apply list_elem_of_fmap in Ha as (a' & -> & Ha').
    apply IH in Ha' as [Hlen Hrange]. split; [simpl; lia|].
    intros [|t] tech k Ht Hk; simpl in *; simplify_eq.
    + by apply elem_of_counts.
    + by eapply Hrange.
Qed.

Lemma search_space_in_range (config : Config) :
  config ∈ search_space techs -> in_range techs config.
Proof. apply elem_of_assignments. Qed.

(** With [config] holding the counts chosen so far in its first [configPos]
    entries, [enumerate] visits these followed by every assignment of the
    remaining tiers, in order; it leaves the first [configPos] entries of
    [config] as they were. *)
Lemma enumerate_assignments (rest : list (Tech F)) :
  forall (configPos : nat) (config : Config) (s : Search),
    length config = configPos + length rest ->
    match enumerate techs workload costLimit optimizeThroughput rest configPos config s with
    | None =>
        foldM (fun s a => visit techs workload costLimit optimizeThroughput (take configPos config ++ a) s)
          (assignments rest) s = None
    | Some (config', s') =>
        foldM (fun s a => visit techs workload costLimit optimizeThroughput (take configPos config ++ a) s)
          (assignments rest) s = Some s' /\
        length config' = length config /\ take configPos config' = take configPos config
    end.
Proof.
  induction rest as [|t rest IH]; intros configPos config s Hlen; simpl.
  - simpl in Hlen. rewrite app_nil_r, take_ge by lia.
    destruct (visit _ _ _ _ _ _); simpl; [|done].
    split; [done|]. split; [done|]. apply take_ge. lia.
  - simpl in Hlen.
    generalize (counts (max t)). intros cnts. revert config s Hlen.
    induction cnts as [|count cnts IHc]; intros config s Hlen; simpl; [done|].
    rewrite foldM_app, foldM_map.
    specialize (IH (S configPos) (<[configPos := count]> config) s).
    rewrite length_insert in IH. specialize (IH ltac:(lia)).
    assert (take (S configPos) (<[configPos := count]> config) = take configPos config ++ [count]) as Htake.
    { rewrite (take_S_r _ _ count) by (apply list_lookup_insert_eq; lia).
      by rewrite take_insert_ge by lia. }
    rewrite Htake in IH.
    rewrite (foldM_ext
               (fun s x => visit techs workload costLimit optimizeThroughput (take configPos config ++ count :: x) s)
               (fun s a => visit techs workload costLimit optimizeThroughput ((take configPos config ++ [count]) ++ a) s)).
    2:{ intros ? ?. by rewrite <- app_assoc. }
    destruct (enumerate _ _ _ _ _ _ _ _) as [[config1 s1]|]; simpl.
    + destruct IH as (-> & Hlen1 & Htake1). simpl.
      assert (take configPos config1 = take configPos config) as Hpre.
      { apply (f_equal (take configPos)) in Htake1.
        rewrite !take_take, Nat.min_l in Htake1 by lia.
        rewrite Htake1, take_app_length'; [done|]. rewrite length_take. lia. }
      specialize (IHc config1 s1 ltac:(lia)). rewrite Hpre in IHc.
      destruct (foldM _ cnts (config1, s1)) as [[config2 s2]|].
      * destruct IHc as (-> & ? & ?). split; [done|]. split; congruence.
      * done.
    + by rewrite IH.
Qed.

(** [findBestConfig] is the loop of [visit] over the search space. *)
Lemma findBestConfig_search_space :
  findBestConfig techs workload costLimit optimizeThroughput =
  foldM (fun s config => visit techs workload costLimit optimizeThroughput config s)
    (search_space techs) (initial techs).
Proof.
  unfold findBestConfig, search_space.
  pose proof (enumerate_assignments techs 0 (replicate (length techs) 0%N) (initial techs)) as Henum.
  rewrite length_replicate in Henum. specialize (Henum eq_refl). simpl in Henum.
  destruct (enumerate _ _ _ _ _ _ _ _) as [[config' s']|]; simpl.
  - by destruct Henum as (-> & _).
  - by rewrite Henum.
Qed.

End SearchProofs.

(** ** One visit, and the invariants of the search *)

Section Ranking.
Context {F : Type} `{FloatOps F}.
Variable techs : list (Tech F).
Variable workload : Workload F.
Variable costLimit : F.
Variable optimizeThroughput : bool.

Lemma configCost_total (config : Config) :
  length techs <= length config -> exists cost, configCost techs config = Some cost.
Proof.
  intros Hlen. unfold configCost.
  destruct (foldM_total
              (fun acc i => c ← config !! i; tech ← techs !! i;
                            Some (fadd acc (fmul (of_unsigned c) (cost tech))))
              (fun _ => True) (seq 0 (length techs))) with (s := of_Z 0) as (r & Hr & _);
    [|done|by exists r].
  intros acc i Hi _. apply elem_of_seq in Hi.
  destruct (lookup_lt_is_Some_2 config i) as [c ->]; [lia|].
  destruct (lookup_lt_is_Some_2 techs i) as [tech ->]; [lia|].
  simpl. eauto.
Qed.

(** What one visit does to the captured variables. *)
Lemma visit_cases (config : Config) (s s' : Search) :
  length (accessFractions s) = length techs ->
  visit techs workload costLimit optimizeThroughput config s = Some s' ->
  (s' = s /\ forall cost, ~ feasible techs workload costLimit config cost) \/
  (exists cost fractions time,
     scored techs workload costLimit optimizeThroughput config cost fractions time /\
     accessFractions s' = fractions /\ length fractions = length techs /\
     ((flt time (bestTime s) || (feq time (bestTime s) && flt cost (bestCost s)) = true /\
       bestCost s' = cost /\ bestTime s' = time /\
       bestConfig s' = config /\ bestAccessFractions s' = fractions) \/
      (flt time (bestTime s) || (feq time (bestTime s) && flt cost (bestCost s)) = false /\
       bestCost s' = bestCost s /\ bestTime s' = bestTime s /\
       bestConfig s' = bestConfig s /\ bestAccessFractions s' = bestAccessFractions s))).
Proof.
  intros Hbuf. unfold visit.
  destruct (isValid techs config workload) as [[|]|] eqn:Hvalid; simpl; [| |done].
  2:{ intros ?; simplify_eq. left. split; [done|]. intros cost (Hv & _). congruence. }
  destruct (configCost techs config) as [cost|] eqn:Hcost; simpl; [|done].
  destruct (flt cost costLimit) eqn:Hlimit.
  2:{ intros ?; simplify_eq. left. split; [done|]. intros cost' (_ & Hc & Hl). congruence. }
  destruct (computeAccessFractions techs workload config (accessFractions s)) as [fractions|] eqn:Hsim;
    simpl; [|done].
  destruct (if optimizeThroughput then _ else _) as [time|] eqn:Htime; simpl; [|done].
  assert (length fractions = length techs) as Hlen.
  { apply computeAccessFractions_length in Hsim. congruence. }
  assert (scored techs workload costLimit optimizeThroughput config cost fractions time) as Hscored.
  { split; [done|]. split; [|done]. unfold simulate.
    rewrite <- Hsim. apply computeAccessFractions_buffer. by rewrite length_replicate. }
  intros Hs'. right. exists cost, fractions, time. split; [done|].
  destruct (flt time (bestTime s) || _) eqn:Hbetter; simplify_eq; simpl.
  - split; [done|]. split; [done|]. by left.
  - split; [done|]. split; [done|]. by right.
Qed.

(** A configuration that is not feasible leaves the captured variables alone. *)
Lemma visit_skip (config : Config) (s : Search) :
  length config = length techs -> techs <> [] ->
  (forall cost, ~ feasible techs workload costLimit config cost) ->
  visit techs workload costLimit optimizeThroughput config s = Some s.
Proof.
  intros Hlen Hne Hinfeasible. unfold visit.
  destruct (isValid_correct techs config workload Hlen Hne) as (b & Hvalid & _).
  rewrite Hvalid. simpl. destruct b; [|done].
  destruct (configCost_total config) as [cost Hcost]; [lia|].
  rewrite Hcost. simpl. destruct (flt cost costLimit) eqn:Hlimit; [|done].
  by destruct (Hinfeasible cost).
Qed.

Lemma scored_functional (config : Config) cost1 fractions1 time1 cost2 fractions2 time2 :
  scored techs workload costLimit optimizeThroughput config cost1 fractions1 time1 ->
  scored techs workload costLimit optimizeThroughput config cost2 fractions2 time2 ->
  cost1 = cost2 /\ fractions1 = fractions2 /\ time1 = time2.
Proof.
  intros ((_ & Hc1 & _) & Hs1 & Ht1) ((_ & Hc2 & _) & Hs2 & Ht2).
  simplify_eq. done.
Qed.

Lemma best_is_visited_initial : best_is_visited techs workload costLimit optimizeThroughput [] (initial techs).
Proof. split; [apply length_replicate|]. by left. Qed.

Lemma best_is_visited_step (visited : list Config) (config : Config) (s s' : Search) :
  best_is_visited techs workload costLimit optimizeThroughput visited s ->
  visit techs workload costLimit optimizeThroughput config s = Some s' ->
  best_is_visited techs workload costLimit optimizeThroughput (visited ++ [config]) s'.
Proof.
  intros [Hbuf Hbest] Hvisit.
  destruct (visit_cases config s s' Hbuf Hvisit)
    as [[-> _]|(cost & fractions & time & Hscored & Hfr & Hlen & Hcase)].
  - split; [done|]. destruct Hbest as [?|[? ?]]; [by left|right].
    split; [|done]. apply elem_of_app. by left.
  - split; [congruence|].
    destruct Hcase as [(_ & Hc & Ht & Hcfg & Hf)|(_ & Hc & Ht & Hcfg & Hf)].
    + right. rewrite Hc, Ht, Hcfg, Hf. split; [|done].
      apply elem_of_app. right. by apply list_elem_of_singleton.
    + destruct Hbest as [(? & ? & ? & ?)|[? ?]].
      * left. repeat split; congruence.
      * right. rewrite Hc, Ht, Hcfg, Hf. split; [|done]. apply elem_of_app. by left.
Qed.

Lemma findBestConfig_best_is_visited (r : Search) :
  findBestConfig techs workload costLimit optimizeThroughput = Some r ->
  best_is_visited techs workload costLimit optimizeThroughput (search_space techs) r.
Proof.
  rewrite findBestConfig_search_space. intros Hrun.
  apply (foldM_invariant_prefix _ (best_is_visited techs workload costLimit optimizeThroughput) (search_space techs)) with (done := []) in Hrun;
    [done| |apply best_is_visited_initial].
  intros done x s s'. apply best_is_visited_step.
Qed.



End Ranking.

Section RankingLaws.
Context {F : Type} `{OrderLaws F}.
Variable techs : list (Tech F).
Variable workload : Workload F.
Variable costLimit : F.
Variable optimizeThroughput : bool.

(** A candidate that did not beat the old best does not beat a new best
    that did. *)
Lemma not_better_after (t c t' c' bt bc : F) :
  flt t bt = false -> (feq t bt = true -> flt c bc = false) ->
  flt t' bt || (feq t' bt && flt c' bc) = true ->
  flt t t' = false /\ (feq t t' = true -> flt c c' = false).
Proof.
  intros Hlt Htie Haccept.
  apply orb_true_iff in Haccept as [Hacc|[Hacc1 Hacc2]%andb_true_iff].
  - split.
    + destruct (flt t t') eqn:Htt'; [|done]. by rewrite (flt_trans _ _ _ Htt' Hacc) in Hlt.
    + intros Heq. by rewrite (feq_flt _ _ _ Heq Hacc) in Hlt.
  - split.
    + destruct (flt t t') eqn:Htt'; [|done]. by rewrite (flt_feq _ _ _ Htt' Hacc1) in Hlt.
    + intros Heq. specialize (Htie (feq_trans _ _ _ Heq Hacc1)).
      destruct (flt c c') eqn:Hcc'; [|done]. by rewrite (flt_trans _ _ _ Hcc' Hacc2) in Htie.
Qed.

(** ... and does not tie with it on both time and cost either. *)
Lemma no_tie_after (t c t' c' bt bc : F) :
  flt t bt = false -> (feq t bt = true -> flt c bc = false) ->
  flt t' bt || (feq t' bt && flt c' bc) = true ->
  ~ (feq t t' = true /\ feq c c' = true).
Proof.
  intros Hlt Htie Haccept [Heqt Heqc].
  apply orb_true_iff in Haccept as [Hacc|[Hacc1 Hacc2]%andb_true_iff].
  - by rewrite (feq_flt _ _ _ Heqt Hacc) in Hlt.
  - specialize (Htie (feq_trans _ _ _ Heqt Hacc1)).
    by rewrite (feq_flt _ _ _ Heqc Hacc2) in Htie.
Qed.

Lemma ranked_initial : ranked techs workload costLimit optimizeThroughput [] (initial techs).
Proof.
  split; [apply length_replicate|]. split; [|by left].
  intros c ? ? ? Hc. by apply elem_of_nil in Hc.
Qed.

Lemma selected_snoc (visited : list Config) (config : Config) (s s' : Search) (i : nat) :
  bestCost s' = bestCost s -> bestTime s' = bestTime s ->
  bestConfig s' = bestConfig s -> bestAccessFractions s' = bestAccessFractions s ->
  selected techs workload costLimit optimizeThroughput visited s i ->
  selected techs workload costLimit optimizeThroughput (visited ++ [config]) s' i.
Proof.
  intros Hc Ht Hcfg Hf (Hi & Hscored & Hfirst). unfold selected.
  rewrite Hc, Ht, Hcfg, Hf.
  assert (i < length visited) as Hlt by (by eapply lookup_lt_Some).
  split; [by rewrite lookup_app_l|]. split; [done|].
  intros j c cost fractions time Hj Hjc. rewrite lookup_app_l in Hjc by lia.
  by eapply Hfirst.
Qed.

Lemma ranked_step (visited : list Config) (config : Config) (s s' : Search) :
  ranked techs workload costLimit optimizeThroughput visited s ->
  visit techs workload costLimit optimizeThroughput config s = Some s' ->
  ranked techs workload costLimit optimizeThroughput (visited ++ [config]) s'.
Proof.
  intros (Hbuf & Hmin & Hsel) Hvisit.
  destruct (visit_cases techs workload costLimit optimizeThroughput config s s' Hbuf Hvisit)
    as [[-> Hinf]|(cost & fractions & time & Hscored & Hfr & Hlen & Hcase)].
  - split; [done|]. split.
    + intros c cost' fractions' time' [Hc| ->%list_elem_of_singleton]%elem_of_app Hsc.
      * by eapply Hmin.
      * destruct Hsc as [Hfeas _]. by destruct (Hinf cost').
    + destruct Hsel as [?|[i Hi]]; [by left|right]. exists i. by apply (selected_snoc _ _ s).
  - split; [congruence|].
    destruct Hcase as [(Hacc & Hc & Ht & Hcfg & Hf)|(Hrej & Hc & Ht & Hcfg & Hf)].
    + split.
      * intros c cost' fractions' time' [Hin| ->%list_elem_of_singleton]%elem_of_app Hsc.
        -- destruct (Hmin _ _ _ _ Hin Hsc) as [Hm1 Hm2].
           unfold not_better. rewrite Hc, Ht. by eapply not_better_after.
        -- destruct (scored_functional _ _ _ _ _ _ _ _ _ _ _ Hsc Hscored) as (-> & -> & ->).
           unfold not_better. rewrite Hc, Ht. split; [apply flt_irrefl|]. intros _. apply flt_irrefl.
      * right. exists (length visited). unfold selected. rewrite Hc, Ht, Hcfg, Hf.
        split; [by rewrite list_lookup_middle|]. split; [done|].
        intros j c cost' fractions' time' Hj Hjc Hsc.
        rewrite lookup_app_l in Hjc by lia.
        destruct (Hmin c cost' fractions' time') as [Hm1 Hm2];
          [by eapply list_elem_of_lookup_2|done|].
        by eapply no_tie_after.
    + apply orb_false_iff in Hrej as [Hrej1 Hrej2]. split.
      * intros c cost' fractions' time' [Hin| ->%list_elem_of_singleton]%elem_of_app Hsc.
        -- destruct (Hmin _ _ _ _ Hin Hsc) as [Hm1 Hm2]. unfold not_better. by rewrite Hc, Ht.
        -- destruct (scored_functional _ _ _ _ _ _ _ _ _ _ _ Hsc Hscored) as (-> & -> & ->).
           unfold not_better. rewrite Hc, Ht. split; [done|].
           intros Heq. rewrite Heq in Hrej2. done.
      * destruct Hsel as [(? & ? & ? & ?)|[i Hi]].
        -- left. repeat split; congruence.
        -- right. exists i. by apply (selected_snoc _ _ s).
Qed.

Lemma findBestConfig_ranked (r : Search) :
  findBestConfig techs workload costLimit optimizeThroughput = Some r ->
  ranked techs workload costLimit optimizeThroughput (search_space techs) r.
Proof.
  rewrite findBestConfig_search_space. intros Hrun.
  apply (foldM_invariant_prefix _ (ranked techs workload costLimit optimizeThroughput) (search_space techs)) with (done := []) in Hrun;
    [done| |apply ranked_initial].
  intros done x s s'. apply ranked_step.
Qed.

End RankingLaws.

(** ** Growing a configuration *)

Section Growing.
Context {F : Type} `{OrderLaws F}.
Variable techs : list (Tech F).

Lemma capacity_monotoneb_correct : capacity_monotoneb techs = true -> capacity_monotone techs.
Proof.
  unfold capacity_monotoneb. rewrite forallb_forall.
  intros Hall t tech n n' Ht Hn Hnn' Hn'.
  specialize (Hall tech). rewrite forallb_forall in Hall.
  specialize (Hall ltac:(apply list_elem_of_In; by eapply list_elem_of_lookup_2) n').
  rewrite forallb_forall in Hall.
  specialize (Hall ltac:(apply list_elem_of_In, elem_of_counts; lia) n
                   ltac:(apply list_elem_of_In, elem_of_counts; lia)).
  destruct (N.ltb_spec 0 n); [|lia]. destruct (N.leb_spec n n'); [|lia]. simpl in Hall.
  apply andb_true_iff in Hall as [? ?%negb_true_iff]. done.
Qed.

Lemma last_populated_exists (config : Config) :
  populated config 0 -> exists l, last_populated config l.
Proof.
  intros Hpop.
  destruct (collect_indexes_spec config (length config) 0 []) as (indexes & _ & Hinc & Hmem).
  { lia. }
  { intros p q x y Hp. by rewrite lookup_nil in Hp. }
  { intros x. split; [by intros ?%elem_of_nil|lia]. }
  assert (forall x, x ∈ indexes <-> populated config x) as Hmem'.
  { intros x. rewrite Hmem. split; [by intros [_ ?]|].
    intros Hx. split; [|done]. apply populated_lt in Hx. lia. }
  destruct (last indexes) as [l|] eqn:Hlast.
  - exists l. by apply (back_last_populated config indexes l Hinc Hmem').
  - apply last_None in Hlast. subst. apply Hmem' in Hpop. by apply elem_of_nil in Hpop.
Qed.

Lemma populated_grow (config config' : Config) (t : nat) :
  Forall2 N.le config config' -> populated config t -> populated config' t.
Proof.
  intros Hle (c & Hc & Hne).
  destruct (Forall2_lookup_l _ _ _ _ _ Hle Hc) as (c' & Hc' & Hcc').
  exists c'. split; [done|]. lia.
Qed.

(** Along the populated tiers of a configuration that passes the ordering
    check, total capacity never shrinks. *)
Lemma inclusive_chain (config : Config) (i j : nat) (ci cj : F) :
  capacity_monotone techs -> in_range techs config -> inclusive techs config ->
  populated config i -> populated config j -> i <= j ->
  tierCapacity techs config i = Some ci -> tierCapacity techs config j = Some cj ->
  flt cj ci = false.
Proof.
  intros Hmono [Hlen Hrange] Hincl Hi Hj Hij Hci Hcj.
  destruct (collect_indexes_spec config (length config) 0 []) as (indexes & _ & Hinc & Hmem).
  { lia. }
  { intros p q x y Hp. by rewrite lookup_nil in Hp. }
  { intros x. split; [by intros ?%elem_of_nil|lia]. }
  assert (forall x, x ∈ indexes <-> populated config x) as Hmem'.
  { intros x. rewrite Hmem. split; [by intros [_ ?]|].
    intros Hx. split; [|done]. apply populated_lt in Hx. lia. }
  apply Hmem', list_elem_of_lookup in Hi as [p Hp].
  apply Hmem', list_elem_of_lookup in Hj as [q Hq].
  assert (p <= q) as Hpq.
  { destruct (decide (i = j)) as [->|]; [by rewrite (increasing_inj indexes p q j)|].
    assert (p < q); [|lia]. eapply (increasing_lt_inv indexes); eauto. lia. }
  replace q with (p + (q - p)) in Hq by lia.
  clear Hpq Hij. revert j cj Hq Hcj. generalize (q - p). intros d.
  induction d as [|d IH]; intros j cj Hq Hcj.
  - rewrite Nat.add_0_r in Hq. simplify_eq. apply flt_irrefl.
  - destruct (lookup_lt_is_Some_2 indexes (p + d)) as [k Hk].
    { apply lookup_lt_Some in Hq. lia. }
    assert (populated config k) as Hkpop by (apply Hmem'; by eapply list_elem_of_lookup_2).
    destruct (tierCapacity_Some techs config k) as (c & tech & Hc & Htech & Hck).
    { by apply populated_lt. } { apply populated_lt in Hkpop. lia. }
    eapply (nlt_trans ci _ cj); [|by eapply IH|].
    + destruct Hkpop as (c' & Hc' & Hne). simplify_eq.
      eapply (Hmono k tech c' c'); [done|lia|lia|by eapply Hrange].
    + eapply (Hincl k j); [|done..].
      apply (adjacent_previous_populated config indexes k j Hinc Hmem').
      exists (p + d). split; [done|]. by replace (S (p + d)) with (p + S d) by lia.
Qed.

(** C2 (as amended).  On a catalog whose tier capacities, within the
    device-count caps, are numbers that do not shrink when devices are
    added: if [isValid] accepts [config], and [config'] is obtained from it
    by increasing the device count of some tiers and decreasing none, with
    every count below its tier's [max], then [isValid] accepts [config']
    provided no populated tier of [config'] has strictly less total
    capacity than the populated tier before it. *)
Theorem isValid_grow (config config' : Config) (workload : Workload F) :
  capacity_monotone techs ->
  length config = length techs ->
  isValid techs config workload = Some true ->
  in_range techs config' ->
  Forall2 N.le config config' ->
  inclusive techs config' ->
  isValid techs config' workload = Some true.
Proof.
  intros Hmono Hlen Hvalid Hrange' Hle Hincl'.
  assert (techs <> []) as Hne.
  { intros Hnil. unfold isValid in Hvalid. rewrite Hnil in Hlen.
    destruct config; [|done]. done. }
  destruct (isValid_correct techs config workload Hlen Hne) as (b & Hb & Hspec).
  rewrite Hvalid in Hb. simplify_eq.
  destruct Hspec as [Hspec _]. destruct (Hspec eq_refl) as (Hpop0 & _ & Hws).
  destruct (isValid_correct techs config' workload (proj1 Hrange') Hne) as (b' & Hb' & Hspec').
  rewrite Hb'. f_equal. apply Hspec'.
  split; [by eapply populated_grow|]. split; [done|].
  intros l cl' Hl Hcl'.
  destruct (last_populated_exists config Hpop0) as [m Hm].
  assert (populated config' m) as Hm' by (eapply populated_grow; [done|apply Hm]).
  assert (m <= l) as Hml.
  { destruct (decide (m <= l)); [done|]. destruct Hl as [_ Hl]. destruct (Hl m); [lia|done]. }
  destruct Hm as [(c & Hc & Hcne) Hlast].
  destruct (Forall2_lookup_l _ _ _ _ _ Hle Hc) as (c' & Hc' & Hcc').
  destruct (lookup_lt_is_Some_2 techs m) as [tech Htech].
  { apply lookup_lt_Some in Hc. lia. }
  assert (tierCapacity techs config m = Some (fmul (of_unsigned c) (capacity tech))) as Hcm.
  { unfold tierCapacity. by rewrite Hc, Htech. }
  assert (tierCapacity techs config' m = Some (fmul (of_unsigned c') (capacity tech))) as Hcm'.
  { unfold tierCapacity. by rewrite Hc', Htech. }
  assert (c' < max tech)%N as Hcap by (by eapply (proj2 Hrange')).
  destruct (Hmono m tech c c') as [Hnum Hgrow]; [done|lia|done|done|].
  destruct (Hmono m tech c' c') as [Hnum' _]; [done|lia|lia|done|].
  eapply (nlt_trans _ _ cl'); [exact Hnum'| |].
  - eapply (nlt_trans _ _ _); [exact Hnum| |exact Hgrow].
    eapply Hws; [|exact Hcm]. split; [by exists c|done].
  - eapply (inclusive_chain config' m l); [done..|apply Hl|done|exact Hcm'|exact Hcl'].
Qed.

End Growing.

(** ** Searches in which nothing is feasible *)

Section SearchFacts.
Context {F : Type} `{FloatOps F}.
Variable techs : list (Tech F).

Lemma infeasibleb_correct (workload : Workload F) (costLimit : F) (configs : list Config) :
  forallb (infeasibleb techs workload costLimit) configs = true ->
  forall c, c ∈ configs -> forall cost, ~ feasible techs workload costLimit c cost.
Proof.
  rewrite forallb_forall. intros Hall c Hc cost (Hvalid & Hcost & Hlimit).
  specialize (Hall c ltac:(by apply list_elem_of_In)).
  unfold infeasibleb in Hall. rewrite Hvalid, Hcost, Hlimit in Hall. done.
Qed.

(** When no configuration of the search space is feasible, the search
    leaves every captured variable as it was initialised. *)
Lemma search_untouched (workload : Workload F) (costLimit : F) (optimizeThroughput : bool) :
  techs <> [] ->
  (forall c, c ∈ search_space techs -> forall cost, ~ feasible techs workload costLimit c cost) ->
  findBestConfig techs workload costLimit optimizeThroughput = Some (initial techs).
Proof.
  intros Hne Hinf. rewrite findBestConfig_search_space.
  assert (forall c, c ∈ search_space techs -> length c = length techs) as Hlen.
  { intros c Hc. by apply search_space_in_range in Hc as [? _]. }
  revert Hinf Hlen. generalize (search_space techs) (initial techs).
  intros configs. induction configs as [|c configs IH]; intros s Hinf Hlen; simpl; [done|].
  rewrite visit_skip; [|apply Hlen; by left|done|apply Hinf; by left]. simpl.
  apply IH; intros; [apply Hinf|apply Hlen]; by right.
Qed.

Lemma zero_config_in_range :
  Forall (fun tech => (0 < max tech)%N) techs -> in_range techs (zero_config techs).
Proof.
  intros Hmax. unfold zero_config. split; [apply length_replicate|].
  intros t tech k Ht Hk. apply lookup_replicate in Hk as [-> _].
  by eapply (Forall_lookup_1 _ _ _ _ Hmax Ht).
Qed.

End SearchFacts.

(** ** The feasibility rules over the values the specification names *)

Section FeasibilityRulesProofs.
Context {F : Type} `{FloatOps F}.
Variable techs : list (Tech F).

Lemma capacity_of_tierCapacity (config : Config) (t : nat) (cap : F) :
  capacity_of techs config t cap <-> tierCapacity techs config t = Some cap.
Proof.
  unfold capacity_of, tierCapacity, total_capacity, of_unsigned. split.
  - intros (count & tech & -> & -> & ->). done.
  - intros Hcap. destruct (config !! t) as [count|]; simpl in Hcap; [|done].
    destruct (techs !! t) as [tech|]; simpl in Hcap; [|done].
    exists count, tech. by simplify_eq.
Qed.

Lemma sum_of_sizes_sumSpaceNeeded (workload : Workload F) :
  sum_of_sizes workload = sumSpaceNeeded workload.
Proof.
  unfold sum_of_sizes, sumSpaceNeeded. generalize (of_Z 0).
  induction workload as [|g w IH]; intros sum; simpl; [done|]. apply IH.
Qed.

Lemma isValid_rules_spec (config : Config) (workload : Workload F) :
  isValid_rules techs config workload <-> isValid_spec techs config workload.
Proof.
  unfold isValid_rules, isValid_spec, rule_first_tier, populated,
    rule_inclusive, inclusive, rule_working_set, holds_working_set.
  rewrite sum_of_sizes_sumSpaceNeeded.
  split; intros (H1 & H2 & H3); (split; [done|split]).
  - intros i j ci cj Hprev Hi Hj. apply (H2 i j); [done|by apply capacity_of_tierCapacity..].
  - intros l cl Hlast Hl. apply (H3 l); [done|by apply capacity_of_tierCapacity].
  - intros i j ci cj Hprev Hi Hj. apply (H2 i j); [done|by apply capacity_of_tierCapacity..].
  - intros l cl Hlast Hl. apply (H3 l); [done|by apply capacity_of_tierCapacity].
Qed.

End FeasibilityRulesProofs.

(** ** Binary32 arithmetic: powers of two and values *)

Section Powers.
Local Open Scope Q_scope.

Lemma pow2_pos (e : Z) : 0 < 2 ^ e.
Proof. by apply Qpower_0_lt. Qed.

Lemma pow2_add (a b : Z) : 2 ^ (a + b) == 2 ^ a * 2 ^ b.
Proof. by apply Qpower_plus. Qed.

Lemma pow2_succ (a : Z) : 2 ^ (a + 1) == 2 * 2 ^ a.
Proof. rewrite pow2_add. change (2 ^ 1) with 2. ring. Qed.

Lemma pow2_le (a b : Z) : (a <= b)%Z -> 2 ^ a <= 2 ^ b.
Proof. intros Hab. apply Qpower_le_compat_l; [done|]. by unfold Qle. Qed.

Lemma pow2_lt (a b : Z) : (a < b)%Z -> 2 ^ a < 2 ^ b.
Proof. intros Hab. apply Qpower_lt_compat_l; [done|]. by unfold Qlt. Qed.

Lemma pow2_Z (n : Z) : (0 <= n)%Z -> 2 ^ n == inject_Z (2 ^ n).
Proof. intros Hn. by rewrite Zpower_Qpower. Qed.

Lemma F2Q_shift (m e k : Z) : (0 <= k)%Z -> F2Q (m * 2 ^ k) e == F2Q m (e + k).
Proof.
  intros Hk. unfold F2Q. rewrite inject_Z_mult, pow2_add, <- pow2_Z by done. ring.
Qed.

Lemma F2Q_le (m m' e : Z) : (m <= m')%Z -> F2Q m e <= F2Q m' e.
Proof.
  intros Hm. unfold F2Q. apply Qmult_le_compat_r; [|apply Qlt_le_weak, pow2_pos].
  by rewrite <- Zle_Qle.
Qed.

Lemma F2Q_lt (m m' e : Z) : (m < m')%Z -> F2Q m e < F2Q m' e.
Proof.
  intros Hm. unfold F2Q. apply Qmult_lt_compat_r; [apply pow2_pos|].
  by rewrite <- Zlt_Qlt.
Qed.

Lemma F2Q_lt_inv (m m' e : Z) : F2Q m e < F2Q m' e -> (m < m')%Z.
Proof.
  intros Hlt. destruct (Z_lt_le_dec m m') as [|Hle]; [done|].
  apply (F2Q_le _ _ e) in Hle. lra.
Qed.

Lemma F2Q_le_inv (m m' e : Z) : F2Q m e <= F2Q m' e -> (m <= m')%Z.
Proof.
  intros Hle. destruct (Z_lt_le_dec m' m) as [Hlt|]; [|done].
  apply (F2Q_lt _ _ e) in Hlt. lra.
Qed.

Lemma F2Q_succ (m e : Z) : F2Q (m + 1) e == F2Q m e + 2 ^ e.
Proof. unfold F2Q. rewrite inject_Z_plus. change (inject_Z 1) with 1. ring. Qed.

Lemma F2Q_double (m e : Z) : F2Q (2 * m) e == F2Q m (e + 1).
Proof. unfold F2Q. rewrite inject_Z_mult, pow2_succ. change (inject_Z 2) with 2. ring. Qed.

End Powers.

(** The number of binary digits of a positive number. *)
Lemma digits2_pos_bounds (p : positive) :
  (2 ^ (Z.pos (digits2_pos p) - 1) <= Z.pos p < 2 ^ Z.pos (digits2_pos p))%Z.
Proof.
  induction p as [p IH|p IH|]; simpl digits2_pos; [| |simpl; lia].
  - rewrite Pos2Z.inj_succ.
    replace (Z.succ (Z.pos (digits2_pos p)) - 1)%Z with (Z.succ (Z.pos (digits2_pos p) - 1)) by lia.
    rewrite !Z.pow_succ_r by lia. lia.
  - rewrite Pos2Z.inj_succ.
    replace (Z.succ (Z.pos (digits2_pos p)) - 1)%Z with (Z.succ (Z.pos (digits2_pos p) - 1)) by lia.
    rewrite !Z.pow_succ_r by lia. lia.
Qed.

Lemma Zdigits2_nonneg (m : Z) : (0 <= Zdigits2 m)%Z.
Proof. by destruct m. Qed.

Lemma Zdigits2_bounds (m : Z) :
  (0 < m)%Z -> (2 ^ (Zdigits2 m - 1) <= m < 2 ^ Zdigits2 m)%Z.
Proof. destruct m as [|p|p]; [lia| |lia]. intros _. apply digits2_pos_bounds. Qed.

(** A number with [d] digits lies in [[2^(d-1), 2^d)], and conversely. *)
Lemma Zdigits2_unique (m d : Z) :
  (2 ^ (d - 1) <= m < 2 ^ d)%Z -> (0 < d)%Z -> Zdigits2 m = d.
Proof.
  intros [Hlo Hhi] Hd.
  assert (0 < m)%Z as Hm by (pose proof (Z.pow_pos_nonneg 2 (d - 1)); lia).
  pose proof (Zdigits2_bounds m Hm) as [Hlo' Hhi'].
  pose proof (Zdigits2_nonneg m) as Hnn.
  destruct (Z.lt_trichotomy (Zdigits2 m) d) as [Hlt|[Heq|Hgt]]; [|done|].
  - assert (2 ^ Zdigits2 m <= 2 ^ (d - 1))%Z by (apply Z.pow_le_mono_r; lia). lia.
  - assert (2 ^ d <= 2 ^ (Zdigits2 m - 1))%Z by (apply Z.pow_le_mono_r; lia). lia.
Qed.

(** ** Binary32 arithmetic: shifts to the right, and the position they keep *)

Section Shifting.
Local Open Scope Q_scope.

Lemma F2Q_0 (e : Z) : F2Q 0 e == 0.
Proof. unfold F2Q. change (inject_Z 0) with 0. ring. Qed.

Lemma F2Q_1 (e : Z) : F2Q 1 e == 2 ^ e.
Proof. unfold F2Q. change (inject_Z 1) with 1. ring. Qed.

Lemma F2Q_pow2 (k e : Z) : (0 <= k)%Z -> F2Q (2 ^ k) e == 2 ^ (e + k).
Proof.
  intros Hk. replace (2 ^ k)%Z with (1 * 2 ^ k)%Z by lia.
  rewrite F2Q_shift by done. apply F2Q_1.
Qed.

Lemma F2Q_xO (p : positive) (e : Z) : F2Q (Z.pos p~0) e == F2Q (Z.pos p) (e + 1).
Proof. rewrite (Pos2Z.inj_xO p). apply F2Q_double. Qed.

Lemma F2Q_xI (p : positive) (e : Z) : F2Q (Z.pos p~1) e == F2Q (Z.pos p) (e + 1) + 2 ^ e.
Proof. rewrite (Pos2Z.inj_xI p), F2Q_succ, F2Q_double. reflexivity. Qed.

Lemma located_bracket (mrs : shr_record) (e : Z) (x : Q) :
  located mrs e x -> F2Q (shr_m mrs) e <= x < F2Q (shr_m mrs) e + 2 ^ e.
Proof.
  destruct mrs as [m r s]. unfold located. simpl. intros [_ Hx].
  pose proof (pow2_pos e) as HP.
  destruct r, s; lra.
Qed.

Lemma located_eq (mrs : shr_record) (e : Z) (x x' : Q) :
  x == x' -> located mrs e x -> located mrs e x'.
Proof.
  destruct mrs as [m r s]. unfold located. simpl. intros Hx [Hm Hloc].
  split; [done|]. destruct r, s; lra.
Qed.

(** One shift to the right keeps the position. *)
Lemma shr_1_located (mrs : shr_record) (e : Z) (x : Q) :
  located mrs e x -> located (shr_1 mrs) (e + 1) x.
Proof.
  destruct mrs as [m r s]. unfold located. simpl shr_m. simpl shr_r. simpl shr_s.
  intros [Hm Hx]. pose proof (pow2_pos e) as HP. pose proof (pow2_succ e) as HS.
  destruct m as [|[p|p|]|]; [| | | |lia]; unfold shr_1; simpl shr_m; simpl shr_r; simpl shr_s;
    (split; [lia|]); destruct r, s; simpl in Hx |- *;
    rewrite ?(F2Q_0 e), ?(F2Q_1 e), ?(F2Q_xO p e), ?(F2Q_xI p e) in Hx; rewrite ?(F2Q_0 (e + 1)); lra.
Qed.

End Shifting.

Lemma iter_pos_invariant {A : Type} (f : A -> A) (P : Z -> A -> Prop) :
  (forall k a, P k a -> P (k + 1)%Z (f a)) ->
  forall p k a, P k a -> P (k + Z.pos p)%Z (SpecFloat.iter_pos f p a).
Proof.
  intros Hstep. induction p as [p IH|p IH|]; intros k a Ha; simpl.
  - replace (k + Z.pos p~1)%Z with (k + 1 + Z.pos p + Z.pos p)%Z by lia.
    apply IH, IH, Hstep, Ha.
  - replace (k + Z.pos p~0)%Z with (k + Z.pos p + Z.pos p)%Z by lia. apply IH, IH, Ha.
  - apply Hstep, Ha.
Qed.

Lemma shr_1_digits (mrs : shr_record) :
  (0 <= shr_m mrs)%Z ->
  Zdigits2 (shr_m (shr_1 mrs)) = Z.max 0 (Zdigits2 (shr_m mrs) - 1).
Proof.
  destruct mrs as [m r s]. simpl. intros Hm.
  destruct m as [|[p|p|]|]; simpl; rewrite ?Pos2Z.inj_succ; lia.
Qed.

Lemma shr_1_half (mrs : shr_record) :
  (0 <= shr_m mrs)%Z -> shr_m (shr_1 mrs) = (shr_m mrs / 2)%Z.
Proof.
  destruct mrs as [m r s]. simpl. intros Hm.
  destruct m as [|[p|p|]|]; simpl; [done| | |done|lia].
  - rewrite (Pos2Z.inj_xI p). apply (Z.div_unique _ 2 _ 1); lia.
  - rewrite (Pos2Z.inj_xO p). apply (Z.div_unique _ 2 _ 0); lia.
Qed.

(** [shr] by [n] places keeps the position, at the exponent [e + n], and
    drops [n] digits of the mantissa. *)
Lemma shr_located (mrs : shr_record) (e n : Z) (x : Q) :
  located mrs e x ->
  located (fst (shr mrs e n)) (snd (shr mrs e n)) x /\
  snd (shr mrs e n) = (e + Z.max 0 n)%Z /\
  Zdigits2 (shr_m (fst (shr mrs e n))) = Z.max 0 (Zdigits2 (shr_m mrs) - Z.max 0 n).
Proof.
  intros Hloc. pose proof (Zdigits2_nonneg (shr_m mrs)) as Hd.
  destruct n as [|p|p]; simpl.
  - rewrite Z.add_0_r. split; [done|]. split; [done|lia].
  - pose proof (iter_pos_invariant shr_1
      (fun k a => located a (e + k) x /\
                  Zdigits2 (shr_m a) = Z.max 0 (Zdigits2 (shr_m mrs) - k))) as Hiter.
    destruct (Hiter) with (p := p) (k := 0%Z) (a := mrs) as [H1 H2].
    + intros k a [Ha Hda]. split.
      * rewrite Z.add_assoc. by apply shr_1_located.
      * rewrite shr_1_digits by apply Ha. lia.
    + rewrite Z.add_0_r. split; [done|lia].
    + simpl in H1, H2. split; [done|]. split; [done|]. rewrite H2. lia.
  - rewrite Z.add_0_r. split; [done|]. split; [done|lia].
Qed.

Lemma fexp32 (k : Z) : fexp prec32 emax32 k = Z.max (k - 24) (-149).
Proof. reflexivity. Qed.

Lemma shr_record_of_loc_m (m : Z) (l : location) : shr_m (shr_record_of_loc m l) = m.
Proof. by destruct l as [|[]]. Qed.

(** ** Binary32 arithmetic: rounding to nearest even on the grid of the format *)

Section Nearest.
Local Open Scope Q_scope.

(** Rounding to nearest even picks one end of the interval, at most half a
    unit away, and the upper end only when [x] is not the lower end. *)
Lemma round_nearest_even_located (mrs : shr_record) (e : Z) (x : Q) :
  located mrs e x ->
  let m2 := round_nearest_even (shr_m mrs) (loc_of_shr_record mrs) in
  ((m2 = shr_m mrs /\ F2Q m2 e <= x) \/
   (m2 = (shr_m mrs + 1)%Z /\ F2Q (shr_m mrs) e < x)) /\
  (shr_r mrs = false -> shr_s mrs = false -> x == F2Q m2 e) /\
  2 * F2Q m2 e - 2 ^ e <= 2 * x /\ 2 * x <= 2 * F2Q m2 e + 2 ^ e.
Proof.
  destruct mrs as [m r s]. unfold located. simpl shr_m. simpl shr_r. simpl shr_s.
  intros [Hm Hx]. pose proof (pow2_pos e) as HP.
  pose proof (F2Q_succ m e) as Hsucc.
  destruct r, s; simpl in Hx |- *.
  - rewrite Hsucc. split; [right; split; [done|lra]|]. split; [done|]. lra.
  - destruct (Z.even m).
    + split; [left; split; [done|lra]|]. split; [done|]. lra.
    + rewrite Hsucc. split; [right; split; [done|lra]|]. split; [done|]. lra.
  - split; [left; split; [done|lra]|]. split; [done|]. lra.
  - split; [left; split; [done|lra]|]. split; [done|]. lra.
Qed.

(** Between two neighbours of the grid of step [2^e1] there is no
    representable number, provided the grid is the format's at that height:
    [e1] is [emin], or the lower neighbour has a full mantissa. *)
Lemma representable_grid (m1 e1 : Z) (y : Q) :
  (0 <= m1)%Z -> (-149 <= e1)%Z -> ((-149 < e1)%Z -> (2 ^ 23 <= m1)%Z) ->
  representable y -> F2Q m1 e1 < y -> F2Q (m1 + 1) e1 <= y.
Proof.
  intros Hm1 He1 Hfull [Hy|(my & ey & Hb & Hy)] Hlt.
  { pose proof (F2Q_le 0 m1 e1 Hm1) as Hle. rewrite F2Q_0 in Hle. lra. }
  unfold bounded, canonical_mantissa in Hb. apply andb_prop in Hb as [Hcan _].
  apply Z.eqb_eq in Hcan. rewrite fexp32 in Hcan.
  pose proof (digits2_pos_bounds my) as [_ Hmy].
  destruct (Z_le_gt_dec e1 ey) as [Hle|Hgt].
  - (* [y] is a multiple of [2^e1] *)
    assert (y == F2Q (Z.pos my * 2 ^ (ey - e1)) e1) as Hy'.
    { rewrite Hy, F2Q_shift by lia. by replace (e1 + (ey - e1))%Z with ey by lia. }
    rewrite Hy' in Hlt |- *. apply F2Q_lt_inv in Hlt. apply F2Q_le. lia.
  - (* [y] is below the grid point [m1 * 2^e1] *)
    assert (2 ^ 23 <= m1)%Z as Hfull' by (apply Hfull; lia).
    assert (Z.pos (digits2_pos my) <= 24)%Z as Hd by lia.
    assert (Z.pos my < 2 ^ 24)%Z as Hmy'.
    { eapply Z.lt_le_trans; [exact Hmy|]. apply Z.pow_le_mono_r; lia. }
    assert (y < F2Q (2 ^ 24) ey) as Hy1 by (rewrite Hy; by apply F2Q_lt).
    assert (F2Q (2 ^ 24) ey <= F2Q (2 ^ 23) e1) as Hy2.
    { rewrite !F2Q_pow2 by lia. apply pow2_le. lia. }
    assert (F2Q (2 ^ 23) e1 <= F2Q m1 e1) as Hy3 by (by apply F2Q_le).
    lra.
Qed.

End Nearest.

Lemma shr_nonpos (mrs : shr_record) (e n : Z) : (n <= 0)%Z -> shr mrs e n = (mrs, e).
Proof. destruct n; [done|lia|done]. Qed.

Section Aux.
Local Open Scope Q_scope.

(** The first shift of [binary_round_aux] and the rounding of the
    mantissa: the result [m2 * 2^e1] is on the grid of the format, nearest
    to [x]. *)
Lemma round_first (m e : Z) (l : location) (x : Q) :
  located (shr_record_of_loc m l) e x ->
  (e <= fexp prec32 emax32 (Zdigits2 m + e))%Z ->
  let mrs1 := fst (shr_fexp prec32 emax32 m e l) in
  let e1 := snd (shr_fexp prec32 emax32 m e l) in
  let m2 := round_nearest_even (shr_m mrs1) (loc_of_shr_record mrs1) in
  (-149 <= e1)%Z /\ (0 <= m2 <= 2 ^ 24)%Z /\ ((-149 < e1)%Z -> (2 ^ 23 <= m2)%Z) /\
  nearest x (F2Q m2 e1) /\ nearest_even x (F2Q m2 e1) /\
  ((-149 <= e)%Z -> l = loc_Exact -> (1 - u32) * x <= F2Q m2 e1 /\ F2Q m2 e1 <= (1 + u32) * x).
Proof.
  intros Hloc He. unfold shr_fexp.
  set (n := (fexp prec32 emax32 (Zdigits2 m + e) - e)%Z).
  destruct (shr_located _ e n x Hloc) as (Hloc1 & He1 & Hd1).
  rewrite shr_record_of_loc_m in Hd1.
  assert (shr (shr_record_of_loc m l) e n =
          (fst (shr (shr_record_of_loc m l) e n), snd (shr (shr_record_of_loc m l) e n))) as Hpair
    by (by destruct (shr _ _ _)).
  set (mrs1 := fst (shr (shr_record_of_loc m l) e n)) in *.
  set (e1 := snd (shr (shr_record_of_loc m l) e n)) in *.
  assert (n = 0%Z -> l = loc_Exact -> shr_r mrs1 = false /\ shr_s mrs1 = false) as Hex0.
  { intros Hn0 ->. unfold mrs1. by rewrite Hn0. }
  simpl. pose proof (fexp32 (Zdigits2 m + e)) as Hfexp.
  assert (0 <= n)%Z as Hn by (unfold n; lia).
  assert (e1 = Z.max (Zdigits2 m + e - 24) (-149)) as He1' by (unfold n in He1; lia).
  pose proof (Zdigits2_nonneg m) as Hdm.
  assert (Zdigits2 (shr_m mrs1) = Z.max 0 (Zdigits2 m + e - e1)) as Hd1'
    by (rewrite Hd1; unfold n in *; lia).
  assert (0 <= shr_m mrs1)%Z as Hm1 by apply Hloc1.
  assert (shr_m mrs1 < 2 ^ 24)%Z as Hm1'.
  { destruct (Z.eq_dec (shr_m mrs1) 0%Z) as [->|Hnz]; [done|].
    pose proof (Zdigits2_bounds (shr_m mrs1) ltac:(lia)) as [_ Hhi].
    eapply Z.lt_le_trans; [exact Hhi|]. apply Z.pow_le_mono_r; lia. }
  assert ((-149 < e1)%Z -> (2 ^ 23 <= shr_m mrs1)%Z) as Hfull.
  { intros Hgt. assert (Zdigits2 (shr_m mrs1) = 24%Z) as Hd24 by lia.
    assert (0 < shr_m mrs1)%Z as Hpos by (destruct (shr_m mrs1); [done|lia|lia]).
    pose proof (Zdigits2_bounds (shr_m mrs1) Hpos) as [Hlo _]. by rewrite Hd24 in Hlo. }
  pose proof (round_nearest_even_located mrs1 e1 x Hloc1) as (Hm2 & Hexact & Herr1 & Herr2).
  pose proof (located_bracket mrs1 e1 x Hloc1) as [Hlo Hhi].
  assert (nearest_even x (F2Q (round_nearest_even (shr_m mrs1) (loc_of_shr_record mrs1)) e1))
    as Heven.
  { exists mrs1, e1. split; [done|]. split; [lia|]. split; [done|]. split; [done|reflexivity]. }
  set (m2 := round_nearest_even (shr_m mrs1) (loc_of_shr_record mrs1)) in *.
  clearbody m2 mrs1 e1.
  pose proof (F2Q_succ (shr_m mrs1) e1) as Hsucc.
  pose proof (pow2_pos e1) as HP.
  split; [lia|]. split; [lia|]. split; [lia|]. split; [split|split; [done|]].
  - (* no representable number in between, from above *)
    intros y Hy Hxy. destruct Hm2 as [[-> Hle]|[-> Hlt]]; [lra|].
    apply representable_grid; [done|lia|done|done|lra].
  - intros y Hy Hyx.
    destruct (Qlt_le_dec (F2Q (shr_m mrs1) e1) y) as [Hlt|Hle].
    + assert (-149 <= e1)%Z as Hemin by lia.
      pose proof (representable_grid _ _ _ Hm1 Hemin Hfull Hy Hlt). lra.
    + destruct Hm2 as [[-> _]|[-> _]]; lra.
  - (* the relative error of an exact operand *)
    intros Hemin ->. unfold u32.
    assert (0 <= x) as Hx0.
    { pose proof (F2Q_le 0 _ e1 Hm1) as H0. rewrite F2Q_0 in H0. lra. }
    destruct (Z.eq_dec n 0%Z) as [Hn0|Hn0].
    + assert (x == F2Q m2 e1) as <-.
      { by apply Hexact; apply Hex0. }
      lra.
    + assert (-149 < e1)%Z as Hgt by lia.
      assert (F2Q (2 ^ 23) e1 <= x) as Hbig.
      { pose proof (F2Q_le _ _ e1 (Hfull Hgt)). lra. }
      rewrite F2Q_pow2 in Hbig by lia.
      replace (e1 + 23)%Z with (e1 + 24 + -1)%Z in Hbig by lia.
      rewrite pow2_add in Hbig.
      rewrite (Z.add_comm e1), pow2_add in Hbig.
      change (2 ^ 24) with 16777216 in Hbig. change (2 ^ (-1)) with (1 # 2) in Hbig.
      lra.
Qed.

End Aux.

Section Packing.
Local Open Scope Q_scope.

(** The second shift of [binary_round_aux] (one place, when the rounded
    mantissa reached [2^24]) and the choice between a zero, a finite number
    and an infinity. *)
Lemma round_second (s : bool) (m2 e1 : Z) :
  (-149 <= e1)%Z -> (0 <= m2 <= 2 ^ 24)%Z -> ((-149 < e1)%Z -> (2 ^ 23 <= m2)%Z) ->
  rounded s (F2Q m2 e1)
    (let '(mrs2, e2) := shr_fexp prec32 emax32 m2 e1 loc_Exact in
     match shr_m mrs2 with
     | Z0 => S754_zero s
     | Z.pos m => if (e2 <=? emax32 - prec32)%Z then S754_finite s m e2 else S754_infinity s
     | Z.neg _ => S754_nan
     end).
Proof.
  intros He1 [Hm2 Hm2'] Hfull. unfold shr_fexp. rewrite fexp32.
  change (emax32 - prec32)%Z with 104%Z. simpl shr_record_of_loc.
  destruct (Z.eq_dec m2 (2 ^ 24)%Z) as [->|Hne].
  - (* the mantissa has 25 digits: one more shift *)
    change (Zdigits2 (2 ^ 24)) with 25%Z.
    replace (Z.max (25 + e1 - 24) (-149) - e1)%Z with 1%Z by lia.
    change (shr {| shr_m := 2 ^ 24; shr_r := false; shr_s := false |} e1 1)
      with ({| shr_m := 8388608; shr_r := false; shr_s := false |}, (e1 + 1)%Z).
    cbv beta iota. simpl shr_m.
    assert (F2Q (2 ^ 24) e1 == F2Q 8388608 (e1 + 1)) as HR.
    { change (2 ^ 24)%Z with (2 * 8388608)%Z. apply F2Q_double. }
    destruct (Z.leb_spec (e1 + 1) 104) as [Hle|Hgt]; split; try done.
    + unfold valid_binary, bounded, canonical_mantissa. rewrite fexp32.
      change (Z.pos (digits2_pos 8388608)) with 24%Z. change (emax32 - prec32)%Z with 104%Z.
      apply andb_true_intro. split; [apply Z.eqb_eq; lia|apply Z.leb_le; lia].
    + right; left. exists 8388608%positive, (e1 + 1)%Z. by split.
    + right; right. split; [|done]. rewrite F2Q_pow2 by lia. apply pow2_le. lia.
  - destruct m2 as [|p|p]; [| |lia].
    + (* zero *)
      rewrite shr_nonpos by (simpl; lia). simpl. split; [done|]. left. split; [apply F2Q_0|done].
    + pose proof (Zdigits2_bounds (Z.pos p) ltac:(done)) as [Hlo Hhi].
      assert (Zdigits2 (Z.pos p) <= 24)%Z as Hd.
      { destruct (Z_le_gt_dec (Zdigits2 (Z.pos p)) 24) as [|Hgt]; [done|].
        assert (2 ^ 24 <= 2 ^ (Zdigits2 (Z.pos p) - 1))%Z by (apply Z.pow_le_mono_r; lia). lia. }
      assert ((-149 < e1)%Z -> Zdigits2 (Z.pos p) = 24%Z) as Hd'.
      { intros Hgt. specialize (Hfull Hgt).
        destruct (Z_le_gt_dec 24 (Zdigits2 (Z.pos p))) as [|Hlt]; [lia|].
        assert (2 ^ Zdigits2 (Z.pos p) <= 2 ^ 23)%Z by (apply Z.pow_le_mono_r; lia). lia. }
      rewrite shr_nonpos by lia. simpl shr_m.
      destruct (Z.leb_spec e1 104) as [Hle|Hgt]; split; try done.
      * unfold valid_binary, bounded, canonical_mantissa. rewrite fexp32.
        simpl Zdigits2 in Hd, Hd'. change (emax32 - prec32)%Z with 104%Z.
        apply andb_true_intro. split; [apply Z.eqb_eq; lia|apply Z.leb_le; lia].
      * right; left. exists p, e1. by split.
      * right; right. split; [|done].
        assert (F2Q (2 ^ 23) e1 <= F2Q (Z.pos p) e1) as Hbig by (apply F2Q_le, Hfull; lia).
        rewrite F2Q_pow2 in Hbig by lia.
        assert (2 ^ 128 <= 2 ^ (e1 + 23)) by (apply pow2_le; lia). lra.
Qed.

(** [binary_round_aux] on a mantissa, an exponent and a location that
    stand for [x >= 0]: the result is the rounding of a number of the
    format nearest to [x], within the relative error [2^-24] when the
    operand is exact and a multiple of [2^emin]. *)
Lemma binary_round_aux_correct (s : bool) (m e : Z) (l : location) (x : Q) :
  located (shr_record_of_loc m l) e x ->
  (e <= fexp prec32 emax32 (Zdigits2 m + e))%Z ->
  exists R : Q,
    nearest x R /\ nearest_even x R /\
    ((-149 <= e)%Z -> l = loc_Exact -> (1 - u32) * x <= R /\ R <= (1 + u32) * x) /\
    rounded s R (binary_round_aux prec32 emax32 s m e l).
Proof.
  intros Hloc He. pose proof (round_first m e l x Hloc He) as Hfirst.
  unfold binary_round_aux. destruct (shr_fexp prec32 emax32 m e l) as [mrs1 e1].
  simpl in Hfirst. destruct Hfirst as (He1 & Hm2 & Hfull & Hnear & Heven & Herr).
  exists (F2Q (round_nearest_even (shr_m mrs1) (loc_of_shr_record mrs1)) e1).
  split; [done|]. split; [done|]. split; [done|]. by apply round_second.
Qed.

End Packing.

(** ** Binary32 arithmetic: the operations of the program *)

Section Operations.
Local Open Scope Q_scope.

Lemma finite_nonneg_representable (x : spec_float) : finite_nonneg x -> representable (SF2Q x).
Proof.
  destruct x as [s| | |[] m e]; simpl; try done.
  - by left.
  - intros Hb. right. by exists m, e.
Qed.

Lemma representable_nonneg (y : Q) : representable y -> 0 <= y.
Proof.
  intros [->|(m & e & _ & ->)]; [lra|].
  pose proof (F2Q_le 0 (Z.pos m) e ltac:(done)) as Hle. rewrite F2Q_0 in Hle. done.
Qed.

Lemma finite_nonneg_value (x : spec_float) : finite_nonneg x -> 0 <= SF2Q x.
Proof. intros Hx. by apply representable_nonneg, finite_nonneg_representable. Qed.

Lemma bounded_inv (m : positive) (e : Z) :
  bounded prec32 emax32 m e = true ->
  (-149 <= e <= 104)%Z /\ (Z.pos (digits2_pos m) <= 24)%Z /\
  ((-149 < e)%Z -> Z.pos (digits2_pos m) = 24%Z) /\ (Z.pos m < 2 ^ 24)%Z.
Proof.
  unfold bounded, canonical_mantissa. rewrite fexp32. change (emax32 - prec32)%Z with 104%Z.
  intros Hb. apply andb_prop in Hb as [Hcan Hle].
  apply Z.eqb_eq in Hcan. apply Z.leb_le in Hle.
  pose proof (digits2_pos_bounds m) as [_ Hhi].
  split; [lia|]. split; [lia|]. split; [lia|].
  eapply Z.lt_le_trans; [exact Hhi|]. apply Z.pow_le_mono_r; lia.
Qed.

Lemma representable_below_overflow (y : Q) : representable y -> y < 2 ^ 128.
Proof.
  intros [->|(m & e & Hb & ->)]; [apply pow2_pos|].
  apply bounded_inv in Hb as (He & _ & _ & Hm).
  assert (F2Q (Z.pos m) e < F2Q (2 ^ 24) e) as H1 by (by apply F2Q_lt).
  rewrite F2Q_pow2 in H1 by lia.
  assert (2 ^ (e + 24) <= 2 ^ 128) by (apply pow2_le; lia). lra.
Qed.

Lemma nearest_even_zero (x : Q) : x == 0 -> nearest_even x 0.
Proof.
  intros Hx. exists {| shr_m := 0; shr_r := false; shr_s := false |}, (-149)%Z.
  pose proof (F2Q_0 (-149)) as H0.
  split; [split; [done|]; simpl; lra|]. split; [done|]. split; [done|]. split; [lia|].
  simpl. lra.
Qed.

Lemma nearest_even_result (x R R' : Q) : R == R' -> nearest_even x R -> nearest_even x R'.
Proof.
  intros HR (mrs & e1 & Hloc & He1 & Hm & Hfull & HR'). exists mrs, e1.
  split; [done|]. split; [done|]. split; [done|]. split; [done|]. by rewrite <- HR.
Qed.

Lemma nearest_even_self (x : Q) (r : spec_float) :
  finite_nonneg r -> x == SF2Q r -> nearest_even x x.
Proof.
  destruct r as [s| | |[] m e]; simpl; try done; intros Hr Hx.
  - apply (nearest_even_result x 0); [lra|]. by apply nearest_even_zero.
  - apply bounded_inv in Hr as (He & _ & Hd & Hm).
    exists {| shr_m := Z.pos m; shr_r := false; shr_s := false |}, e.
    split; [split; [done|]; simpl; lra|]. split; [lia|]. split; [done|]. split.
    + intros Hgt. pose proof (digits2_pos_bounds m) as [Hlo _].
      rewrite (Hd Hgt) in Hlo. exact Hlo.
    + simpl. lra.
Qed.

Lemma rounded_rounds_to (x R : Q) (r : spec_float) :
  nearest x R -> nearest_even x R -> rounded false R r -> rounds_to x r.
Proof.
  intros Hnear Heven [Hvalid [[HR ->]|[(m & e & -> & HR)|[HR ->]]]]; exists R;
    (split; [done|]); (split; [done|]).
  - left. split; [done|]. simpl. lra.
  - left. split; [done|]. simpl. lra.
  - by right.
Qed.

(** What the rounding of [x] is bounded by. *)
Lemma rounds_to_le (x y : Q) (r : spec_float) :
  rounds_to x r -> representable y -> x <= y -> finite_nonneg r /\ SF2Q r <= y.
Proof.
  intros (R & [Hup _] & _ & Hr) Hy Hxy. specialize (Hup y Hy Hxy).
  destruct Hr as [[Hfin HR]|[-> HR]]; [split; [done|lra]|].
  pose proof (representable_below_overflow y Hy). lra.
Qed.

Lemma rounds_to_ge (x y : Q) (r : spec_float) :
  rounds_to x r -> representable y -> y <= x -> finite_nonneg r -> y <= SF2Q r.
Proof.
  intros (R & [_ Hdown] & _ & Hr) Hy Hyx Hfin. specialize (Hdown y Hy Hyx).
  destruct Hr as [[_ HR]|[-> _]]; [lra|done].
Qed.

Lemma rounds_to_nonneg (x : Q) (r : spec_float) : rounds_to x r -> nonneg r.
Proof. intros (R & _ & _ & [[Hfin _]|[-> _]]); [by left|by right]. Qed.

(** A representable number rounds to itself. *)
Lemma rounds_to_exact (x : Q) (r : spec_float) :
  rounds_to x r -> representable x -> finite_nonneg r /\ SF2Q r == x.
Proof.
  intros Hr Hx. destruct (rounds_to_le x x r Hr Hx ltac:(lra)) as [Hfin Hle].
  split; [done|]. pose proof (rounds_to_ge x x r Hr Hx ltac:(lra) Hfin). lra.
Qed.

Lemma Pos_iter_xO (p d : positive) :
  Z.pos (Pos.iter xO p d) = (Z.pos p * 2 ^ Z.pos d)%Z /\
  Z.pos (digits2_pos (Pos.iter xO p d)) = (Z.pos (digits2_pos p) + Z.pos d)%Z.
Proof.
  induction d as [|d IH] using Pos.peano_ind.
  - simpl Pos.iter. split; [rewrite (Pos2Z.inj_xO p); lia|].
    simpl digits2_pos. rewrite Pos2Z.inj_succ. lia.
  - rewrite Pos.iter_succ. destruct IH as [IH1 IH2]. split.
    + rewrite (Pos2Z.inj_xO (Pos.iter xO p d)), IH1, Pos2Z.inj_succ, Z.pow_succ_r by lia. lia.
    + simpl digits2_pos. rewrite !Pos2Z.inj_succ, IH2. lia.
Qed.

(** [shl_align] keeps the value and the position of the leading digit, and
    lowers the exponent to [ex'] when it is above. *)
Lemma shl_align_spec (mx : positive) (ex ex' : Z) :
  F2Q (Z.pos (fst (shl_align mx ex ex'))) (snd (shl_align mx ex ex')) == F2Q (Z.pos mx) ex /\
  snd (shl_align mx ex ex') = Z.min ex ex' /\
  (Z.pos (digits2_pos (fst (shl_align mx ex ex'))) + snd (shl_align mx ex ex') =
   Z.pos (digits2_pos mx) + ex)%Z.
Proof.
  unfold shl_align. destruct (ex' - ex)%Z as [|d|d] eqn:Hd; simpl.
  - split; [reflexivity|]. split; lia.
  - split; [reflexivity|]. split; lia.
  - destruct (Pos_iter_xO mx d) as [Hm Hdig]. rewrite Hm, Hdig.
    split; [|split; lia].
    rewrite F2Q_shift by lia. by replace (ex' + Z.pos d)%Z with ex by lia.
Qed.

Lemma rounds_within_to (x : Q) (r : spec_float) : rounds_within x r -> rounds_to x r.
Proof. intros (R & Hnear & Heven & _ & _ & Hr). by exists R. Qed.


Lemma binary_round_correct (m : positive) (e : Z) :
  (-149 <= e)%Z -> rounds_within (F2Q (Z.pos m) e) (binary_round prec32 emax32 false m e).
Proof.
  intros He. unfold binary_round.
  destruct (shl_align_spec m e (fexp prec32 emax32 (Z.pos (digits2_pos m) + e)))
    as (Hval & Hez & Hdig).
  destruct (shl_align m e _) as [mz ez]. simpl in Hval, Hez, Hdig.
  pose proof (fexp32 (Z.pos (digits2_pos m) + e)) as Hfexp.
  destruct (binary_round_aux_correct false (Z.pos mz) ez loc_Exact (F2Q (Z.pos m) e))
    as (R & Hnear & Heven & Herr & Hround).
  - split; [done|]. simpl. by rewrite Hval.
  - simpl Zdigits2. rewrite Hdig. lia.
  - destruct Herr as [Hlo Hhi]; [lia|done|].
    exists R. split; [done|]. split; [done|]. split; [done|]. split; [done|].
    destruct Hround as [Hvalid [[HR Hr]|[(m' & e' & Hr & HR)|[HR Hr]]]]; rewrite Hr in Hvalid |- *.
    + left. split; [done|]. simpl. lra.
    + left. split; [done|]. simpl. lra.
    + by right.
Qed.

Lemma binary_normalize_correct (z e : Z) :
  (0 <= z)%Z -> (-149 <= e)%Z ->
  rounds_within (F2Q z e) (binary_normalize prec32 emax32 z e false).
Proof.
  intros Hz He. destruct z as [|p|p]; [| |lia].
  - change (binary_normalize prec32 emax32 0 e false) with (S754_zero false).
    pose proof (F2Q_0 e) as H0. exists 0. unfold u32.
    split; [|split; [by apply nearest_even_zero|split; [lra|split; [lra|left; split; [done|reflexivity]]]]].
    split; intros y Hy Hle; [by apply representable_nonneg|lra].
  - by apply binary_round_correct.
Qed.

End Operations.

Section Arithmetic.
Local Open Scope Q_scope.

Lemma finite_value (m : positive) (e : Z) : SF2Q (S754_finite false m e) = F2Q (Z.pos m) e.
Proof. reflexivity. Qed.

Lemma zero_value (s : bool) : SF2Q (S754_zero s) = 0.
Proof. reflexivity. Qed.

Lemma F2Q_pos (m : positive) (e : Z) : 0 < F2Q (Z.pos m) e.
Proof. pose proof (F2Q_lt 0 (Z.pos m) e ltac:(done)) as Hlt. by rewrite F2Q_0 in Hlt. Qed.

Lemma rounds_to_zero (s : bool) (x : Q) : x == 0 -> rounds_to x (S754_zero s).
Proof.
  intros Hx. exists 0.
  split; [|split; [by apply nearest_even_zero|left; split; [done|reflexivity]]].
  split; intros y Hy Hle; [by apply representable_nonneg|lra].
Qed.

Lemma rounds_to_self (x : Q) (r : spec_float) : finite_nonneg r -> x == SF2Q r -> rounds_to x r.
Proof.
  intros Hr Hx. exists x. split; [split; intros y Hy Hle; done|].
  split; [by eapply nearest_even_self|]. left. split; [done|lra].
Qed.

Lemma rounds_within_self (x : Q) (r : spec_float) :
  finite_nonneg r -> x == SF2Q r -> rounds_within x r.
Proof.
  intros Hr Hx. pose proof (finite_nonneg_value r Hr). exists x. unfold u32.
  split; [split; intros y Hy Hle; done|]. split; [by eapply nearest_even_self|].
  split; [lra|]. split; [lra|].
  left. split; [done|lra].
Qed.

Lemma nearest_even_eq (x x' R : Q) : x == x' -> nearest_even x R -> nearest_even x' R.
Proof.
  intros Hx (mrs & e1 & Hloc & Hrest). exists mrs, e1. split; [|done]. by eapply located_eq.
Qed.

Lemma rounds_to_eq (x x' : Q) (r : spec_float) : x == x' -> rounds_to x r -> rounds_to x' r.
Proof.
  intros Hx (R & [Hup Hdown] & Heven & Hr). exists R.
  split; [|split; [by eapply nearest_even_eq|done]].
  split; intros y Hy Hle; [apply Hup|apply Hdown]; try done; lra.
Qed.

Lemma rounds_within_eq (x x' : Q) (r : spec_float) :
  x == x' -> rounds_within x r -> rounds_within x' r.
Proof.
  intros Hx (R & [Hup Hdown] & Heven & Hlo & Hhi & Hr). exists R. unfold u32 in *.
  split; [|split; [by eapply nearest_even_eq|split; [lra|split; [lra|done]]]].
  split; intros y Hy Hle; [apply Hup|apply Hdown]; try done; lra.
Qed.

(** *** Addition and subtraction *)

Lemma aligned_value (m : positive) (e e' : Z) :
  (e' <= e)%Z -> F2Q (Z.pos (fst (shl_align m e e'))) e' == F2Q (Z.pos m) e.
Proof.
  intros Hle. destruct (shl_align_spec m e e') as (Hval & Hez & _).
  rewrite <- Hval. by replace (snd (shl_align m e e')) with e' by lia.
Qed.

Lemma SFadd_correct (a b : spec_float) :
  finite_nonneg a -> finite_nonneg b ->
  rounds_within (SF2Q a + SF2Q b) (SFadd prec32 emax32 a b).
Proof.
  destruct a as [sa| | |[] ma ea], b as [sb| | |[] mb eb]; simpl finite_nonneg; try done;
    intros Ha Hb.
  - assert (finite_nonneg (SFadd prec32 emax32 (S754_zero sa) (S754_zero sb)) /\
            SF2Q (SFadd prec32 emax32 (S754_zero sa) (S754_zero sb)) = 0) as [Hfin Hval]
      by (by destruct sa, sb).
    apply rounds_within_self; [done|]. rewrite Hval, !zero_value. lra.
  - apply rounds_within_self; [done|]. rewrite zero_value. simpl SFadd. lra.
  - apply rounds_within_self; [done|]. rewrite zero_value. simpl SFadd. lra.
  - unfold SFadd. set (ez := Z.min ea eb).
    pose proof (bounded_inv _ _ Ha) as (Hea & _). pose proof (bounded_inv _ _ Hb) as (Heb & _).
    pose proof (aligned_value ma ea ez ltac:(lia)) as Hva.
    pose proof (aligned_value mb eb ez ltac:(lia)) as Hvb.
    unfold cond_Zopp.
    set (za := Z.pos (fst (shl_align ma ea ez))) in *.
    set (zb := Z.pos (fst (shl_align mb eb ez))) in *.
    apply (rounds_within_eq (F2Q (za + zb) ez)).
    { rewrite !finite_value, <- Hva, <- Hvb. unfold F2Q. rewrite inject_Z_plus. ring. }
    apply binary_normalize_correct; lia.
Qed.

Lemma SFsub_correct (a b : spec_float) :
  finite_nonneg a -> finite_nonneg b -> SF2Q b <= SF2Q a ->
  rounds_within (SF2Q a - SF2Q b) (SFsub prec32 emax32 a b).
Proof.
  destruct a as [sa| | |[] ma ea], b as [sb| | |[] mb eb]; simpl finite_nonneg; try done;
    intros Ha Hb Hle.
  - assert (finite_nonneg (SFsub prec32 emax32 (S754_zero sa) (S754_zero sb)) /\
            SF2Q (SFsub prec32 emax32 (S754_zero sa) (S754_zero sb)) = 0) as [Hfin Hval]
      by (by destruct sa, sb).
    apply rounds_within_self; [done|]. rewrite Hval, !zero_value. lra.
  - rewrite zero_value, finite_value in Hle. pose proof (F2Q_pos mb eb). lra.
  - apply rounds_within_self; [done|]. rewrite zero_value. simpl SFsub. lra.
  - unfold SFsub. set (ez := Z.min ea eb).
    pose proof (bounded_inv _ _ Ha) as (Hea & _). pose proof (bounded_inv _ _ Hb) as (Heb & _).
    pose proof (aligned_value ma ea ez ltac:(lia)) as Hva.
    pose proof (aligned_value mb eb ez ltac:(lia)) as Hvb.
    unfold cond_Zopp.
    set (za := Z.pos (fst (shl_align ma ea ez))) in *.
    set (zb := Z.pos (fst (shl_align mb eb ez))) in *.
    rewrite !finite_value, <- Hva, <- Hvb in Hle. apply F2Q_le_inv in Hle.
    apply (rounds_within_eq (F2Q (za - zb) ez)).
    { rewrite !finite_value, <- Hva, <- Hvb. unfold F2Q, Z.sub.
      rewrite inject_Z_plus, inject_Z_opp. ring. }
    apply binary_normalize_correct; lia.
Qed.

(** *** Multiplication *)

Lemma digits2_pos_mul (a b : positive) :
  (Z.pos (digits2_pos a) + Z.pos (digits2_pos b) - 1 <= Z.pos (digits2_pos (a * b)))%Z.
Proof.
  pose proof (digits2_pos_bounds a) as [Ha _]. pose proof (digits2_pos_bounds b) as [Hb _].
  pose proof (digits2_pos_bounds (a * b)) as [_ Hab].
  destruct (Z_le_gt_dec (Z.pos (digits2_pos a) + Z.pos (digits2_pos b) - 1)
              (Z.pos (digits2_pos (a * b)))) as [|Hgt]; [done|].
  assert (2 ^ Z.pos (digits2_pos (a * b)) <=
          2 ^ (Z.pos (digits2_pos a) - 1 + (Z.pos (digits2_pos b) - 1)))%Z as Hpow
    by (apply Z.pow_le_mono_r; lia).
  rewrite Z.pow_add_r in Hpow by lia. rewrite Pos2Z.inj_mul in Hab. nia.
Qed.

Lemma SFmul_correct (a b : spec_float) :
  finite_nonneg a -> finite_nonneg b ->
  rounds_to (SF2Q a * SF2Q b) (SFmul prec32 emax32 a b).
Proof.
  destruct a as [sa| | |[] ma ea], b as [sb| | |[] mb eb]; simpl finite_nonneg; try done;
    intros Ha Hb; try (apply rounds_to_zero; rewrite ?zero_value; ring).
  unfold SFmul. change (xorb false false) with false.
  pose proof (bounded_inv _ _ Ha) as (Hea & Hda & Hda' & _).
  pose proof (bounded_inv _ _ Hb) as (Heb & Hdb & Hdb' & _).
  pose proof (digits2_pos_mul ma mb) as Hd.
  destruct (binary_round_aux_correct false (Z.pos (ma * mb)) (ea + eb) loc_Exact
              (SF2Q (S754_finite false ma ea) * SF2Q (S754_finite false mb eb)))
    as (R & Hnear & Heven & _ & Hround).
  - split; [done|]. simpl shr_r. simpl shr_s. cbv iota. simpl shr_m.
    rewrite !finite_value. unfold F2Q. rewrite Pos2Z.inj_mul, inject_Z_mult, pow2_add. ring.
  - rewrite fexp32. simpl Zdigits2.
    pose proof (Pos2Z.is_pos (digits2_pos ma)). pose proof (Pos2Z.is_pos (digits2_pos mb)). lia.
  - by eapply rounded_rounds_to.
Qed.

End Arithmetic.

(** *** Division *)

Section Division.
Local Open Scope Q_scope.

Lemma inject_Z_pos (z : Z) : (0 < z)%Z -> 0 < inject_Z z.
Proof. intros Hz. rewrite (Zlt_Qlt 0 z) in Hz. exact Hz. Qed.

(** The location that the division computes from the remainder [r] of the
    division by [m2] is the position of the exact quotient. *)
Lemma new_location_located (m2 r q e : Z) (x : Q) :
  (0 < m2)%Z -> (0 <= r < m2)%Z -> (0 <= q)%Z ->
  x * inject_Z m2 == (inject_Z q * inject_Z m2 + inject_Z r) * 2 ^ e ->
  located (shr_record_of_loc q (new_location m2 r)) e x.
Proof.
  intros Hm2 Hr Hq Hx.
  assert (0 < inject_Z m2) as HM by (by apply inject_Z_pos).
  pose proof (pow2_pos e) as HP.
  assert (forall a b : Q, a * inject_Z m2 < b * inject_Z m2 -> a < b) as Hlt.
  { intros a b Hab. by apply Qmult_lt_r in Hab. }
  assert (forall a b : Q, a * inject_Z m2 == b * inject_Z m2 -> a == b) as Heq.
  { intros a b Hab. apply Qmult_inj_r in Hab; [done|lra]. }
  assert (0 < inject_Z m2 * 2 ^ e) as HMP by (by apply Qmult_lt_0_compat).
  assert (forall c : comparison, (2 * r ?= m2)%Z = c -> r <> 0%Z ->
            located (shr_record_of_loc q (loc_Inexact c)) e x) as Hcases.
  { intros c Hc Hr0.
    assert (0 < inject_Z r * 2 ^ e) as HRP.
    { apply Qmult_lt_0_compat; [|done]. apply inject_Z_pos. lia. }
    split; [by destruct c|]. unfold F2Q.
    destruct (Z.compare_spec (2 * r) m2) as [H2|H2|H2]; subst c; simpl.
    - apply Heq. rewrite <- H2, inject_Z_mult in *. change (inject_Z 2) with 2 in *.
      assert (2 * x * (2 * inject_Z r) == 2 * (x * (2 * inject_Z r))) as -> by ring.
      rewrite Hx. ring.
    - assert (2 * (inject_Z r * 2 ^ e) < inject_Z m2 * 2 ^ e) as H2'.
      { assert (2 * inject_Z r < inject_Z m2) as H3.
        { change 2 with (inject_Z 2). rewrite <- inject_Z_mult. by rewrite <- Zlt_Qlt. }
        apply (Qmult_lt_r _ _ (2 ^ e)) in H3; [|done]. lra. }
      split; apply Hlt.
      + rewrite Hx. lra.
      + assert (2 * x * inject_Z m2 == 2 * (x * inject_Z m2)) as -> by ring. rewrite Hx. lra.
    - assert (inject_Z m2 * 2 ^ e < 2 * (inject_Z r * 2 ^ e)) as H2'.
      { assert (inject_Z m2 < 2 * inject_Z r) as H3.
        { change 2 with (inject_Z 2). rewrite <- inject_Z_mult. by rewrite <- Zlt_Qlt. }
        apply (Qmult_lt_r _ _ (2 ^ e)) in H3; [|done]. lra. }
      assert (inject_Z r * 2 ^ e < inject_Z m2 * 2 ^ e) as H4.
      { apply Qmult_lt_r; [done|]. rewrite <- Zlt_Qlt. lia. }
      split; apply Hlt.
      + assert (2 * x * inject_Z m2 == 2 * (x * inject_Z m2)) as -> by ring. rewrite Hx. lra.
      + rewrite Hx. lra. }
  assert (r = 0%Z -> located (shr_record_of_loc q loc_Exact) e x) as Hexact.
  { intros ->. split; [done|]. simpl. unfold F2Q. apply Heq. rewrite Hx.
    change (inject_Z 0) with 0. ring. }
  unfold new_location.
  destruct (Z.even m2) eqn:Heven; [unfold new_location_even|unfold new_location_odd];
    (destruct (Z.eqb_spec r 0) as [Hr0|Hr0]; [by apply Hexact|]).
  - by apply Hcases.
  - assert (Z.odd m2 = true) as Hodd by (rewrite <- Z.negb_even, Heven; done).
    apply Z.odd_spec in Hodd as [k Hk].
    destruct (Z.compare_spec (2 * r + 1) m2) as [H2|H2|H2].
    + apply Hcases; [|done]. apply Z.compare_lt_iff. lia.
    + apply Hcases; [|done]. apply Z.compare_lt_iff. lia.
    + apply Hcases; [|done]. apply Z.compare_gt_iff. lia.
Qed.

Lemma SFdiv_correct (a b : spec_float) :
  finite_nonneg a -> finite_nonneg b -> 0 < SF2Q b ->
  rounds_to (SF2Q a / SF2Q b) (SFdiv prec32 emax32 a b).
Proof.
  destruct a as [sa| | |[] ma ea], b as [sb| | |[] mb eb]; simpl finite_nonneg; try done;
    intros Ha Hb Hpos; try (rewrite zero_value in Hpos; lra).
  { apply rounds_to_zero. rewrite zero_value. unfold Qdiv. ring. }
  unfold SFdiv, SFdiv_core_binary. change (xorb false false) with false.
  simpl Zdigits2. rewrite fexp32.
  set (d1 := Z.pos (digits2_pos ma)). set (d2 := Z.pos (digits2_pos mb)).
  set (e' := Z.min (Z.max (d1 + ea - (d2 + eb) - 24) (-149)) (ea - eb)).
  set (s := (ea - eb - e')%Z).
  assert (0 <= s)%Z as Hs by (unfold s, e'; lia).
  set (m' := match s with Z.pos _ => Z.shiftl (Z.pos ma) s | Z0 => Z.pos ma | Z.neg _ => 0%Z end).
  assert (m' = (Z.pos ma * 2 ^ s)%Z) as Hm'.
  { unfold m'. destruct s as [|p|p]; [lia| |lia]. by rewrite Z.shiftl_mul_pow2. }
  clearbody m'.
  pose proof (Z_div_mod m' (Z.pos mb) ltac:(done)) as Hdiv.
  destruct (Z.div_eucl m' (Z.pos mb)) as [q r]. destruct Hdiv as [Hqr Hr].
  pose proof (digits2_pos_bounds ma) as [Hma _]. pose proof (digits2_pos_bounds mb) as [_ Hmb].
  fold d1 in Hma. fold d2 in Hmb.
  assert (0 < 2 ^ s)%Z as Hps by (by apply Z.pow_pos_nonneg).
  assert (0 <= q)%Z as Hq by nia.
  destruct (binary_round_aux_correct false q e' (new_location (Z.pos mb) r)
              (SF2Q (S754_finite false ma ea) / SF2Q (S754_finite false mb eb)))
    as (R & Hnear & Heven & _ & Hround).
  - apply new_location_located; try done.
    rewrite !finite_value. unfold F2Q.
    rewrite <- inject_Z_mult, <- inject_Z_plus, (Z.mul_comm q), <- Hqr, Hm', inject_Z_mult.
    rewrite <- pow2_Z by done.
    assert (2 ^ ea == 2 ^ s * 2 ^ e' * 2 ^ eb) as ->.
    { rewrite <- !pow2_add. by replace (s + e' + eb)%Z with ea by (unfold s; lia). }
    pose proof (pow2_pos eb). pose proof (F2Q_pos mb 0) as HM. unfold F2Q in HM.
    change (2 ^ 0) with 1 in HM. field. split; lra.
  - rewrite fexp32.
    destruct (Z_le_gt_dec e' (-149)) as [|Hgt]; [lia|].
    assert (2 ^ (d1 + s - d2 - 1) <= q)%Z as Hbig.
    { assert (0 <= d1 + s - d2 - 1)%Z as Hk by (unfold s, e' in *; lia).
      assert (2 ^ (d1 - 1 + s) = 2 ^ (d1 + s - d2 - 1) * 2 ^ d2)%Z as Hsplit.
      { rewrite <- Z.pow_add_r by (unfold d2; lia). f_equal. lia. }
      assert (2 ^ (d1 - 1 + s) = 2 ^ (d1 - 1) * 2 ^ s)%Z as Hsplit'
        by (rewrite <- Z.pow_add_r by (unfold d1; lia); done).
      assert (0 < 2 ^ (d1 + s - d2 - 1))%Z by (by apply Z.pow_pos_nonneg).
      nia. }
    assert (d1 + s - d2 - 1 < Zdigits2 q)%Z as Hdq.
    { assert (0 < q)%Z as Hq' by (pose proof (Z.pow_pos_nonneg 2 (d1 + s - d2 - 1)); unfold s, e' in *; lia).
      pose proof (Zdigits2_bounds q Hq') as [_ Hhi].
      apply (Z.pow_lt_mono_r_iff 2); [lia|apply Zdigits2_nonneg|lia]. }
    unfold s, e' in *. lia.
  - by eapply rounded_rounds_to.
Qed.

End Division.

(** *** Comparisons *)

Section Comparisons.
Local Open Scope Q_scope.

(** Of two numbers of the format, the one with the smaller exponent is the
    smaller. *)
Lemma bounded_exponent_lt (m1 m2 : positive) (e1 e2 : Z) :
  bounded prec32 emax32 m1 e1 = true -> bounded prec32 emax32 m2 e2 = true ->
  (e1 < e2)%Z -> F2Q (Z.pos m1) e1 < F2Q (Z.pos m2) e2.
Proof.
  intros H1 H2 Hlt.
  apply bounded_inv in H1 as (He1 & _ & _ & Hm1). apply bounded_inv in H2 as (He2 & _ & Hd2 & _).
  pose proof (digits2_pos_bounds m2) as [Hm2 _]. rewrite Hd2 in Hm2 by lia.
  assert (F2Q (Z.pos m1) e1 < F2Q (2 ^ 24) e1) as Ha by (by apply F2Q_lt).
  assert (F2Q (2 ^ 23) e2 <= F2Q (Z.pos m2) e2) as Hb by (by apply F2Q_le).
  rewrite F2Q_pow2 in Ha, Hb by lia.
  assert (2 ^ (e1 + 24) <= 2 ^ (e2 + 23)) by (apply pow2_le; lia). lra.
Qed.

Lemma SFltb_value (a b : spec_float) :
  finite_nonneg a -> finite_nonneg b -> (SFltb a b = true <-> SF2Q a < SF2Q b).
Proof.
  destruct a as [sa| | |[] ma ea], b as [sb| | |[] mb eb]; simpl finite_nonneg; try done;
    intros Ha Hb; rewrite ?zero_value, ?finite_value.
  - split; [intros _; apply F2Q_pos|done].
  - pose proof (F2Q_pos ma ea). split; [done|lra].
  - unfold SFltb, SFcompare. destruct (Z.compare_spec ea eb) as [->|Hlt|Hgt].
    + change (Pos.compare_cont Eq ma mb) with (ma ?= mb)%positive.
      destruct (Pos.compare_spec ma mb) as [->|Hm|Hm]; split; try done.
      * lra.
      * intros _. by apply F2Q_lt.
      * intros Hq. apply F2Q_lt_inv in Hq. lia.
    + split; [intros _; by apply bounded_exponent_lt|done].
    + pose proof (bounded_exponent_lt mb ma eb ea Hb Ha Hgt). split; [done|lra].
Qed.

Lemma SFltb_false_value (a b : spec_float) :
  finite_nonneg a -> finite_nonneg b -> (SFltb a b = false <-> SF2Q b <= SF2Q a).
Proof.
  intros Ha Hb. pose proof (SFltb_value a b Ha Hb) as Hiff.
  destruct (SFltb a b); split; try done.
  - intros Hle. assert (SF2Q a < SF2Q b) by (by apply Hiff). lra.
  - intros _. destruct (Qlt_le_dec (SF2Q a) (SF2Q b)) as [Hlt|]; [|done].
    apply Hiff in Hlt. done.
Qed.

(** A number that is not negative compares as such with the program's
    [operator<] and [operator==]. *)
Lemma nonneg_fle (x : spec_float) : nonneg x -> fle (of_Z 0) x = true.
Proof. intros [Hx| ->]; [|done]. by destruct x as [s| | |[] m e]. Qed.

End Comparisons.

(** *** Monotonicity *)

Section Monotone.
Local Open Scope Q_scope.

(** Rounding to nearest even is monotone. *)
Lemma nearest_even_mono (x x' R R' : Q) :
  x <= x' -> nearest_even x R -> nearest_even x' R' -> R <= R'.
Proof.
  intros Hxx (mrs & e1 & Hloc & He1 & Hm & Hfull & HR)
    (mrs' & e1' & Hloc' & He1' & Hm' & Hfull' & HR').
  rewrite HR, HR'. clear HR HR' R R'.
  pose proof (round_nearest_even_located mrs e1 x Hloc) as (Hm2 & _).
  pose proof (round_nearest_even_located mrs' e1' x' Hloc') as (Hm2' & _).
  pose proof (located_bracket mrs e1 x Hloc) as [Hlo Hhi].
  pose proof (located_bracket mrs' e1' x' Hloc') as [Hlo' Hhi'].
  assert (0 <= shr_m mrs)%Z as H0 by apply Hloc.
  assert (0 <= shr_m mrs')%Z as H0' by apply Hloc'.
  pose proof (F2Q_succ (shr_m mrs) e1) as Hsucc.
  pose proof (F2Q_succ (shr_m mrs') e1') as Hsucc'.
  destruct (Z.lt_trichotomy e1 e1') as [Hlt|[Heq|Hgt]].
  - (* the grid of [x'] is coarser: a full mantissa lies in between *)
    assert (F2Q (round_nearest_even (shr_m mrs) (loc_of_shr_record mrs)) e1 <= F2Q (2 ^ 24) e1) as H1.
    { apply F2Q_le. destruct Hm2 as [[-> _]|[-> _]]; lia. }
    assert (F2Q (2 ^ 23) e1' <= F2Q (round_nearest_even (shr_m mrs') (loc_of_shr_record mrs')) e1') as H2.
    { apply F2Q_le. specialize (Hfull' ltac:(lia)). destruct Hm2' as [[-> _]|[-> _]]; lia. }
    rewrite F2Q_pow2 in H1, H2 by lia.
    assert (2 ^ (e1 + 24) <= 2 ^ (e1' + 23)) by (apply pow2_le; lia). lra.
  - (* the same grid *)
    subst e1'. apply F2Q_le.
    assert (shr_m mrs <= shr_m mrs')%Z as Hle.
    { assert (F2Q (shr_m mrs) e1 < F2Q (shr_m mrs' + 1) e1) as Hlt by lra.
      apply F2Q_lt_inv in Hlt. lia. }
    destruct (Z_le_lt_eq_dec _ _ Hle) as [Hlt|Heq].
    + destruct Hm2 as [[-> _]|[-> _]], Hm2' as [[-> _]|[-> _]]; lia.
    + destruct mrs as [m r s], mrs' as [m' r' s']. simpl in *. subst m'.
      destruct Hloc as [_ Hloc], Hloc' as [_ Hloc'].
      destruct r, s, r', s'; simpl in *; try lra; destruct (Z.even m); lia.
  - (* the grid of [x] cannot be the coarser one *)
    specialize (Hfull ltac:(lia)).
    assert (F2Q (2 ^ 23) e1 <= F2Q (shr_m mrs) e1) as H1 by (by apply F2Q_le).
    assert (F2Q (shr_m mrs' + 1) e1' <= F2Q (2 ^ 24) e1') as H2 by (apply F2Q_le; lia).
    rewrite F2Q_pow2 in H1, H2 by lia.
    assert (2 ^ (e1' + 24) <= 2 ^ (e1 + 23)) by (apply pow2_le; lia). lra.
Qed.

(** The order of two numbers that are not negative: the second is +infinity,
    or both are finite with values in order. *)
Lemma rounds_to_mono (x x' : Q) (r r' : spec_float) :
  rounds_to x r -> rounds_to x' r' -> x <= x' ->
  r' = S754_infinity false \/ (finite_nonneg r /\ finite_nonneg r' /\ SF2Q r <= SF2Q r').
Proof.
  intros (R & _ & Heven & Hr) (R' & Hnear' & Heven' & Hr') Hxx.
  pose proof (nearest_even_mono x x' R R' Hxx Heven Heven') as HRR.
  destruct Hr' as [[Hfin' HR']|[-> _]]; [right|by left].
  assert (R' < 2 ^ 128) as Hmax.
  { rewrite <- HR'. by apply representable_below_overflow, finite_nonneg_representable. }
  destruct Hr as [[Hfin HR0]|[_ HR0]]; [|lra].
  split; [done|]. split; [done|]. lra.
Qed.

End Monotone.

(** ** The simulator in binary32: signs *)

Section SimulatorSigns.
Local Open Scope Q_scope.

Lemma representable_1 : representable 1.
Proof. right. exists 8388608%positive, (-23)%Z. split; reflexivity. Qed.

Lemma representable_unsigned : representable (inject_Z (2 ^ 32)).
Proof. right. exists 8388608%positive, 9%Z. split; reflexivity. Qed.

Lemma of_unsigned_finite (c : N) : (c < 2 ^ 32)%N -> finite_nonneg (of_unsigned c).
Proof.
  intros Hc. unfold of_unsigned. simpl.
  pose proof (binary_normalize_correct (Z.of_N c) 0 ltac:(lia) ltac:(lia)) as Hr.
  apply rounds_within_to in Hr.
  apply (rounds_to_le _ (inject_Z (2 ^ 32))) in Hr as [Hfin _]; [done|apply representable_unsigned|].
  unfold F2Q. change (2 ^ 0) with 1. rewrite Qmult_1_r. rewrite <- Zle_Qle. lia.
Qed.

Lemma fmul_nonneg (a b : spec_float) : finite_nonneg a -> finite_nonneg b -> nonneg (fmul a b).
Proof. intros Ha Hb. eapply rounds_to_nonneg. by apply SFmul_correct. Qed.

Lemma fadd_nonneg (a b : spec_float) : nonneg a -> finite_nonneg b -> nonneg (fadd a b).
Proof.
  intros [Ha| ->] Hb.
  - eapply rounds_to_nonneg, rounds_within_to. by apply SFadd_correct.
  - right. by destruct b as [s| | |[] m e].
Qed.

Lemma flt_finite (a b : spec_float) : nonneg a -> finite_nonneg b -> flt a b = true -> finite_nonneg a.
Proof. intros [Ha| ->] Hb Hlt; [done|]. by destruct b as [s| | |[] m e]. Qed.

Lemma fsub_nonneg (a b : spec_float) :
  nonneg a -> finite_nonneg b -> flt a b = false -> nonneg (fsub a b).
Proof.
  intros [Ha| ->] Hb Hlt.
  - eapply rounds_to_nonneg, rounds_within_to. apply SFsub_correct; [done..|].
    by apply SFltb_false_value.
  - right. by destruct b as [s| | |[] m e].
Qed.

(** The difference of two numbers in order is finite and below the first. *)
Lemma fsub_finite (a b : spec_float) :
  finite_nonneg a -> finite_nonneg b -> SF2Q b <= SF2Q a ->
  finite_nonneg (fsub a b) /\ SF2Q (fsub a b) <= SF2Q a.
Proof.
  intros Ha Hb Hle. pose proof (SFsub_correct a b Ha Hb Hle) as Hr.
  apply rounds_within_to in Hr.
  apply (rounds_to_le _ (SF2Q a)) in Hr; [done|by apply finite_nonneg_representable|].
  pose proof (finite_nonneg_value b Hb). lra.
Qed.

(** The share [(techCapacity / g.size) * g.fraction] of a group that does
    not fit lies between zero and the fraction of the group. *)
Lemma share_bounds (cap size frac : spec_float) :
  finite_nonneg cap -> finite_nonneg size -> finite_nonneg frac -> flt cap size = true ->
  finite_nonneg (fmul (fdiv cap size) frac) /\ SF2Q (fmul (fdiv cap size) frac) <= SF2Q frac.
Proof.
  intros Hcap Hsize Hfrac Hlt. apply SFltb_value in Hlt; [|done..].
  pose proof (finite_nonneg_value cap Hcap) as Hcap0.
  pose proof (finite_nonneg_value frac Hfrac) as Hfrac0.
  assert (0 < SF2Q size) as Hpos by lra.
  pose proof (SFdiv_correct cap size Hcap Hsize Hpos) as Hq.
  apply (rounds_to_le _ 1) in Hq as [Hq Hq1]; [|apply representable_1|].
  2:{ apply Qle_shift_div_r; [done|]. lra. }
  pose proof (finite_nonneg_value _ Hq) as Hq0.
  pose proof (SFmul_correct _ frac Hq Hfrac) as Hf.
  apply (rounds_to_le _ (SF2Q frac)) in Hf; [done|by apply finite_nonneg_representable|].
  rewrite <- (Qmult_1_l (SF2Q frac)) at 2. by apply Qmult_le_compat_r.
Qed.

Variable techs : list (Tech spec_float).
Variable config : Config.
Hypothesis Hcaps : Forall (fun tc => finite_nonneg (capacity tc)) techs.
Hypothesis Hcounts : Forall (fun c => (c < 2 ^ 32)%N) config.

Lemma tier_nonneg (t : nat) (c : N) (tc : Tech spec_float) :
  config !! t = Some c -> techs !! t = Some tc -> nonneg (fmul (of_unsigned c) (capacity tc)).
Proof.
  intros Hc Htc. apply fmul_nonneg.
  - apply of_unsigned_finite. by apply (Forall_lookup_1 _ _ _ _ Hcounts Hc).
  - by apply (Forall_lookup_1 _ _ _ _ Hcaps Htc).
Qed.

(** Each turn keeps the remaining capacity and the fractions non-negative. *)
Lemma turn_nonneg (g : AccessGroup spec_float) (st : SimState) (t : Turn) :
  nonneg_state st -> finite_nonneg (fraction g) -> finite_nonneg (size g) ->
  turn techs config g st = Some t ->
  match t with
  | Advance g' st' => nonneg_state st' /\ finite_nonneg (fraction g') /\ size g' = size g
  | Break st' => nonneg_state st'
  end.
Proof.
  intros [Hcap Hout] Hfr Hsz. unfold turn, fgt.
  destruct (flt (techCapacity st) (size g)) eqn:Hcmp.
  - destruct (fractionsOut st !! tech st) as [out_t|] eqn:Hout_t; simpl; [|done].
    destruct (config !! S (tech st)) as [c|] eqn:Hc; simpl; [|done].
    destruct (techs !! S (tech st)) as [tc|] eqn:Htc; simpl; [|done].
    intros ?; simplify_eq.
    pose proof (flt_finite _ _ Hcap Hsz Hcmp) as Hcapf.
    destruct (share_bounds _ _ _ Hcapf Hsz Hfr Hcmp) as [Hf Hf1].
    split; [split|split; [|done]]; simpl.
    + by eapply tier_nonneg.
    + apply Forall_insert; [done|]. apply fadd_nonneg; [|done].
      by apply (Forall_lookup_1 _ _ _ _ Hout Hout_t).
    + by apply fsub_finite.
  - destruct (fractionsOut st !! tech st) as [out_t|] eqn:Hout_t; simpl; [|done].
    intros ?; simplify_eq. split; simpl.
    + by apply fsub_nonneg.
    + apply Forall_insert; [done|]. apply fadd_nonneg; [|done].
      by apply (Forall_lookup_1 _ _ _ _ Hout Hout_t).
Qed.

Lemma place_group_nonneg (fuel : nat) (g : AccessGroup spec_float) (st st' : SimState) :
  nonneg_state st -> finite_nonneg (fraction g) -> finite_nonneg (size g) ->
  place_group techs fuel config g st = Some st' ->
  nonneg_state st'.
Proof.
  revert g st. induction fuel as [|fuel IH]; intros g st Hst Hfr Hsz; simpl;
    destruct (turn techs config g st) as [[g1 st1|st1]|] eqn:Hturn; simpl; try done;
    apply (turn_nonneg _ _ _ Hst Hfr Hsz) in Hturn.
  - intros ?; by simplify_eq.
  - destruct Hturn as (Hst1 & Hfr1 & Hsz1). apply IH; [done..|by rewrite Hsz1].
  - intros ?; by simplify_eq.
Qed.

Lemma sim_start_nonneg (buffer : list spec_float) (st0 : SimState) :
  sim_start techs config buffer = Some st0 -> nonneg_state st0.
Proof.
  unfold sim_start.
  destruct (config !! 0%nat) as [c|] eqn:Hc; simpl; [|done].
  destruct (techs !! 0%nat) as [tc|] eqn:Htc; simpl; [|done].
  intros [= <-]. split; simpl.
  - by eapply tier_nonneg.
  - apply Forall_fmap, Forall_true. intros ?. by left.
Qed.

Lemma computeAccessFractions_nonneg (workload : Workload spec_float) (buffer out : list spec_float) :
  Forall (fun g => finite_nonneg (fraction g) /\ finite_nonneg (size g)) workload ->
  computeAccessFractions techs workload config buffer = Some out ->
  Forall nonneg out.
Proof.
  intros Hw. unfold computeAccessFractions. intros Hrun.
  destruct (sim_start techs config buffer) as [st0|] eqn:Hstart; simpl in Hrun; [|done].
  destruct (foldM _ workload st0) as [st|] eqn:Hfold; simpl in Hrun; [|done]. simplify_eq.
  apply sim_start_nonneg in Hstart.
  apply (foldM_invariant _ nonneg_state workload) with (s := st0) (s' := st) in Hfold;
    [apply Hfold| |done].
  intros s g s' Hg Hs Hplace.
  rewrite Forall_forall in Hw. destruct (Hw g Hg) as [Hfr Hsz].
  by eapply place_group_nonneg.
Qed.

End SimulatorSigns.

(** ** The simulator in binary32: the mass it distributes *)

Section Factors.
Local Open Scope Q_scope.
















End Factors.

Section SimulatorMass.
Local Open Scope Q_scope.
Variable techs : list (Tech spec_float).
Variable config : Config.
Hypothesis Hcaps : Forall (fun tc => finite_nonneg (capacity tc)) techs.
Hypothesis Hcounts : Forall (fun c => (c < 2 ^ 32)%N) config.






End SimulatorMass.

(** ** Concrete runs of the program (binary32) *)

Module Runs.
Import Binary32.

Lemma main_run_2000 :
  findBestConfig techs workload (f 2000) true = Some main_result.
Proof. vm_compute. reflexivity. Qed.

Lemma no_feasible_400 :
  forall c, c ∈ search_space techs ->
  forall cost, ~ feasible techs workload (f 400) c cost.
Proof. apply infeasibleb_correct. vm_compute. reflexivity. Qed.

Lemma techs_capacity_monotone : capacity_monotone techs.
Proof. apply capacity_monotoneb_correct. vm_compute. reflexivity. Qed.

End Runs.

(** ** Results *)

Section Results.
Context {F : Type} `{FloatOps F}.
Variable techs : list (Tech F).

(** C1 (as amended). The configuration returned by [findBestConfig] is
    either the all-zero configuration it started from, with the best time
    and cost still at their initial value (no configuration was accepted),
    or a configuration of the search space that satisfies [isValid] and
    whose [configCost], recorded in [bestCost], is strictly less than the
    cost limit. *)
Theorem findBestConfig_feasible_or_untouched
    (workload : Workload F) (costLimit : F) (optimizeThroughput : bool) (r : Search) :
  findBestConfig techs workload costLimit optimizeThroughput = Some r ->
  (bestConfig r = zero_config techs /\ bestTime r = float_max /\ bestCost r = float_max) \/
  (bestConfig r ∈ search_space techs /\
   isValid techs (bestConfig r) workload = Some true /\
   configCost techs (bestConfig r) = Some (bestCost r) /\
   flt (bestCost r) costLimit = true).
Proof.
  intros Hrun. apply findBestConfig_best_is_visited in Hrun as [_ [Hun|[Hin Hscored]]].
  - left. destruct Hun as (? & ? & ? & _). done.
  - right. destruct Hscored as ((? & ? & ?) & _). done.
Qed.

(** C4 (as amended). When no configuration of the search space is both
    valid and strictly under the cost limit, [findBestConfig] returns the
    all-zero configuration, and its best time and best cost remain the
    initial sentinel [numeric_limits<float>::max()]. *)
Theorem findBestConfig_no_feasible
    (workload : Workload F) (costLimit : F) (optimizeThroughput : bool) :
  techs <> [] ->
  (forall c, c ∈ search_space techs -> forall cost, ~ feasible techs workload costLimit c cost) ->
  exists r,
    findBestConfig techs workload costLimit optimizeThroughput = Some r /\
    bestConfig r = zero_config techs /\
    bestTime r = float_max /\ bestCost r = float_max /\
    bestAccessFractions r = replicate (length techs) (of_Z 0).
Proof.
  intros Hne Hinf. exists (initial techs).
  split; [by apply search_untouched|done].
Qed.

(** C5 (as amended). On a configuration with one entry per tier of a
    non-empty catalog, [isValid] returns a boolean, and it returns true
    exactly when tier 0 is populated, no populated tier has strictly less
    total capacity than the populated tier before it, and the last
    populated tier's total capacity is not strictly less than the sum of
    the access-group sizes; where a total capacity is the [float] product
    of the count and the per-device capacity, and the sum of the sizes is
    accumulated in [float], group after group. *)
Theorem isValid_iff_rules (config : Config) (workload : Workload F) :
  length config = length techs -> techs <> [] ->
  (exists b, isValid techs config workload = Some b) /\
  (isValid techs config workload = Some true <-> isValid_rules techs config workload) /\
  (isValid techs config workload = Some false <-> ~ isValid_rules techs config workload).
Proof.
  intros Hlen Hne.
  destruct (isValid_correct techs config workload Hlen Hne) as (b & Hb & Hspec).
  rewrite isValid_rules_spec.
  split; [by exists b|]. rewrite Hb. split.
  - rewrite <- Hspec. split; [by intros [= ->]|by intros ->].
  - rewrite <- Hspec. destruct b; split; done.
Qed.

(** C8. The search evaluates exactly the configurations of [search_space],
    in order; every one of them has one device count per tier, each
    strictly below the tier's [max]; and so has the returned best
    configuration when every tier has a nonzero [max]. *)
Theorem search_space_within_caps
    (workload : Workload F) (costLimit : F) (optimizeThroughput : bool) :
  findBestConfig techs workload costLimit optimizeThroughput =
    foldM (fun s config => visit techs workload costLimit optimizeThroughput config s)
      (search_space techs) (initial techs) /\
  (forall config, config ∈ search_space techs -> in_range techs config) /\
  (forall r, findBestConfig techs workload costLimit optimizeThroughput = Some r ->
             Forall (fun tech => (0 < max tech)%N) techs ->
             in_range techs (bestConfig r)).
Proof.
  split; [apply findBestConfig_search_space|]. split; [apply search_space_in_range|].
  intros r Hrun Hmax.
  apply findBestConfig_best_is_visited in Hrun as [_ [(_ & _ & -> & _)|[Hin _]]].
  - by apply zero_config_in_range.
  - by apply search_space_in_range.
Qed.

(** C9. [computeAccessFractions] is a function of the workload, the
    configuration and the length of the output buffer alone: two calls on
    buffers of the same length return the same vector whatever the buffers
    held, and a second call on the buffer the first call filled returns
    the same vector again.  The workload and the configuration are read
    only. *)
Theorem computeAccessFractions_stateless (workload : Workload F) (config : Config) :
  (forall buffer1 buffer2 : list F,
     length buffer1 = length buffer2 ->
     computeAccessFractions techs workload config buffer1 =
     computeAccessFractions techs workload config buffer2) /\
  (forall buffer out : list F,
     computeAccessFractions techs workload config buffer = Some out ->
     computeAccessFractions techs workload config out = Some out).
Proof.
  split; [apply computeAccessFractions_buffer|].
  intros buffer out Hrun. rewrite <- Hrun.
  apply computeAccessFractions_buffer. by eapply computeAccessFractions_length.
Qed.

End Results.


(** The numbers that are not negative, by the comparisons of the program. *)
Lemma nonneg_iff (x : spec_float) :
  nonneg x <-> valid_binary prec32 emax32 x = true /\ fle (of_Z 0) x = true.
Proof.
  split.
  - intros Hx. split; [|by apply nonneg_fle].
    destruct Hx as [Hx| ->]; [|done]. by destruct x as [s| | |[] m e].
  - intros [Hvalid Hle]. destruct x as [s|[]| |[] m e]; try done.
    + by left.
    + by right.
    + by left.
Qed.

Lemma finite_nonneg_iff (x : spec_float) :
  finite_nonneg x <->
  valid_binary prec32 emax32 x = true /\ fle (of_Z 0) x = true /\
  flt x (S754_infinity false) = true.
Proof.
  split.
  - intros Hx. by destruct x as [s| | |[] m e].
  - intros (Hvalid & Hle & Hlt). by destruct x as [s|[]| |[] m e].
Qed.

(** C10.  In binary32, with a catalog of finite non-negative capacities,
    device counts in the range of [unsigned] and a workload whose groups
    have a finite fraction >= 0 and a finite size >= 0: the
    remaining-capacity counter and the accumulated fractions are
    non-negative before the first group, every turn of the simulator's
    loop keeps them (and the group's remaining fraction) non-negative, and
    so every entry of the output of a completed run is non-negative. *)
Theorem simulator_nonneg (techs : list (Tech spec_float))
    (workload : Workload spec_float) (config : Config) (buffer : list spec_float) :
  Forall (fun tc => finite_nonneg (capacity tc)) techs ->
  Forall (fun c => (c < 2 ^ 32)%N) config ->
  Forall (fun g => finite_nonneg (fraction g) /\ finite_nonneg (size g)) workload ->
  (forall st0, sim_start techs config buffer = Some st0 -> nonneg_state st0) /\
  (forall g st t,
     finite_nonneg (fraction g) -> finite_nonneg (size g) -> nonneg_state st ->
     turn techs config g st = Some t ->
     match t with
     | Advance g' st' => nonneg_state st' /\ finite_nonneg (fraction g') /\ size g' = size g
     | Break st' => nonneg_state st'
     end) /\
  (forall out, computeAccessFractions techs workload config buffer = Some out ->
               Forall (fun x => valid_binary prec32 emax32 x = true /\ fle (of_Z 0) x = true) out).
Proof.
  intros Hcaps Hcounts Hw. split; [|split].
  - intros st0. by apply sim_start_nonneg.
  - intros g st t Hfr Hsz Hst. by apply turn_nonneg.
  - intros out Hrun. eapply Forall_impl; [by eapply computeAccessFractions_nonneg|].
    intros x. apply nonneg_iff.
Qed.


(** ** The results on the program's own catalog *)

Module OnCatalog.
Import Binary32 Runs.

Lemma isValid_inclusive {F : Type} `{FloatOps F} (catalog : list (Tech F))
    (config : Config) (w : Workload F) :
  length config = length catalog ->
  isValid catalog config w = Some true -> inclusive catalog config.
Proof.
  intros Hlen Hvalid.
  assert (catalog <> []) as Hne.
  { intros Hnil. rewrite Hnil in Hlen. destruct config; [|done]. done. }
  destruct (isValid_correct catalog config w Hlen Hne) as (b & Hb & Hspec).
  rewrite Hvalid in Hb. simplify_eq. by apply Hspec.
Qed.

Lemma in_range_2013 : in_range techs [2; 0; 1; 3]%N.
Proof.
  split; [done|]. intros [|[|[|[|t]]]] tech k Ht Hk; simpl in *; by simplify_eq.
Qed.

(** C1: the search with a budget of $400 returns the all-zero
    configuration, which [isValid] rejects. *)
Lemma findBestConfig_returns_invalid :
  exists r,
    findBestConfig techs workload (f 400) true = Some r /\
    bestConfig r = [0; 0; 0; 0]%N /\
    isValid techs (bestConfig r) workload = Some false.
Proof.
  exists (initial techs). split; [|split].
  - apply search_untouched; [done|apply no_feasible_400].
  - reflexivity.
  - vm_compute. reflexivity.
Qed.

Lemma findBestConfig_feasible_or_untouched_witness :
  findBestConfig techs workload (f 2000) true = Some main_result /\
  ((bestConfig main_result = zero_config techs /\
    bestTime main_result = float_max /\ bestCost main_result = float_max) \/
   (bestConfig main_result ∈ search_space techs /\
    isValid techs (bestConfig main_result) workload = Some true /\
    configCost techs (bestConfig main_result) = Some (bestCost main_result) /\
    flt (bestCost main_result) (f 2000) = true)).
Proof.
  split; [exact main_run_2000|].
  exact (findBestConfig_feasible_or_untouched techs workload (f 2000) true main_result main_run_2000).
Defined.

(** C2: with the workload of [main], [1,0,1,3] is valid; raising the NVM
    count from 0 to 5 gives [1,5,1,3], whose NVM tier (1280 GB) is larger
    than its SSD tier (1 TB), and which [isValid] rejects. *)
Lemma isValid_not_monotone :
  isValid techs [1; 0; 1; 3]%N workload = Some true /\
  Forall2 N.le [1; 0; 1; 3]%N [1; 5; 1; 3]%N /\
  isValid techs [1; 5; 1; 3]%N workload = Some false.
Proof.
  split; [vm_compute; reflexivity|]. split; [|vm_compute; reflexivity].
  repeat constructor; lia.
Qed.

Lemma isValid_grow_witness :
  isValid techs [1; 0; 1; 3]%N workload = Some true /\
  isValid techs [2; 0; 1; 3]%N workload = Some true.
Proof.
  assert (isValid techs [1; 0; 1; 3]%N workload = Some true) as Hvalid
    by (vm_compute; reflexivity).
  split; [exact Hvalid|].
  refine (isValid_grow techs [1; 0; 1; 3]%N [2; 0; 1; 3]%N workload
            techs_capacity_monotone eq_refl Hvalid in_range_2013 _ _).
  - repeat constructor; lia.
  - apply (isValid_inclusive techs _ []); [done|vm_compute; reflexivity].
Defined.

Lemma techs_finite : Forall (fun tc => finite_nonneg (capacity tc)) techs.
Proof. repeat constructor. Qed.

Lemma workload_finite :
  Forall (fun g => finite_nonneg (fraction g) /\ finite_nonneg (size g)) workload.
Proof. repeat constructor. Qed.

Lemma counts_1013 : Forall (fun c => (c < 2 ^ 32)%N) [1; 0; 1; 3]%N.
Proof. repeat constructor. Qed.


(** C4: with a budget of $400 no configuration of the search space is
    feasible, and the best time the search reports is the largest finite
    float, (2^24 - 1) * 2^104, not +infinity. *)
Lemma sentinel_is_not_infinity :
  (forall c, c ∈ search_space techs -> forall cost, ~ feasible techs workload (f 400) c cost) /\
  exists r,
    findBestConfig techs workload (f 400) true = Some r /\
    bestTime r = S754_finite false 16777215 104 /\
    bestTime r <> S754_infinity false.
Proof.
  split; [apply no_feasible_400|].
  exists (initial techs). split; [|split].
  - apply search_untouched; [done|apply no_feasible_400].
  - reflexivity.
  - done.
Qed.

Lemma findBestConfig_no_feasible_witness :
  exists r,
    findBestConfig techs workload (f 400) true = Some r /\
    bestConfig r = zero_config techs /\
    bestTime r = float_max /\ bestCost r = float_max /\
    bestAccessFractions r = replicate (length techs) (of_Z 0).
Proof.
  refine (findBestConfig_no_feasible techs workload (f 400) true _ no_feasible_400).
  done.
Defined.

(** C5: 64 GB and one byte on a single RAM device.  [isValid] accepts the
    configuration, although the total capacity of its last populated tier,
    2^36 bytes, is strictly less than the sum of the sizes, 2^36 + 1: the
    sum that [isValid] compares with is rounded to 2^36. *)
Lemma isValid_rounded_sum :
  isValid techs [1; 0; 0; 0]%N byte_workload = Some true /\
  last_populated [1; 0; 0; 0]%N 0 /\
  exists ram,
    techs !! 0 = Some ram /\
    (SF2Q (total_capacity ram 1) == inject_Z (2 ^ 36))%Q /\
    (Qsum (map (fun g => SF2Q (size g)) byte_workload) == inject_Z (2 ^ 36 + 1))%Q /\
    (SF2Q (total_capacity ram 1) < Qsum (map (fun g => SF2Q (size g)) byte_workload))%Q /\
    (SF2Q (sum_of_sizes byte_workload) == inject_Z (2 ^ 36))%Q.
Proof.
  split; [vm_compute; reflexivity|]. split.
  - split; [by exists 1%N|]. intros k Hk (c & Hc & Hne).
    destruct k as [|[|[|[|k]]]]; simpl in Hc; simplify_eq; lia.
  - eexists. split; [reflexivity|]. repeat split; vm_compute; reflexivity.
Qed.

Lemma isValid_iff_rules_witness :
  (exists b, isValid techs [1; 0; 1; 3]%N workload = Some b) /\
  (isValid techs [1; 0; 1; 3]%N workload = Some true <-> isValid_rules techs [1; 0; 1; 3]%N workload) /\
  (isValid techs [1; 0; 1; 3]%N workload = Some false <-> ~ isValid_rules techs [1; 0; 1; 3]%N workload).
Proof.
  refine (isValid_iff_rules techs [1; 0; 1; 3]%N workload eq_refl _). done.
Defined.


Lemma search_space_within_caps_witness :
  findBestConfig techs workload (f 2000) true = Some main_result /\
  in_range techs (bestConfig main_result).
Proof.
  split; [exact main_run_2000|].
  refine (proj2 (proj2 (search_space_within_caps techs workload (f 2000) true))
            main_result main_run_2000 _).
  repeat (constructor; [reflexivity|]). constructor.
Defined.

(** C7: 64 GB and one byte on a single RAM device.  In binary32 the sum
    of the sizes, 2^36 + 1, rounds to 2^36, so [isValid] accepts the
    configuration; the simulator places the first group, is left with no
    capacity for the byte, and walks off the end of the catalog. *)
Theorem simulator_overrun_on_valid :
  Forall (fun g => fle (f 0) (size g) = true) byte_workload /\
  sumSpaceNeeded byte_workload = mul (f 64) GB /\
  isValid techs [1; 0; 0; 0]%N byte_workload = Some true /\
  computeAccessFractions techs byte_workload [1; 0; 0; 0]%N (replicate 4 (f 0)) = None /\
  findBestConfig techs byte_workload (f 2000) true = None.
Proof.
  split; [repeat constructor; vm_compute; reflexivity|].
  repeat split; vm_compute; reflexivity.
Qed.

(** C10: the workload of [main] on one RAM device, one SSD and three HDDs. *)
Lemma simulator_nonneg_witness :
  (forall st0, sim_start techs [1; 0; 1; 3]%N (replicate 4 (f 0)) = Some st0 -> nonneg_state st0) /\
  (forall g st t,
     finite_nonneg (fraction g) -> finite_nonneg (size g) -> nonneg_state st ->
     turn techs [1; 0; 1; 3]%N g st = Some t ->
     match t with
     | Advance g' st' => nonneg_state st' /\ finite_nonneg (fraction g') /\ size g' = size g
     | Break st' => nonneg_state st'
     end) /\
  (forall out, computeAccessFractions techs workload [1; 0; 1; 3]%N (replicate 4 (f 0)) = Some out ->
               Forall (fun x => valid_binary prec32 emax32 x = true /\ fle (of_Z 0) x = true) out).
Proof.
  exact (simulator_nonneg techs workload [1; 0; 1; 3]%N (replicate 4 (f 0))
           techs_finite counts_1013 workload_finite).
Defined.

End OnCatalog.

(** * Further properties of the program *)

(** ** Reads within bounds *)

(** A loop one of whose iterations fails has no result. *)
Lemma foldM_fails {A S : Type} (body : S -> A -> option S) (xs : list A) (x : A) :
  x ∈ xs -> (forall s, body s x = None) -> forall s, foldM body xs s = None.
Proof.
  intros Hin Hfail. induction xs as [|y xs IH]; intros s; simpl.
  - by apply elem_of_nil in Hin.
  - apply elem_of_cons in Hin as [<-|Hin]; [by rewrite Hfail|].
    destruct (body s y); simpl; [by apply IH|done].
Qed.

(** Two loop bodies that agree on the elements of the list give the same loop. *)
Lemma foldM_ext_elem {A S : Type} (body1 body2 : S -> A -> option S) (xs : list A) :
  (forall s x, x ∈ xs -> body1 s x = body2 s x) ->
  forall s, foldM body1 xs s = foldM body2 xs s.
Proof.
  induction xs as [|x xs IH]; intros Hext s; simpl; [done|].
  rewrite Hext by (by left). destruct (body2 s x); simpl; [|done].
  apply IH. intros ? ? ?. apply Hext. by right.
Qed.

Section Bounds.
Context {F : Type} `{FloatOps F}.
Variable techs : list (Tech F).

Lemma tierCapacity_take (config : Config) (t : nat) :
  tierCapacity techs (take (length techs) config) t = tierCapacity techs config t.
Proof.
  unfold tierCapacity. destruct (decide (t < length techs)) as [Hlt|Hge].
  - by rewrite lookup_take_lt.
  - rewrite lookup_take_ge by lia.
    rewrite (lookup_ge_None_2 techs t) by lia. simpl. by destruct (config !! t).
Qed.

Lemma collect_indexes_take (config : Config) (ts indexes : list nat) :
  Forall (fun t => t < length techs) ts ->
  collect_indexes (take (length techs) config) ts indexes = collect_indexes config ts indexes.
Proof.
  intros Hts. revert indexes. induction Hts as [|t ts Ht Hts IH]; intros indexes; simpl; [done|].
  rewrite lookup_take_lt by done. destruct (config !! t); simpl; [apply IH|done].
Qed.

Lemma collect_indexes_fails (config : Config) (ts indexes : list nat) (t : nat) :
  t ∈ ts -> config !! t = None -> collect_indexes config ts indexes = None.
Proof.
  intros Hin Hnone. revert indexes. induction ts as [|u ts IH]; intros indexes; simpl.
  - by apply elem_of_nil in Hin.
  - apply elem_of_cons in Hin as [<-|Hin]; [by rewrite Hnone|].
    destruct (config !! u); simpl; [by apply IH|done].
Qed.

Lemma inclusive_loop_take (config : Config) (indexes positions : list nat) :
  inclusive_loop techs (take (length techs) config) indexes positions =
  inclusive_loop techs config indexes positions.
Proof.
  induction positions as [|i positions IH]; simpl; [done|].
  destruct (indexes !! i) as [cur|]; simpl; [|done].
  destruct (indexes !! (i - 1)) as [prev|]; simpl; [|done].
  by rewrite !tierCapacity_take, IH.
Qed.

(** [isValid] reads [config[t]] for [t < techs.size()] only. *)
Lemma isValid_take (config : Config) (workload : Workload F) :
  techs <> [] ->
  isValid techs (take (length techs) config) workload = isValid techs config workload.
Proof.
  intros Hne. unfold isValid.
  rewrite lookup_take_lt by (destruct techs; [done|simpl; lia]).
  destruct (config !! 0) as [c0|]; simpl; [|done].
  destruct (c0 =? 0)%N; [done|].
  rewrite collect_indexes_take by (apply Forall_forall; intros t Ht%elem_of_seq; lia).
  destruct (collect_indexes config _ _) as [indexes|]; simpl; [|done].
  rewrite inclusive_loop_take.
  destruct (inclusive_loop techs config indexes _) as [[|]|]; simpl; try done.
  destruct (last indexes) as [back|]; simpl; [|done].
  by rewrite tierCapacity_take.
Qed.

(** X1. [isValid] reads [config[0]] first and, unless that count is zero,
    [config[t]] for every [t < techs.size()] and the last element of
    [indexes]: it returns a boolean exactly when [config] has an entry 0
    and either that entry is 0, or the catalog is not empty and [config]
    has an entry for every tier; any other call is undefined behaviour.
    Entries of [config] past [techs.size()] are never read. *)
Theorem isValid_reads_catalog_prefix (config : Config) (workload : Workload F) :
  (is_Some (isValid techs config workload) <->
   exists c0, config !! 0 = Some c0 /\
              (c0 = 0%N \/ (techs <> [] /\ length techs <= length config))) /\
  (techs <> [] ->
   isValid techs (take (length techs) config) workload = isValid techs config workload).
Proof.
  split; [|intros Hne; by apply isValid_take].
  split.
  - intros [b Hb]. unfold isValid in Hb.
    destruct (config !! 0) as [c0|] eqn:Hc0; simpl in Hb; [|done].
    exists c0. split; [done|].
    destruct (c0 =? 0)%N eqn:Hz; [left; by apply N.eqb_eq|right].
    destruct (decide (length techs <= length config)) as [Hle|Hgt].
    + split; [|done]. intros ->. simpl in Hb. done.
    + rewrite (collect_indexes_fails config _ [] (length config)) in Hb; [done| |].
      * apply elem_of_seq. lia.
      * by apply lookup_ge_None_2.
  - intros (c0 & Hc0 & [->|[Hne Hle]]).
    + unfold isValid. rewrite Hc0. simpl. by eexists.
    + rewrite <- isValid_take by done.
      destruct (isValid_correct techs (take (length techs) config) workload) as (b & Hb & _);
        [rewrite length_take; lia|done|].
      by exists b.
Qed.

Lemma configCost_take (config : Config) :
  configCost techs (take (length techs) config) = configCost techs config.
Proof.
  unfold configCost. apply foldM_ext_elem. intros acc i Hi%elem_of_seq.
  by rewrite lookup_take_lt by lia.
Qed.

(** X2. [configCost] returns a cost exactly when [config] has an entry for
    every tier of the catalog (it reads [config[i]] for [i < techs.size()]),
    and it ignores any further entries. *)
Theorem configCost_reads_catalog_prefix (config : Config) :
  (is_Some (configCost techs config) <-> length techs <= length config) /\
  configCost techs (take (length techs) config) = configCost techs config.
Proof.
  split; [|apply configCost_take].
  split.
  - intros [c Hc]. destruct (decide (length techs <= length config)) as [|Hgt]; [done|].
    unfold configCost in Hc.
    rewrite (foldM_fails _ _ (length config)) in Hc; [done| |].
    + apply elem_of_seq. lia.
    + intros acc. by rewrite (lookup_ge_None_2 config).
  - intros Hle. destruct (configCost_total techs config Hle) as [c Hc]. by exists c.
Qed.

(** Either average is a loop over [accessFractions] that reads [techs[i]]. *)
Lemma average_defined (weight : Tech F -> F) (accessFractions : list F) :
  is_Some (foldM (fun sum i =>
                    a ← accessFractions !! i; tech ← techs !! i;
                    Some (fadd sum (fmul a (weight tech))))
                 (seq 0 (length accessFractions)) (of_Z 0)) <->
  length accessFractions <= length techs.
Proof.
  split.
  - intros [r Hr]. destruct (decide (length accessFractions <= length techs)) as [|Hgt]; [done|].
    rewrite (foldM_fails _ _ (length techs)) in Hr; [done| |].
    + apply elem_of_seq. lia.
    + intros acc. rewrite (lookup_ge_None_2 techs) by lia. by destruct (accessFractions !! _).
  - intros Hle.
    destruct (foldM_total
                (fun sum i => a ← accessFractions !! i; tech ← techs !! i;
                              Some (fadd sum (fmul a (weight tech))))
                (fun _ => True) (seq 0 (length accessFractions))) with (s := of_Z 0)
      as (r & Hr & _); [|done|by exists r].
    intros acc i Hi%elem_of_seq _.
    destruct (lookup_lt_is_Some_2 accessFractions i) as [a ->]; [lia|].
    destruct (lookup_lt_is_Some_2 techs i) as [tech ->]; [lia|].
    simpl. eauto.
Qed.

End Bounds.

(** ** The simulator's buffer *)

Section Buffer.
Context {F : Type} `{FloatOps F}.
Variable techs : list (Tech F).

Lemma place_group_cursor (fuel : nat) (config : Config) (g : AccessGroup F) (st st' : SimState) :
  place_group techs fuel config g st = Some st' ->
  tech st <= tech st' /\ tech st' < length (fractionsOut st').
Proof.
  revert g st. induction fuel as [|fuel IH]; intros g st; simpl;
    destruct (turn techs config g st) as [[g1 st1|st1]|] eqn:Hturn; simpl; try done.
  - intros ?; simplify_eq. unfold turn in Hturn.
    destruct (fgt _ _); simplify_option_eq. split; [done|].
    rewrite length_insert. by eapply lookup_lt_Some.
  - intros Hrun. apply IH in Hrun as [Hle Hlt].
    apply turn_length in Hturn as (_ & Ht & _). split; [lia|done].
  - intros ?; simplify_eq. unfold turn in Hturn.
    destruct (fgt _ _); simplify_option_eq. split; [done|].
    rewrite length_insert. by eapply lookup_lt_Some.
Qed.

Lemma computeAccessFractions_nonempty (workload : Workload F) (config : Config) (buffer out : list F) :
  computeAccessFractions techs workload config buffer = Some out ->
  config <> [] /\ techs <> [] /\ (workload <> [] -> buffer <> []).
Proof.
  intros Hrun. pose proof (computeAccessFractions_length techs _ _ _ _ Hrun) as Hlen.
  unfold computeAccessFractions, sim_start in Hrun.
  destruct (config !! 0) as [c|] eqn:Hc; simpl in Hrun; [|done].
  destruct (techs !! 0) as [tc|] eqn:Htc; simpl in Hrun; [|done].
  split; [by intros ->|]. split; [by intros ->|].
  intros Hw. destruct workload as [|g w]; [done|]. simpl in Hrun.
  destruct (place_group _ _ _ _ _) as [st1|] eqn:Hg; simpl in Hrun; [|done].
  pose proof (place_group_length _ _ _ _ _ _ Hg) as Hl1.
  apply place_group_cursor in Hg as [_ Hlt].
  rewrite Hl1 in Hlt. simpl in Hlt. rewrite length_map in Hlt.
  intros ->. simpl in Hlt. lia.
Qed.

Lemma computeAccessFractions_empty (config : Config) (buffer : list F) :
  config <> [] -> techs <> [] ->
  computeAccessFractions techs [] config buffer = Some (replicate (length buffer) (of_Z 0)).
Proof.
  intros Hc Ht. unfold computeAccessFractions, sim_start.
  destruct config as [|c config]; [done|]. destruct techs as [|tc techs']; [done|]. simpl.
  f_equal. induction buffer as [|x buffer IH]; simpl; [done|]. by rewrite IH.
Qed.

(** The simulator reads [config[t]] for [t < techs.size()] only. *)
Lemma turn_take (config : Config) (g : AccessGroup F) (st : SimState) :
  turn techs (take (length techs) config) g st = turn techs config g st.
Proof.
  unfold turn. destruct (fgt _ _); [|done].
  destruct (fractionsOut st !! tech st) as [out_t|]; simpl; [|done].
  destruct (decide (S (tech st) < length techs)) as [Hlt|Hge].
  - by rewrite lookup_take_lt.
  - rewrite lookup_take_ge by lia. rewrite (lookup_ge_None_2 techs) by lia.
    simpl. by destruct (config !! S (tech st)).
Qed.

Lemma place_group_take (fuel : nat) (config : Config) (g : AccessGroup F) (st : SimState) :
  place_group techs fuel (take (length techs) config) g st = place_group techs fuel config g st.
Proof.
  revert g st. induction fuel as [|fuel IH]; intros g st; simpl; rewrite turn_take;
    destruct (turn techs config g st) as [[g1 st1|st1]|]; simpl; try done.
Qed.

Lemma computeAccessFractions_take (workload : Workload F) (config : Config) (buffer : list F) :
  computeAccessFractions techs workload (take (length techs) config) buffer =
  computeAccessFractions techs workload config buffer.
Proof.
  unfold computeAccessFractions.
  assert (sim_start techs (take (length techs) config) buffer = sim_start techs config buffer) as ->.
  { unfold sim_start. destruct techs as [|tc techs']; simpl.
    - by destruct (config !! 0).
    - by destruct config. }
  destruct (sim_start techs config buffer) as [st0|]; simpl; [|done].
  by rewrite (foldM_ext _ (fun st g => place_group techs (length techs) config g st))
    by (intros; apply place_group_take).
Qed.

End Buffer.

(** ** The search space: size and order *)

Lemma ascending_app {A : Type} (R : A -> A -> Prop) (l1 l2 : list A) :
  ascending R l1 -> ascending R l2 ->
  (forall a b, a ∈ l1 -> b ∈ l2 -> R a b) ->
  ascending R (l1 ++ l2).
Proof.
  intros H1 H2 Hcross i j a b Hi Hj Hij.
  destruct (decide (j < length l1)) as [Hj1|Hj1].
  - rewrite lookup_app_l in Hi, Hj by lia. by eapply H1.
  - rewrite lookup_app_r in Hj by lia.
    destruct (decide (i < length l1)) as [Hi1|Hi1].
    + rewrite lookup_app_l in Hi by lia.
      apply Hcross; by eapply list_elem_of_lookup_2.
    + rewrite lookup_app_r in Hi by lia. eapply H2; [done|done|lia].
Qed.

Lemma ascending_tail {A : Type} (R : A -> A -> Prop) (x : A) (l : list A) :
  ascending R (x :: l) -> ascending R l /\ forall y, y ∈ l -> R x y.
Proof.
  intros Hasc. split.
  - intros i j a b Hi Hj Hij. apply (Hasc (S i) (S j)); [done|done|lia].
  - intros y [j Hj]%list_elem_of_lookup_1. apply (Hasc 0 (S j)); [done|done|lia].
Qed.

Lemma ascending_counts (m : N) : ascending N.lt (counts m).
Proof.
  intros i j a b Hi Hj Hij. unfold counts in *.
  rewrite list_lookup_fmap in Hi, Hj.
  destruct (seq 0 (N.to_nat m) !! i) as [x|] eqn:Hx; simpl in Hi; [|done].
  destruct (seq 0 (N.to_nat m) !! j) as [y|] eqn:Hy; simpl in Hj; [|done].
  apply lookup_seq in Hx as [-> _]. apply lookup_seq in Hy as [-> _].
  simplify_eq. lia.
Qed.

Lemma length_counts (m : N) : length (counts m) = N.to_nat m.
Proof. unfold counts. by rewrite length_map, length_seq. Qed.

Lemma lex_lt_irrefl (a : Config) : ~ lex_lt a a.
Proof. induction a as [|x a IH]; simpl; [tauto|]. intros [?|[_ ?]]; [lia|done]. Qed.

Lemma lex_lt_trans (a b c : Config) : lex_lt a b -> lex_lt b c -> lex_lt a c.
Proof.
  revert b c. induction a as [|x a IH]; intros [|y b] [|z c]; simpl; try done.
  intros [Hxy|[-> Hab]] [Hyz|[-> Hbc]].
  - left. lia.
  - by left.
  - by left.
  - right. split; [done|]. by eapply IH.
Qed.

Section Enumeration.
Context {F : Type} `{FloatOps F}.

(** The blocks of the enumeration for the counts [cs] of one tier, each
    followed by the assignments [inner] of the tiers after it. *)
Lemma length_blocks (cs : list N) (inner : list Config) :
  length (concat (map (fun count => map (cons count) inner) cs)) = length cs * length inner.
Proof.
  induction cs as [|c cs IH]; simpl; [done|].
  by rewrite length_app, length_map, IH.
Qed.

(** The enumeration has as many leaves as the product of the [max] fields
    of the tiers. *)
Lemma search_space_size (techs : list (Tech F)) : length (search_space techs) = leaves techs.
Proof.
  unfold search_space. induction techs as [|t rest IH]; simpl; [done|].
  by rewrite length_blocks, length_counts, IH.
Qed.

Lemma ascending_blocks (cs : list N) (inner : list Config) :
  ascending N.lt cs -> ascending lex_lt inner ->
  ascending lex_lt (concat (map (fun count => map (cons count) inner) cs)).
Proof.
  intros Hcs Hinner. induction cs as [|c cs IH]; simpl.
  - intros i j a b Hi. by rewrite lookup_nil in Hi.
  - apply ascending_tail in Hcs as [Hcs Hc]. apply ascending_app.
    + intros i j a b Hi Hj Hij. rewrite list_lookup_fmap in Hi, Hj.
      destruct (inner !! i) as [a'|] eqn:Ha; simpl in Hi; [|done].
      destruct (inner !! j) as [b'|] eqn:Hb; simpl in Hj; [|done].
      simplify_eq. simpl. right. split; [done|]. by eapply Hinner.
    + by apply IH.
    + intros a b Ha Hb.
      apply list_elem_of_fmap in Ha as (a' & -> & _).
      apply list_elem_of_In, in_concat in Hb as (l & Hl & Hb).
      apply list_elem_of_In in Hl, Hb.
      apply list_elem_of_fmap in Hl as (c' & -> & Hc').
      apply list_elem_of_fmap in Hb as (b' & -> & _).
      simpl. left. by apply Hc.
Qed.

Lemma ascending_assignments (rest : list (Tech F)) : ascending lex_lt (assignments rest).
Proof.
  induction rest as [|t rest IH]; simpl.
  - intros [|i] [|j] a b Hi Hj Hij; simpl in *; try done; lia.
  - apply ascending_blocks; [apply ascending_counts|done].
Qed.

(** Every vector within the caps is one of the assignments. *)
Lemma assignments_complete (rest : list (Tech F)) (a : Config) :
  length a = length rest ->
  (forall t tech k, rest !! t = Some tech -> a !! t = Some k -> (k < max tech)%N) ->
  a ∈ assignments rest.
Proof.
  revert a. induction rest as [|t rest IH]; intros [|k a] Hlen Hrange; simpl in *; try done.
  - by apply list_elem_of_singleton.
  - apply list_elem_of_In, in_concat. exists (map (cons k) (assignments rest)). split.
    + apply list_elem_of_In, list_elem_of_fmap. exists k. split; [done|].
      apply elem_of_counts. by apply (Hrange 0 t k).
    + apply list_elem_of_In, list_elem_of_fmap. exists a. split; [done|].
      apply IH; [lia|]. intros u tech k' Hu Hk'. by apply (Hrange (S u) tech k').
Qed.

(** A tier that admits no device count leaves nothing to enumerate. *)
Lemma assignments_no_count (rest : list (Tech F)) :
  (exists t, t ∈ rest /\ max t = 0%N) -> assignments rest = [].
Proof.
  intros (t & Ht & Hmax). induction rest as [|u rest IH]; simpl.
  - by apply elem_of_nil in Ht.
  - apply elem_of_cons in Ht as [<-|Ht].
    + by rewrite Hmax.
    + rewrite IH by done. generalize (counts (max u)). intros cs.
      induction cs as [|c cs IHc]; simpl; done.
Qed.

End Enumeration.

(** ** Printing after the search *)

Section Report.
Context {F : Type} `{FloatOps F}.
Variable techs : list (Tech F).

Lemma printCapacity_defined (config : Config) (t : nat) :
  is_Some (printCapacity techs config t) <-> t < length config /\ t < length techs.
Proof.
  unfold printCapacity, tierCapacity. split.
  - intros [out Hout].
    destruct (config !! t) as [c|] eqn:Hc; simpl in Hout; [|done].
    destruct (techs !! t) as [tc|] eqn:Htc; simpl in Hout; [|done].
    split; by eapply lookup_lt_Some.
  - intros [Hc Ht].
    destruct (lookup_lt_is_Some_2 config t Hc) as [c ->].
    destruct (lookup_lt_is_Some_2 techs t Ht) as [tc ->]. simpl.
    destruct (fge _ TB); [by eexists|]. destruct (fge _ GB); [by eexists|].
    destruct (fge _ MB); by eexists.
Qed.

(** The vectors the search leaves behind have one entry per tier. *)
Lemma findBestConfig_sized (workload : Workload F) (costLimit : F) (optimizeThroughput : bool)
    (r : Search) :
  findBestConfig techs workload costLimit optimizeThroughput = Some r ->
  length (bestConfig r) = length techs /\ length (bestAccessFractions r) = length techs.
Proof.
  intros Hrun. apply findBestConfig_best_is_visited in Hrun as [_ [Hun|[Hin Hscored]]].
  - destruct Hun as (_ & _ & -> & ->). unfold zero_config. by rewrite !length_replicate.
  - split; [by apply search_space_in_range in Hin as [? _]|].
    destruct Hscored as (_ & Hsim & _). unfold simulate in Hsim.
    apply computeAccessFractions_length in Hsim. by rewrite length_replicate in Hsim.
Qed.

Lemma report_sized (optimizeThroughput : bool) (s : Search) :
  length techs <= length (bestConfig s) ->
  length techs <= length (bestAccessFractions s) ->
  is_Some (report techs optimizeThroughput s).
Proof.
  intros Hcfg Hfr. unfold report.
  match goal with
  | |- is_Some (mbind _ (foldM ?body ?xs ?s0)) =>
      destruct (foldM_total body (fun _ => True) xs) with (s := s0) as (rows & -> & _)
  end; [|done|by eexists].
  intros out t Ht%elem_of_seq _.
  destruct (lookup_lt_is_Some_2 techs t) as [tc ->]; [lia|]. simpl.
  destruct (proj2 (printCapacity_defined (bestConfig s) t)) as [shown ->]; [lia|]. simpl.
  destruct (lookup_lt_is_Some_2 (bestConfig s) t) as [c ->]; [lia|]. simpl.
  destruct (lookup_lt_is_Some_2 (bestAccessFractions s) t) as [a ->]; [lia|]. simpl.
  eauto.
Qed.

End Report.

(** ** The best time against the sentinel, and across budgets *)

Section Budgets.
Context {F : Type} `{OrderLaws F}.
Variable techs : list (Tech F).
Variable workload : Workload F.
Variable optimizeThroughput : bool.

Lemma below_sentinel_step (costLimit : F) (config : Config) (s s' : Search) :
  below_sentinel techs s ->
  visit techs workload costLimit optimizeThroughput config s = Some s' ->
  below_sentinel techs s'.
Proof.
  intros (Hbuf & Hmax & Hs) Hvisit.
  destruct (visit_cases techs workload costLimit optimizeThroughput config s s' Hbuf Hvisit)
    as [[-> _]|(cost & fractions & time & _ & Hfr & Hlen & Hcase)]; [done|].
  split; [congruence|].
  destruct Hcase as [(Hacc & -> & -> & _)|(_ & Hc & Ht & Hcfg & Hf)].
  2:{ rewrite Hc, Ht. split; [done|].
      destruct Hs as [(? & ? & ? & ?)|Hs]; [left|by right].
      repeat split; congruence. }
  apply orb_true_iff in Hacc as [Hlt|[Heq Hc]%andb_true_iff].
  - split.
    + destruct (flt float_max time) eqn:Hm; [|done].
      by rewrite (flt_trans _ _ _ Hm Hlt) in Hmax.
    + right. destruct Hs as [(_ & Ht & _)|[Ht|[Ht _]]].
      * left. by rewrite <- Ht.
      * left. by eapply flt_trans.
      * left. by eapply flt_feq.
  - split.
    + destruct (flt float_max time) eqn:Hm; [|done].
      by rewrite (flt_feq _ _ _ Hm Heq) in Hmax.
    + right. destruct Hs as [(Hb & Ht & _)|[Ht|[Ht Hb]]].
      * right. split; [by rewrite <- Ht|by rewrite <- Hb].
      * left. by eapply feq_flt.
      * right. split; [by eapply feq_trans|by eapply flt_trans].
Qed.

Lemma findBestConfig_below_sentinel (costLimit : F) (r : Search) :
  findBestConfig techs workload costLimit optimizeThroughput = Some r ->
  below_sentinel techs r.
Proof.
  rewrite findBestConfig_search_space. intros Hrun.
  eapply (foldM_invariant _ (below_sentinel techs)); [|  |exact Hrun].
  - intros s config s' _. apply below_sentinel_step.
  - split; [apply length_replicate|]. split; [apply flt_irrefl|]. by left.
Qed.

(** A configuration scored under a limit is scored under any limit that
    is not smaller. *)
Lemma scored_raise (costLimit costLimit' : F) (config : Config) (cost : F)
    (fractions : list F) (time : F) :
  fle costLimit costLimit' = true ->
  scored techs workload costLimit optimizeThroughput config cost fractions time ->
  scored techs workload costLimit' optimizeThroughput config cost fractions time.
Proof.
  intros Hle ((Hvalid & Hcost & Hlimit) & Hsim & Htime).
  split; [|done]. split; [done|]. split; [done|].
  apply orb_true_iff in Hle as [Hlt|Heq]; [by eapply flt_trans|by eapply flt_feq].
Qed.

(** A search that accepts nothing under a limit accepts nothing under a
    smaller one. *)
Lemma untouched_smaller_budget (costLimit costLimit' : F) (r r' : Search) :
  fle costLimit costLimit' = true ->
  findBestConfig techs workload costLimit optimizeThroughput = Some r ->
  findBestConfig techs workload costLimit' optimizeThroughput = Some r' ->
  untouched techs r' -> untouched techs r.
Proof.
  intros Hle Hrun Hrun' (Hc' & Ht' & _).
  pose proof (findBestConfig_below_sentinel _ _ Hrun) as (_ & _ & Hr).
  pose proof (findBestConfig_ranked _ _ _ _ _ Hrun) as (_ & _ & Hsel).
  pose proof (findBestConfig_ranked _ _ _ _ _ Hrun') as (_ & Hmin' & _).
  destruct Hsel as [Hun|[i (Hi & Hscored & _)]]; [done|].
  apply (scored_raise _ _ _ _ _ _ Hle) in Hscored.
  destruct (Hmin' _ _ _ _ ltac:(by eapply list_elem_of_lookup_2) Hscored) as [Hnb Htie].
  rewrite Ht' in Hnb, Htie. rewrite Hc' in Htie.
  destruct Hr as [?|[Hlt|[Heq Hlt]]]; [done|congruence|].
  specialize (Htie Heq). congruence.
Qed.

(** X11. A larger budget never gives a worse result: if [costLimit] is at
    most [costLimit'] and both searches run to completion, the best time
    found under [costLimit] is not strictly below the one found under
    [costLimit'], and if the search under [costLimit'] accepted no
    configuration then neither did the search under [costLimit]. *)
Theorem findBestConfig_budget_monotone (costLimit costLimit' : F) (r r' : Search) :
  fle costLimit costLimit' = true ->
  findBestConfig techs workload costLimit optimizeThroughput = Some r ->
  findBestConfig techs workload costLimit' optimizeThroughput = Some r' ->
  flt (bestTime r) (bestTime r') = false /\ (untouched techs r' -> untouched techs r).
Proof.
  intros Hle Hrun Hrun'. split; [|by eapply untouched_smaller_budget].
  pose proof (findBestConfig_ranked _ _ _ _ _ Hrun) as (_ & _ & Hsel).
  pose proof (findBestConfig_ranked _ _ _ _ _ Hrun') as (_ & Hmin' & _).
  pose proof (findBestConfig_below_sentinel _ _ Hrun') as (_ & Hmax' & _).
  destruct Hsel as [(_ & -> & _)|[i (Hi & Hscored & _)]]; [done|].
  apply (scored_raise _ _ _ _ _ _ Hle) in Hscored.
  by destruct (Hmin' _ _ _ _ ltac:(by eapply list_elem_of_lookup_2) Hscored) as [Hnb _].
Qed.

(** X12. Ties are broken lexicographically: a configuration of the search
    space that is valid, under the cost limit, and has the time and the
    cost of the returned best configuration is that configuration or
    comes after it in the lexicographic order of the count vectors. *)
Theorem findBestConfig_tie_lexicographic (costLimit : F) (r : Search) (c : Config) (cost : F)
    (fractions : list F) (time : F) :
  findBestConfig techs workload costLimit optimizeThroughput = Some r ->
  c ∈ search_space techs ->
  scored techs workload costLimit optimizeThroughput c cost fractions time ->
  feq time (bestTime r) = true -> feq cost (bestCost r) = true ->
  c = bestConfig r \/ lex_lt (bestConfig r) c.
Proof.
  intros Hrun Hc Hscored Ht Hcost.
  pose proof (findBestConfig_ranked _ _ _ _ _ Hrun) as (_ & _ & Hsel).
  destruct Hsel as [(_ & _ & Hcfg & _)|[i (Hi & _ & Hfirst)]].
  - right. rewrite Hcfg.
    destruct Hscored as ((Hvalid & _) & _).
    apply search_space_in_range in Hc as [Hlen _].
    unfold isValid in Hvalid.
    destruct c as [|c0 c]; [done|]. simpl in Hvalid.
    destruct (c0 =? 0)%N eqn:Hz; [done|]. apply N.eqb_neq in Hz.
    unfold zero_config. rewrite <- Hlen. simpl. left. lia.
  - apply list_elem_of_lookup_1 in Hc as [j Hj].
    destruct (Nat.lt_trichotomy j i) as [Hlt|[->|Hgt]].
    + by destruct (Hfirst j c cost fractions time Hlt Hj Hscored).
    + left. congruence.
    + right. by eapply (ascending_assignments techs i j).
Qed.

End Budgets.

(** ** A budget with slack *)

#[export] Instance binary32_total : TotalLaws spec_float.
Proof.
  split; simpl.
  - intros a b. SFcompare_cases.
  - intros a b. SFcompare_cases.
  - intros a b. SFcompare_cases.
  - intros a b. SFcompare_cases.
Qed.

Section Slack.
Context {F : Type} `{OrderLaws F} `{!TotalLaws F}.
Variable techs : list (Tech F).
Variable workload : Workload F.
Variable optimizeThroughput : bool.

(** The all-zero configuration is never accepted by [isValid]. *)
Lemma zero_config_invalid : isValid techs (zero_config techs) workload <> Some true.
Proof.
  unfold isValid, zero_config. destruct (length techs); simpl; done.
Qed.

(** X20. A budget with slack: if the best configuration found under the
    limit [costLimit'] costs strictly less than a smaller limit
    [costLimit], the search under [costLimit] returns the same best
    configuration, with the same time, cost and access fractions. *)
Theorem findBestConfig_budget_slack (costLimit costLimit' : F) (r r' : Search) :
  fle costLimit costLimit' = true ->
  findBestConfig techs workload costLimit optimizeThroughput = Some r ->
  findBestConfig techs workload costLimit' optimizeThroughput = Some r' ->
  flt (bestCost r') costLimit = true ->
  bestConfig r = bestConfig r' /\ bestTime r = bestTime r' /\
  bestCost r = bestCost r' /\ bestAccessFractions r = bestAccessFractions r'.
Proof.
  intros Hle Hrun Hrun' Hfits.
  pose proof (findBestConfig_ranked _ _ _ _ _ Hrun) as (_ & Hmin & Hsel).
  pose proof (findBestConfig_ranked _ _ _ _ _ Hrun') as (_ & Hmin' & Hsel').
  pose proof (findBestConfig_below_sentinel _ _ _ _ _ Hrun) as (_ & _ & Hr).
  pose proof (findBestConfig_below_sentinel _ _ _ _ _ Hrun') as (_ & _ & Hr').
  destruct Hsel' as [Hun'|[i' (Hi' & Hscored' & Hfirst')]].
  { pose proof (untouched_smaller_budget _ _ _ _ _ _ _ Hle Hrun Hrun' Hun') as Hun.
    destruct Hun as (-> & -> & -> & ->), Hun' as (-> & -> & -> & ->). done. }
  assert (~ untouched techs r') as Hsel'.
  { intros (_ & _ & Hz & _). destruct Hscored' as ((Hvalid & _) & _).
    rewrite Hz in Hvalid. by apply zero_config_invalid in Hvalid. }
  assert (scored techs workload costLimit optimizeThroughput
            (bestConfig r') (bestCost r') (bestAccessFractions r') (bestTime r')) as Hlow.
  { destruct Hscored' as ((? & ? & ?) & ? & ?). repeat split; done. }
  destruct (Hmin _ _ _ _ (list_elem_of_lookup_2 _ _ _ Hi') Hlow) as [Hnb Htie].
  destruct Hr' as [?|Hr']; [done|].
  destruct Hsel as [Hun|[i (Hi & Hscored & Hfirst)]].
  { exfalso. destruct Hun as (Hc & Ht & _). rewrite Ht in Hnb, Htie. rewrite Hc in Htie.
    destruct Hr' as [Hlt|[Heq Hlt]]; [congruence|]. specialize (Htie Heq). congruence. }
  assert (~ untouched techs r) as Hnun.
  { intros (_ & _ & Hz & _). destruct Hscored as ((Hvalid & _) & _).
    rewrite Hz in Hvalid. by apply zero_config_invalid in Hvalid. }
  destruct Hr as [?|Hr]; [done|].
  pose proof (scored_raise _ _ _ _ _ _ _ _ _ Hle Hscored) as Hhigh.
  destruct (Hmin' _ _ _ _ (list_elem_of_lookup_2 _ _ _ Hi) Hhigh) as [Hnb' Htie'].
  assert (feq (bestTime r) (bestTime r) = true) as Htn.
  { destruct Hr as [Hlt|[Heq _]]; [by apply flt_number in Hlt as [? _]|].
    by apply feq_number in Heq as [? _]. }
  assert (feq (bestTime r') (bestTime r') = true) as Htn'.
  { destruct Hr' as [Hlt|[Heq _]]; [by apply flt_number in Hlt as [? _]|].
    by apply feq_number in Heq as [? _]. }
  assert (feq (bestCost r) (bestCost r) = true) as Hcn.
  { destruct Hscored as ((_ & _ & Hl) & _). by apply flt_number in Hl as [? _]. }
  assert (feq (bestCost r') (bestCost r') = true) as Hcn'.
  { by apply flt_number in Hfits as [? _]. }
  pose proof (trichotomy _ _ Htn Htn' Hnb' Hnb) as Hteq.
  pose proof (trichotomy _ _ Hcn Hcn' (Htie' Hteq) (Htie (feq_sym _ _ Hteq))) as Hceq.
  assert (i = i') as ->.
  { destruct (Nat.lt_trichotomy i i') as [Hlt|[->|Hgt]]; [|done|].
    - destruct (Hfirst' _ _ _ _ _ Hlt Hi Hhigh). by split.
    - destruct (Hfirst _ _ _ _ _ Hgt Hi' Hlow). split; by apply feq_sym. }
  assert (bestConfig r = bestConfig r') as Hcfg by congruence.
  split; [done|]. rewrite Hcfg in Hhigh.
  destruct (scored_functional _ _ _ _ _ _ _ _ _ _ _ Hhigh Hscored') as (? & ? & ?).
  done.
Qed.

End Slack.

(** ** Catalogs that leave nothing to search *)

Section Degenerate.
Context {F : Type} `{FloatOps F}.

Lemma findBestConfig_no_count (techs : list (Tech F)) (workload : Workload F)
    (costLimit : F) (optimizeThroughput : bool) :
  (exists t, t ∈ techs /\ max t = 0%N) ->
  findBestConfig techs workload costLimit optimizeThroughput = Some (initial techs).
Proof.
  intros Hmax. rewrite findBestConfig_search_space. unfold search_space.
  by rewrite assignments_no_count.
Qed.

End Degenerate.

(** ** Costs in binary32 *)

Section Costs.
Local Open Scope Q_scope.

Lemma le32_flt (a b : spec_float) : le32 a b -> flt b a = false.
Proof.
  intros [Ha [->|(Hfa & Hfb & Hle)]].
  - destruct Ha as [Ha| ->]; [|done]. by destruct a as [s| | |[] m e].
  - by apply SFltb_false_value.
Qed.

Lemma le32_nonneg (a b : spec_float) : le32 a b -> nonneg a /\ nonneg b.
Proof.
  intros [Ha [->|(_ & Hfb & _)]]; (split; [done|]); [by right|by left].
Qed.

Lemma rounds_to_le32 (x x' : Q) (r r' : spec_float) :
  rounds_to x r -> rounds_to x' r' -> x <= x' -> le32 r r'.
Proof.
  intros Hr Hr' Hxx. split; [by eapply rounds_to_nonneg|]. by eapply rounds_to_mono.
Qed.

Lemma of_unsigned_value (c : N) :
  rounds_to (inject_Z (Z.of_N c)) (of_unsigned c).
Proof.
  unfold of_unsigned. simpl.
  pose proof (binary_normalize_correct (Z.of_N c) 0 ltac:(lia) ltac:(lia)) as Hr.
  apply rounds_within_to in Hr. eapply rounds_to_eq; [|exact Hr].
  unfold F2Q. change (2 ^ 0) with 1. ring.
Qed.

Lemma of_unsigned_mono (c c' : N) :
  (c <= c')%N -> (c' < 2 ^ 32)%N ->
  finite_nonneg (of_unsigned c) /\ finite_nonneg (of_unsigned c') /\
  SF2Q (of_unsigned c) <= SF2Q (of_unsigned c').
Proof.
  intros Hcc Hc'.
  pose proof (of_unsigned_finite c' Hc') as Hfin'.
  destruct (rounds_to_mono _ _ _ _ (of_unsigned_value c) (of_unsigned_value c')) as [Hinf|Hle].
  - rewrite <- Zle_Qle. lia.
  - rewrite Hinf in Hfin'. done.
  - done.
Qed.

Lemma fmul_mono (a a' c : spec_float) :
  finite_nonneg a -> finite_nonneg a' -> finite_nonneg c -> SF2Q a <= SF2Q a' ->
  le32 (fmul a c) (fmul a' c).
Proof.
  intros Ha Ha' Hc Hle. pose proof (finite_nonneg_value c Hc).
  eapply rounds_to_le32; [by apply SFmul_correct..|].
  by apply Qmult_le_compat_r.
Qed.

Lemma fadd_mono (a a' b b' : spec_float) :
  le32 a a' -> le32 b b' -> le32 (fadd a b) (fadd a' b').
Proof.
  intros Haa Hbb.
  destruct (le32_nonneg _ _ Haa) as [Ha Ha']. destruct (le32_nonneg _ _ Hbb) as [Hb Hb'].
  assert (nonneg (fadd a b)) as Hab.
  { destruct Hb as [Hb| ->]; [by apply fadd_nonneg|].
    right. destruct Ha as [Ha| ->]; [|done]. by destruct a as [s| | |[] m e]. }
  split; [done|].
  destruct Haa as [_ [->|(Hfa & Hfa' & Hlea)]].
  { left. destruct Hb' as [Hb'| ->]; [|done]. by destruct b' as [s| | |[] m e]. }
  destruct Hbb as [_ [->|(Hfb & Hfb' & Hleb)]].
  { left. by destruct a' as [s| | |[] m e]. }
  eapply rounds_to_mono.
  - apply rounds_within_to. by apply SFadd_correct.
  - apply rounds_within_to. by apply SFadd_correct.
  - lra.
Qed.

Variable techs : list (Tech spec_float).
Hypothesis Hcosts : Forall (fun tc => finite_nonneg (cost tc)) techs.

(** The cost loop from any tier list: a larger start and larger counts
    give a larger sum. *)
Lemma configCost_loop_monotone (config config' : Config) (ts : list nat)
    (acc acc' c c' : spec_float) :
  Forall2 N.le config config' ->
  Forall (fun n => (n < 2 ^ 32)%N) config' ->
  le32 acc acc' ->
  foldM (fun acc i => n ← config !! i; tech ← techs !! i;
                      Some (fadd acc (fmul (of_unsigned n) (cost tech)))) ts acc = Some c ->
  foldM (fun acc i => n ← config' !! i; tech ← techs !! i;
                      Some (fadd acc (fmul (of_unsigned n) (cost tech)))) ts acc' = Some c' ->
  le32 c c'.
Proof.
  intros Hle Hrange. revert acc acc'.
  induction ts as [|i ts IH]; intros acc acc' Hacc Hrun Hrun'; simpl in *.
  - by simplify_eq.
  - destruct (config !! i) as [n|] eqn:Hn; simpl in Hrun; [|done].
    destruct (config' !! i) as [n'|] eqn:Hn'; simpl in Hrun'; [|done].
    destruct (techs !! i) as [tc|] eqn:Htc; simpl in Hrun, Hrun'; [|done].
    eapply IH; [|exact Hrun|exact Hrun'].
    pose proof (Forall2_lookup_lr _ _ _ _ _ _ Hle Hn Hn') as Hnn.
    pose proof (Forall_lookup_1 _ _ _ _ Hcosts Htc) as Hc. simpl in Hc.
    pose proof (Forall_lookup_1 _ _ _ _ Hrange Hn') as Hn32. simpl in Hn32.
    destruct (of_unsigned_mono n n' Hnn Hn32) as (Hf & Hf' & Hv).
    apply fadd_mono; [done|]. by apply fmul_mono.
Qed.

End Costs.

(** X14. In binary32, with a catalog of finite non-negative costs and
    device counts in the range of [unsigned]: [configCost] is monotone in the
    device counts, roundings included.  A configuration with an entry per
    tier has a cost, and so has every configuration with at least as many
    devices in every tier; neither cost is negative or NaN, and the second
    is not below the first. *)
Theorem configCost_monotone (techs : list (Tech spec_float)) (config config' : Config) :
  Forall (fun tc => finite_nonneg (cost tc)) techs ->
  Forall (fun n => (n < 2 ^ 32)%N) config' ->
  length techs <= length config ->
  Forall2 N.le config config' ->
  exists c c',
    configCost techs config = Some c /\ configCost techs config' = Some c' /\
    fle (of_Z 0) c = true /\ fle (of_Z 0) c' = true /\ flt c' c = false.
Proof.
  intros Hcosts Hrange Hlen Hle.
  destruct (configCost_total techs config Hlen) as [c Hc].
  destruct (configCost_total techs config') as [c' Hc'].
  { apply Forall2_length in Hle. lia. }
  exists c, c'. split; [done|]. split; [done|].
  assert (le32 c c') as Hcc.
  { eapply (configCost_loop_monotone techs Hcosts config config'); [done|done| |exact Hc|exact Hc'].
    split; [by left|]. right. split; [done|]. split; [done|]. apply Qle_refl. }
  destruct (le32_nonneg _ _ Hcc) as [Hn Hn'].
  split; [by apply nonneg_fle|]. split; [by apply nonneg_fle|]. by apply le32_flt.
Qed.

(** ** Tiers without devices, in binary32 *)

Section Unused.
Variable techs : list (Tech spec_float).
Variable config : Config.
Hypothesis Hcaps : Forall (fun tc => finite_nonneg (capacity tc)) techs.
Hypothesis Hcounts : Forall (fun c => (c < 2 ^ 32)%N) config.

Lemma positive_above_zero (x size : spec_float) :
  is_zero x -> flt (of_Z 0) size = true -> flt x size = true.
Proof. intros [s ->] Hpos. by destruct size as [s'|[]| |[] m e]. Qed.

Lemma zero_share (x size frac : spec_float) :
  is_zero x -> finite_nonneg size -> flt (of_Z 0) size = true -> finite_nonneg frac ->
  is_zero (fmul (fdiv x size) frac).
Proof.
  intros [s ->] Hsize Hpos Hfrac.
  destruct size as [s'| | |[] m e]; try done.
  destruct frac as [s''| | |[] m' e']; try done; by eexists.
Qed.

Lemma fadd_zero (x y : spec_float) : is_zero x -> is_zero y -> is_zero (fadd x y).
Proof. intros [s ->] [s' ->]. destruct s, s'; by eexists. Qed.

Lemma no_devices (tc : Tech spec_float) :
  finite_nonneg (capacity tc) -> is_zero (fmul (of_unsigned 0) (capacity tc)).
Proof. intros Hc. destruct (capacity tc) as [s| | |[] m e]; try done; by eexists. Qed.

Lemma turn_unused (g : AccessGroup spec_float) (st : SimState) (t : Turn) :
  finite_nonneg (fraction g) -> finite_nonneg (size g) -> flt (of_Z 0) (size g) = true ->
  unused_state config st ->
  turn techs config g st = Some t ->
  match t with
  | Advance g' st' => unused_state config st'
  | Break st' => unused_state config st'
  end.
Proof.
  intros Hfr Hsz Hpos [Hout Hcap]. unfold turn, fgt.
  destruct (flt (techCapacity st) (size g)) eqn:Hcmp.
  - destruct (fractionsOut st !! tech st) as [out_t|] eqn:Hout_t; simpl; [|done].
    destruct (config !! S (tech st)) as [c|] eqn:Hc; simpl; [|done].
    destruct (techs !! S (tech st)) as [tc|] eqn:Htc; simpl; [|done].
    intros ?; simplify_eq. split; simpl.
    + intros u x Hu Hx. destruct (decide (u = tech st)) as [->|Hne].
      * rewrite list_lookup_insert_eq in Hx by (by eapply lookup_lt_Some). simplify_eq.
        apply fadd_zero; [by eapply Hout|]. apply zero_share; [by apply Hcap|done..].
      * rewrite list_lookup_insert_ne in Hx by done. by eapply Hout.
    + intros Hz. rewrite Hc in Hz. simplify_eq. apply no_devices.
      by apply (Forall_lookup_1 _ _ _ _ Hcaps Htc).
  - destruct (fractionsOut st !! tech st) as [out_t|] eqn:Hout_t; simpl; [|done].
    intros ?; simplify_eq.
    assert (config !! tech st <> Some 0%N) as Hpop.
    { intros Hz. specialize (Hcap Hz).
      pose proof (positive_above_zero _ _ Hcap Hpos) as Hlt. congruence. }
    split; simpl; [|done].
    intros u x Hu Hx. destruct (decide (u = tech st)) as [->|Hne]; [done|].
    rewrite list_lookup_insert_ne in Hx by done. by eapply Hout.
Qed.

Lemma place_group_unused (fuel : nat) (g : AccessGroup spec_float) (st st' : SimState) :
  finite_nonneg (fraction g) -> finite_nonneg (size g) -> flt (of_Z 0) (size g) = true ->
  nonneg_state st -> unused_state config st ->
  place_group techs fuel config g st = Some st' ->
  nonneg_state st' /\ unused_state config st'.
Proof.
  revert g st. induction fuel as [|fuel IH]; intros g st Hfr Hsz Hpos Hnn Hst; simpl;
    destruct (turn techs config g st) as [[g1 st1|st1]|] eqn:Hturn; simpl; try done;
    pose proof (turn_nonneg techs config Hcaps Hcounts _ _ _ Hnn Hfr Hsz Hturn) as Hnn1;
    apply (turn_unused _ _ _ Hfr Hsz Hpos Hst) in Hturn.
  - intros ?; by simplify_eq.
  - destruct Hnn1 as (Hnn1 & Hfr1 & Hsz1). apply IH; try done; by rewrite Hsz1.
  - intros ?; by simplify_eq.
Qed.

End Unused.

(** X15. In binary32, with a catalog of finite non-negative capacities,
    device counts in the range of [unsigned] and a workload whose groups
    have a finite fraction >= 0 and a finite size > 0: a tier without
    devices is credited no accesses.  Every entry of the output of
    [computeAccessFractions] at a tier whose count is 0 is zero. *)
Theorem unpopulated_tier_unused (techs : list (Tech spec_float))
    (workload : Workload spec_float) (config : Config) (buffer out : list spec_float) :
  Forall (fun tc => finite_nonneg (capacity tc)) techs ->
  Forall (fun c => (c < 2 ^ 32)%N) config ->
  Forall (fun g => finite_nonneg (fraction g) /\ finite_nonneg (size g) /\
                   flt (of_Z 0) (size g) = true) workload ->
  computeAccessFractions techs workload config buffer = Some out ->
  forall t x, config !! t = Some 0%N -> out !! t = Some x -> feq x (of_Z 0) = true.
Proof.
  unfold computeAccessFractions. intros Hcaps Hcounts Hw Hrun.
  destruct (sim_start techs config buffer) as [st0|] eqn:Hstart; simpl in Hrun; [|done].
  destruct (foldM _ workload st0) as [st|] eqn:Hfold; simpl in Hrun; [|done]. simplify_eq.
  pose proof (sim_start_nonneg techs config Hcaps Hcounts _ _ Hstart) as Hnn0.
  assert (unused_state config st0) as Hst0.
  { unfold sim_start in Hstart.
    destruct (config !! 0%nat) as [c|] eqn:Hc; simpl in Hstart; [|done].
    destruct (techs !! 0%nat) as [tc|] eqn:Htc; simpl in Hstart; [|done].
    simplify_eq. split; simpl.
    - intros u y _ Hy. rewrite list_lookup_fmap in Hy.
      destruct (buffer !! u); simpl in Hy; simplify_eq. by eexists.
    - intros Hz. rewrite Hc in Hz. simplify_eq. apply no_devices.
      by apply (Forall_lookup_1 _ _ _ _ Hcaps Htc). }
  assert (nonneg_state st /\ unused_state config st) as [_ [Hout _]].
  { clear Hstart. revert st0 Hnn0 Hst0 Hfold.
    induction Hw as [|g w (Hfr & Hsz & Hpos) Hw IH]; intros st0 Hnn0 Hst0 Hfold; simpl in Hfold.
    - by simplify_eq.
    - destruct (place_group _ _ _ _ _) as [st1|] eqn:Hpg; simpl in Hfold; [|done].
      destruct (place_group_unused techs config Hcaps Hcounts _ _ _ _ Hfr Hsz Hpos Hnn0 Hst0 Hpg).
      by eapply IH. }
  intros t x Ht Hx. destruct (Hout t x Ht Hx) as [s ->]. done.
Qed.

(** ** The unit a capacity is printed in, in binary32 *)

Section Units.
Local Open Scope Q_scope.

Lemma SFeqb_value (a b : spec_float) :
  finite_nonneg a -> finite_nonneg b -> (SFeqb a b = true <-> SF2Q a == SF2Q b).
Proof.
  destruct a as [sa| | |[] ma ea], b as [sb| | |[] mb eb]; simpl finite_nonneg; try done;
    intros Ha Hb; rewrite ?zero_value, ?finite_value.
  - pose proof (F2Q_pos mb eb). split; [done|lra].
  - pose proof (F2Q_pos ma ea). split; [done|lra].
  - unfold SFeqb, SFcompare. destruct (Z.compare_spec ea eb) as [->|Hlt|Hgt].
    + change (Pos.compare_cont Eq ma mb) with (ma ?= mb)%positive.
      destruct (Pos.compare_spec ma mb) as [->|Hm|Hm]; split; try done.
      * intros Hq. pose proof (F2Q_lt (Z.pos ma) (Z.pos mb) eb ltac:(lia)). lra.
      * intros Hq. pose proof (F2Q_lt (Z.pos mb) (Z.pos ma) eb ltac:(lia)). lra.
    + pose proof (bounded_exponent_lt ma mb ea eb Ha Hb Hlt). split; [done|lra].
    + pose proof (bounded_exponent_lt mb ma eb ea Hb Ha Hgt). split; [done|lra].
Qed.

Lemma fge_value (a b : spec_float) :
  finite_nonneg a -> finite_nonneg b -> (fge a b = true <-> SF2Q b <= SF2Q a).
Proof.
  intros Ha Hb. unfold fge. rewrite orb_true_iff.
  change (flt b a) with (SFltb b a). change (feq a b) with (SFeqb a b).
  rewrite SFltb_value, SFeqb_value by done. split.
  - intros [Hlt|Heq]; lra.
  - intros Hle. destruct (Qlt_le_dec (SF2Q b) (SF2Q a)) as [Hlt|Hge]; [by left|right; lra].
Qed.

Lemma fge_false_value (a b : spec_float) :
  finite_nonneg a -> finite_nonneg b -> (fge a b = false <-> SF2Q a < SF2Q b).
Proof.
  intros Ha Hb. pose proof (fge_value a b Ha Hb) as Hiff.
  destruct (fge a b); split; try done.
  - intros Hlt. assert (SF2Q b <= SF2Q a) by (by apply Hiff). lra.
  - intros _. destruct (Qlt_le_dec (SF2Q a) (SF2Q b)) as [|Hle]; [done|].
    apply Hiff in Hle. done.
Qed.

(** The units of the program are powers of two. *)
Lemma MB_value : @MB spec_float _ = S754_finite false 8388608 (-3).
Proof. reflexivity. Qed.

Lemma GB_value : @GB spec_float _ = S754_finite false 8388608 7.
Proof. reflexivity. Qed.

Lemma TB_value : @TB spec_float _ = S754_finite false 8388608 17.
Proof. reflexivity. Qed.

(** Dividing a number by a power of two not above it is exact. *)
Lemma fdiv_pow2 (cap : spec_float) (k : Z) :
  finite_nonneg cap -> (0 <= k <= 40)%Z -> 2 ^ k <= SF2Q cap ->
  finite_nonneg (fdiv cap (S754_finite false 8388608 (k - 23))) /\
  SF2Q (fdiv cap (S754_finite false 8388608 (k - 23))) * 2 ^ k == SF2Q cap.
Proof.
  intros Hcap Hk Hle.
  assert (finite_nonneg (S754_finite false 8388608 (k - 23))) as Hunit.
  { unfold finite_nonneg, bounded, canonical_mantissa. rewrite fexp32.
    change (Z.pos (digits2_pos 8388608)) with 24%Z. change (emax32 - prec32)%Z with 104%Z.
    apply andb_true_intro. split; [apply Z.eqb_eq; lia|apply Z.leb_le; lia]. }
  assert (SF2Q (S754_finite false 8388608 (k - 23)) == 2 ^ k) as Hval.
  { rewrite finite_value. change 8388608%Z with (2 ^ 23)%Z. rewrite F2Q_pow2 by lia.
    by replace (k - 23 + 23)%Z with k by lia. }
  pose proof (pow2_pos k) as HP.
  pose proof (SFdiv_correct cap _ Hcap Hunit ltac:(lra)) as Hr.
  destruct cap as [s| | |[] m e]; try done; try (exfalso; unfold SF2Q in Hle; lra).
  rewrite finite_value in Hle. simpl in Hcap.
  pose proof (bounded_inv _ _ Hcap) as (He & Hd & Hd' & Hm).
  assert (k - 24 < e)%Z as Hke.
  { destruct (Z_lt_le_dec (k - 24) e) as [|Hge]; [done|].
    assert (F2Q (Z.pos m) e < F2Q (2 ^ 24) e) as H1 by (by apply F2Q_lt).
    rewrite F2Q_pow2 in H1 by lia.
    assert (2 ^ (e + 24) <= 2 ^ k) by (apply pow2_le; lia). lra. }
  assert (SF2Q (S754_finite false m e) / SF2Q (S754_finite false 8388608 (k - 23)) ==
          F2Q (Z.pos m) (e - k)) as Hq.
  { rewrite Hval, finite_value. unfold F2Q.
    replace e with (e - k + k)%Z at 1 by lia. rewrite pow2_add. field. lra. }
  assert (representable (F2Q (Z.pos m) (e - k))) as Hrep.
  { right. exists m, (e - k)%Z. split; [|reflexivity].
    unfold bounded, canonical_mantissa. rewrite fexp32. change (emax32 - prec32)%Z with 104%Z.
    rewrite Hd' by lia.
    apply andb_true_intro. split; [apply Z.eqb_eq; lia|apply Z.leb_le; lia]. }
  apply (rounds_to_eq _ _ _ Hq) in Hr.
  destruct (rounds_to_exact _ _ Hr Hrep) as [Hfin Hx].
  split; [done|].
  change (SFdiv prec32 emax32) with (@fdiv spec_float _) in Hx. rewrite Hx, finite_value.
  unfold F2Q. replace e with (e - k + k)%Z at 2 by lia. rewrite pow2_add. ring.
Qed.

End Units.

(** X16. In binary32, [printCapacity] prints a finite non-negative
    capacity as one number, scaled by the largest of TB, GB and MB (2^40,
    2^30 and 2^20 bytes) that does not exceed it, followed by that unit.
    The scaling is exact; the number is at least 1, and below 1024 for GB
    and MB; a capacity below one MB is printed as it is, without a unit. *)
Theorem printCapacity_unit (techs : list (Tech spec_float)) (config : Config) (t : nat)
    (cap : spec_float) :
  tierCapacity techs config t = Some cap -> finite_nonneg cap ->
  exists x k label,
    printCapacity techs config t = Some (Number x :: label) /\
    finite_nonneg x /\ (SF2Q x * 2 ^ k == SF2Q cap)%Q /\
    ((k = 40%Z /\ label = [Text " TB"] /\ (1 <= SF2Q x)%Q) \/
     (k = 30%Z /\ label = [Text " GB"] /\ (1 <= SF2Q x)%Q /\ (SF2Q x < 1024)%Q) \/
     (k = 20%Z /\ label = [Text " MB"] /\ (1 <= SF2Q x)%Q /\ (SF2Q x < 1024)%Q) \/
     (k = 0%Z /\ label = [] /\ (SF2Q x < 1048576)%Q)).
Proof.
  intros Hcap Hfin. unfold printCapacity. rewrite Hcap. cbn [mbind option_bind].
  pose proof TB_value as HTB. pose proof GB_value as HGB. pose proof MB_value as HMB.
  assert (forall k : Z, finite_nonneg (S754_finite false 8388608 k) ->
            (SF2Q (S754_finite false 8388608 k) == 2 ^ (k + 23))%Q) as Hval.
  { intros k _. rewrite finite_value. change 8388608%Z with (2 ^ 23)%Z. by rewrite F2Q_pow2 by lia. }
  assert (finite_nonneg (@TB spec_float _)) as HfT by (by rewrite HTB).
  assert (finite_nonneg (@GB spec_float _)) as HfG by (by rewrite HGB).
  assert (finite_nonneg (@MB spec_float _)) as HfM by (by rewrite HMB).
  pose proof (Hval 17%Z ltac:(done)) as HvT. pose proof (Hval 7%Z ltac:(done)) as HvG.
  pose proof (Hval (-3)%Z ltac:(done)) as HvM.
  rewrite <- HTB in HvT. rewrite <- HGB in HvG. rewrite <- HMB in HvM.
  change (2 ^ (17 + 23))%Q with 1099511627776%Q in HvT.
  change (2 ^ (7 + 23))%Q with 1073741824%Q in HvG.
  change (2 ^ (-3 + 23))%Q with 1048576%Q in HvM.
  destruct (fge cap TB) eqn:HT.
  { apply fge_value in HT; [|done..].
    destruct (fdiv_pow2 cap 40 Hfin ltac:(lia)) as [Hx Hxv].
    { change (2 ^ 40)%Q with 1099511627776%Q. lra. }
    change (S754_finite false 8388608 (40 - 23)) with (@TB spec_float _) in Hx, Hxv.
    exists (fdiv cap TB), 40%Z, [Text " TB"]. split; [done|]. split; [done|]. split; [done|].
    left. split; [done|]. split; [done|].
    change (2 ^ 40)%Q with 1099511627776%Q in Hxv. lra. }
  apply fge_false_value in HT; [|done..].
  destruct (fge cap GB) eqn:HG.
  { apply fge_value in HG; [|done..].
    destruct (fdiv_pow2 cap 30 Hfin ltac:(lia)) as [Hx Hxv].
    { change (2 ^ 30)%Q with 1073741824%Q. lra. }
    change (S754_finite false 8388608 (30 - 23)) with (@GB spec_float _) in Hx, Hxv.
    exists (fdiv cap GB), 30%Z, [Text " GB"]. split; [done|]. split; [done|]. split; [done|].
    right; left. split; [done|]. split; [done|].
    change (2 ^ 30)%Q with 1073741824%Q in Hxv. lra. }
  apply fge_false_value in HG; [|done..].
  destruct (fge cap MB) eqn:HM.
  { apply fge_value in HM; [|done..].
    destruct (fdiv_pow2 cap 20 Hfin ltac:(lia)) as [Hx Hxv].
    { change (2 ^ 20)%Q with 1048576%Q. lra. }
    change (S754_finite false 8388608 (20 - 23)) with (@MB spec_float _) in Hx, Hxv.
    exists (fdiv cap MB), 20%Z, [Text " MB"]. split; [done|]. split; [done|]. split; [done|].
    right; right; left. split; [done|]. split; [done|].
    change (2 ^ 20)%Q with 1048576%Q in Hxv. lra. }
  apply fge_false_value in HM; [|done..].
  exists cap, 0%Z, []. split; [done|]. split; [done|].
  split; [change (2 ^ 0)%Q with 1%Q; ring|].
  right; right; right. split; [done|]. split; [done|]. lra.
Qed.

(** ** Searches that run to completion *)

Section Completion.
Context {F : Type} `{FloatOps F}.
Variable techs : list (Tech F).
Variable workload : Workload F.

Lemma simulatesb_correct (configs : list Config) :
  forallb (simulatesb techs workload) configs = true ->
  forall c, c ∈ configs -> isValid techs c workload = Some true ->
            is_Some (simulate techs workload c).
Proof.
  rewrite forallb_forall. intros Hall c Hc Hvalid.
  specialize (Hall c ltac:(by apply list_elem_of_In)).
  unfold simulatesb in Hall. rewrite Hvalid in Hall.
  destruct (simulate techs workload c); [by eexists|done].
Qed.

(** One visit has a result when the simulator has one on this configuration. *)
Lemma visit_total (costLimit : F) (optimizeThroughput : bool) (config : Config) (s : Search) :
  techs <> [] -> length config = length techs ->
  length (accessFractions s) = length techs ->
  (isValid techs config workload = Some true -> is_Some (simulate techs workload config)) ->
  exists s', visit techs workload costLimit optimizeThroughput config s = Some s' /\
             length (accessFractions s') = length techs.
Proof.
  intros Hne Hlen Hbuf Hsim. unfold visit.
  destruct (isValid_correct techs config workload Hlen Hne) as (b & Hvalid & _).
  rewrite Hvalid. simpl. destruct b; [|by exists s].
  destruct (configCost_total techs config) as [cost Hcost]; [lia|].
  rewrite Hcost. simpl. destruct (flt cost costLimit); [|by exists s].
  destruct (Hsim Hvalid) as [fractions Hfr]. unfold simulate in Hfr.
  rewrite (computeAccessFractions_buffer techs workload config _ (replicate (length techs) (of_Z 0)))
    by (by rewrite length_replicate).
  rewrite Hfr. simpl.
  assert (length fractions = length techs) as Hfl.
  { apply computeAccessFractions_length in Hfr. by rewrite length_replicate in Hfr. }
  assert (exists time, (if optimizeThroughput then avgTimePerAccess techs fractions
                        else avgLatencyPerAccess techs fractions) = Some time) as [time ->].
  { destruct optimizeThroughput.
    - destruct (proj2 (average_defined techs (fun tech => fdiv (of_Z 1) (IOs tech)) fractions))
        as [time Ht]; [lia|]. by exists time.
    - destruct (proj2 (average_defined techs latency fractions)) as [time Ht]; [lia|].
      by exists time. }
  simpl. destruct (flt time (bestTime s) || _); eexists; (split; [done|]); done.
Qed.

Lemma search_completes (costLimit : F) (optimizeThroughput : bool) :
  techs <> [] ->
  (forall c, c ∈ search_space techs -> isValid techs c workload = Some true ->
             is_Some (simulate techs workload c)) ->
  is_Some (findBestConfig techs workload costLimit optimizeThroughput).
Proof.
  intros Hne Hsim. rewrite findBestConfig_search_space.
  destruct (foldM_total
              (fun s config => visit techs workload costLimit optimizeThroughput config s)
              (fun s => length (accessFractions s) = length techs)
              (search_space techs)) with (s := initial techs) as (r & Hr & _).
  - intros s c Hc Hbuf. apply visit_total; [done| |done|by apply Hsim].
    by apply search_space_in_range in Hc as [? _].
  - apply length_replicate.
  - by exists r.
Qed.

End Completion.

(** ** The best slots in single precision *)

Lemma SFltb_nan_l (x : spec_float) : SFltb S754_nan x = false.
Proof. by destruct x. Qed.

Lemma SFeqb_nan_l (x : spec_float) : SFeqb S754_nan x = false.
Proof. by destruct x. Qed.

(** X13. In single precision, the best time and the best cost that a
    completed search reports are never NaN, and the best time is never
    +infinity (it does not exceed the sentinel). *)
Theorem findBestConfig_reports_numbers (techs : list (Tech spec_float)) (workload : Workload spec_float)
    (costLimit : spec_float) (optimizeThroughput : bool) (r : Search) :
  findBestConfig techs workload costLimit optimizeThroughput = Some r ->
  bestTime r <> S754_nan /\ bestTime r <> S754_infinity false /\ bestCost r <> S754_nan.
Proof.
  intros Hrun.
  pose proof (findBestConfig_below_sentinel techs workload optimizeThroughput costLimit r Hrun)
    as (_ & Hmax & Hs).
  pose proof (findBestConfig_best_is_visited techs workload costLimit optimizeThroughput r Hrun)
    as [_ Hbest].
  split; [|split].
  - intros Hnan. rewrite Hnan in Hs. simpl in Hs.
    destruct Hs as [(_ & Ht & _)|[Hlt|[Heq _]]].
    + by rewrite Hnan in Ht.
    + by rewrite SFltb_nan_l in Hlt.
    + by rewrite SFeqb_nan_l in Heq.
  - intros Hinf. rewrite Hinf in Hmax. done.
  - intros Hnan. destruct Hbest as [(Hc & _)|[_ ((_ & _ & Hlimit) & _)]].
    + rewrite Hnan in Hc. done.
    + rewrite Hnan in Hlimit. simpl in Hlimit. by rewrite SFltb_nan_l in Hlimit.
Qed.

(** ** The whole function, and the loop of [main] *)

Section WholeRuns.
Context {F : Type} `{FloatOps F}.
Variable techs : list (Tech F).
Variable workload : Workload F.

Lemma printed_completes (costLimit : F) (optimizeThroughput : bool) :
  techs <> [] ->
  (forall c, c ∈ search_space techs -> isValid techs c workload = Some true ->
             is_Some (simulate techs workload c)) ->
  is_Some (findBestConfig_printed techs workload costLimit optimizeThroughput).
Proof.
  intros Hne Hsim.
  destruct (search_completes techs workload costLimit optimizeThroughput Hne Hsim) as [r Hrun].
  destruct (findBestConfig_sized techs _ _ _ _ Hrun) as [Hcfg Hfr].
  destruct (report_sized techs optimizeThroughput r) as [out Hout]; [lia|lia|].
  unfold findBestConfig_printed. rewrite Hrun. simpl. rewrite Hout. by eexists.
Qed.

Lemma main_loop_completes (budgets : list Z) :
  (forall budget, budget ∈ budgets ->
                  is_Some (findBestConfig_printed techs workload (of_Z budget) true)) ->
  is_Some (main_loop techs workload budgets).
Proof.
  intros Hall. unfold main_loop.
  match goal with
  | |- is_Some (foldM ?body ?xs ?s0) =>
      destruct (foldM_total body (fun _ => True) xs) with (s := s0) as (out & -> & _)
  end; [|done|by eexists].
  intros out budget Hb _. destruct (Hall budget Hb) as [tp ->]. simpl. eauto.
Qed.

End WholeRuns.

(** ** A smaller working set *)

Section Shrinking.
Context {F : Type} `{OrderLaws F}.
Variable techs : list (Tech F).

(** X17. A configuration that is valid for a workload is valid for every
    workload whose sum of sizes is not larger: [isValid] depends on the
    workload only through [sumSpaceNeeded], which must be a number for the
    comparison to carry over. *)
Theorem isValid_smaller_working_set (config : Config) (workload workload' : Workload F) :
  isValid techs config workload = Some true ->
  feq (sumSpaceNeeded workload) (sumSpaceNeeded workload) = true ->
  flt (sumSpaceNeeded workload) (sumSpaceNeeded workload') = false ->
  isValid techs config workload' = Some true.
Proof.
  unfold isValid. intros Hvalid Hnum Hle.
  destruct (config !! 0) as [c0|]; simpl in *; [|done].
  destruct (c0 =? 0)%N; [done|].
  destruct (collect_indexes config _ _) as [indexes|]; simpl in *; [|done].
  destruct (inclusive_loop techs config indexes _) as [[|]|]; simpl in *; try done.
  destruct (last indexes) as [back|]; simpl in *; [|done].
  destruct (tierCapacity techs config back) as [cback|]; simpl in *; [|done].
  destruct (flt cback (sumSpaceNeeded workload)) eqn:Hfit; [done|].
  by rewrite (nlt_trans _ _ _ Hnum Hle Hfit).
Qed.

End Shrinking.

(** ** Further results *)

Section FurtherResults.
Context {F : Type} `{FloatOps F}.
Variable techs : list (Tech F).

(** X3. [avgTimePerAccess] and [avgLatencyPerAccess] loop over
    [accessFractions] and read [techs[i]]: each returns a value exactly
    when the vector is no longer than the catalog. *)
Theorem averages_read_catalog (accessFractions : list F) :
  (is_Some (avgTimePerAccess techs accessFractions) <->
   length accessFractions <= length techs) /\
  (is_Some (avgLatencyPerAccess techs accessFractions) <->
   length accessFractions <= length techs).
Proof.
  split.
  - apply (average_defined techs (fun tech => fdiv (of_Z 1) (IOs tech))).
  - apply (average_defined techs latency).
Qed.

(** X4. A call of [computeAccessFractions] that returns leaves the output
    vector with the length it had, and it can only return when [config]
    and the catalog are not empty (it reads [config[0]] and [techs[0]] even
    for an empty workload) and, for a non-empty workload, when the output
    vector is not empty.  For an empty workload on a non-empty [config] and
    catalog it returns the vector filled with zeros.  Entries of [config]
    past [techs.size()] are never read. *)
Theorem computeAccessFractions_buffer_shape (workload : Workload F) (config : Config)
    (buffer : list F) :
  (forall out, computeAccessFractions techs workload config buffer = Some out ->
     length out = length buffer /\ config <> [] /\ techs <> [] /\
     (workload <> [] -> buffer <> [])) /\
  (config <> [] -> techs <> [] ->
   computeAccessFractions techs [] config buffer = Some (replicate (length buffer) (of_Z 0))) /\
  computeAccessFractions techs workload (take (length techs) config) buffer =
  computeAccessFractions techs workload config buffer.
Proof.
  split; [|split].
  - intros out Hrun. split; [by eapply computeAccessFractions_length|].
    by eapply computeAccessFractions_nonempty.
  - apply computeAccessFractions_empty.
  - apply computeAccessFractions_take.
Qed.

(** X10. After an enumeration that ran to completion, [bestConfig] and
    [bestAccessFractions] have one entry per tier, so the lines that
    [findBestConfig] prints (which index both vectors, and [techs], by
    tier) are printed without a read out of bounds, and the function
    returns [bestConfig]. *)
Theorem findBestConfig_prints_in_bounds
    (workload : Workload F) (costLimit : F) (optimizeThroughput : bool) (r : Search) :
  findBestConfig techs workload costLimit optimizeThroughput = Some r ->
  length (bestConfig r) = length techs /\
  length (bestAccessFractions r) = length techs /\
  exists out,
    report techs optimizeThroughput r = Some out /\
    findBestConfig_printed techs workload costLimit optimizeThroughput = Some (out, bestConfig r).
Proof.
  intros Hrun. destruct (findBestConfig_sized techs _ _ _ _ Hrun) as [Hcfg Hfr].
  split; [done|]. split; [done|].
  destruct (report_sized techs optimizeThroughput r) as [out Hout]; [lia|lia|].
  exists out. split; [done|]. unfold findBestConfig_printed. rewrite Hrun. simpl.
  by rewrite Hout.
Qed.

(** X9. The only undefined behaviour [findBestConfig] can reach lies in
    the simulator: on a non-empty catalog, if [computeAccessFractions]
    returns on every configuration of the search space that [isValid]
    accepts, then for every cost limit and either metric the enumeration
    and the printing after it run to completion. *)
Theorem findBestConfig_fails_only_in_simulator (workload : Workload F) :
  techs <> [] ->
  (forall c, c ∈ search_space techs -> isValid techs c workload = Some true ->
             is_Some (simulate techs workload c)) ->
  forall costLimit optimizeThroughput,
    is_Some (findBestConfig_printed techs workload costLimit optimizeThroughput).
Proof.
  intros Hne Hsim costLimit optimizeThroughput. by apply printed_completes.
Qed.

End FurtherResults.

(** A loop without a result stopped at its first failing iteration. *)
Lemma foldM_None_prefix {A S : Type} (body : S -> A -> option S) (xs : list A) (s : S) :
  foldM body xs s = None ->
  exists before x after s',
    xs = before ++ x :: after /\ foldM body before s = Some s' /\ body s' x = None.
Proof.
  revert s. induction xs as [|x xs IH]; intros s Hrun; simpl in Hrun; [done|].
  destruct (body s x) as [s1|] eqn:Hb; simpl in Hrun.
  - destruct (IH s1 Hrun) as (before & y & after & s' & -> & Hbefore & Hy).
    exists (x :: before), y, after, s'. split; [done|]. split; [|done].
    simpl. by rewrite Hb.
  - exists [], x, xs, s. done.
Qed.

Section EnumerationResults.
Context {F : Type} `{FloatOps F}.
Variable techs : list (Tech F).
Variable workload : Workload F.
Variable costLimit : F.
Variable optimizeThroughput : bool.

(** X5. [findBestConfig] evaluates (passes to [isValid]) the vectors of
    [search_space], in order, up to the first one on which an evaluation has
    undefined behaviour.  There are as many of them as the product of the
    [max] fields of the tiers: a search that runs to completion evaluates
    that many configurations, and a search without a result stopped at one
    of them. *)
Theorem findBestConfig_evaluations :
  findBestConfig techs workload costLimit optimizeThroughput =
    foldM (fun s config => visit techs workload costLimit optimizeThroughput config s)
      (search_space techs) (initial techs) /\
  length (search_space techs) = leaves techs /\
  (findBestConfig techs workload costLimit optimizeThroughput = None ->
   exists before config after s,
     search_space techs = before ++ config :: after /\
     foldM (fun s config => visit techs workload costLimit optimizeThroughput config s)
       before (initial techs) = Some s /\
     visit techs workload costLimit optimizeThroughput config s = None).
Proof.
  split; [apply findBestConfig_search_space|]. split; [apply search_space_size|].
  rewrite findBestConfig_search_space. apply foldM_None_prefix.
Qed.

(** X6. [findBestConfig] evaluates the configurations in strictly
    increasing lexicographic order, the count of the first tier being the
    most significant: it is the loop of the evaluation over [search_space],
    whose entries are in that order. *)
Theorem findBestConfig_evaluation_order :
  findBestConfig techs workload costLimit optimizeThroughput =
    foldM (fun s config => visit techs workload costLimit optimizeThroughput config s)
      (search_space techs) (initial techs) /\
  ascending lex_lt (search_space techs).
Proof. split; [apply findBestConfig_search_space|apply ascending_assignments]. Qed.

(** X7. [findBestConfig] is the loop of the evaluation over [search_space],
    and a vector of device counts is an entry of [search_space] exactly
    when it has one count per tier, each below the tier's [max]; it is then
    the entry at one position only.  So a search that runs to completion
    evaluates each such vector once, and no other vector. *)
Theorem findBestConfig_evaluates_once (config : Config) :
  findBestConfig techs workload costLimit optimizeThroughput =
    foldM (fun s config => visit techs workload costLimit optimizeThroughput config s)
      (search_space techs) (initial techs) /\
  (in_range techs config <->
   exists i, search_space techs !! i = Some config /\
             forall j, search_space techs !! j = Some config -> j = i).
Proof.
  split; [apply findBestConfig_search_space|]. split.
  - intros [Hlen Hrange].
    destruct (list_elem_of_lookup_1 (search_space techs) config) as [i Hi];
      [by apply assignments_complete|].
    exists i. split; [done|]. intros j Hj.
    destruct (Nat.lt_trichotomy j i) as [Hlt|[->|Hgt]]; [|done|].
    + destruct (lex_lt_irrefl config). by eapply (ascending_assignments techs j i).
    + destruct (lex_lt_irrefl config). by eapply (ascending_assignments techs i j).
  - intros (i & Hi & _). apply search_space_in_range. by eapply list_elem_of_lookup_2.
Qed.

End EnumerationResults.

(** X8. Catalogs that leave nothing to search.  With an empty catalog the
    enumeration calls [isValid] on an empty vector, which reads
    [config[0]]: undefined behaviour.  With a tier whose [max] is 0 the
    loop over its counts never runs, no configuration is evaluated
    (whatever the workload), and the captured variables stay as they were
    initialised. *)
Theorem findBestConfig_nothing_to_search {F : Type} `{FloatOps F}
    (workload : Workload F) (costLimit : F) (optimizeThroughput : bool) :
  findBestConfig [] workload costLimit optimizeThroughput = None /\
  forall techs : list (Tech F),
    (exists t, t ∈ techs /\ max t = 0%N) ->
    search_space techs = [] /\
    findBestConfig techs workload costLimit optimizeThroughput = Some (initial techs).
Proof.
  split; [done|]. intros techs Hmax. split.
  - by apply assignments_no_count.
  - by apply findBestConfig_no_count.
Qed.

(** ** The further results on the program's own catalog *)

Module MainRuns.
Import Binary32.

(** On every configuration of the search space that [isValid] accepts for
    the workload of [main], the simulator runs to completion. *)
Lemma main_workload_simulates :
  forall c, c ∈ search_space techs -> isValid techs c workload = Some true ->
            is_Some (simulate techs workload c).
Proof. apply simulatesb_correct. vm_compute. reflexivity. Qed.

Lemma run_400 : findBestConfig techs workload (f 400) true = Some (initial techs).
Proof. apply search_untouched; [done|apply Runs.no_feasible_400]. Qed.

Lemma main_result_scored :
  [1; 0; 1; 3]%N ∈ search_space techs /\
  scored techs workload (f 2000) true [1; 0; 1; 3]%N
    (bestCost main_result) (bestAccessFractions main_result) (bestTime main_result).
Proof.
  destruct (findBestConfig_best_is_visited techs workload (f 2000) true main_result
              Runs.main_run_2000) as [_ [(Hc & _)|Hbest]]; [done|exact Hbest].
Qed.

End MainRuns.

Module TwinsRuns.
Import Twins.

Lemma run_200 : findBestConfig techs workload (Binary32.f 200) true = Some result.
Proof. vm_compute. reflexivity. Qed.

(** The configuration [1,1,0] costs as much and is as fast as [1,0,1]. *)
Lemma scored_110 :
  [1; 1; 0]%N ∈ search_space techs /\
  scored techs workload (Binary32.f 200) true [1; 1; 0]%N
    (S754_finite false 14417920 (-17))
    [S754_finite false 8808038 (-24); S754_finite false 15938355 (-25); S754_zero false]
    (S754_finite false 11327976 (-31)).
Proof.
  split.
  - apply list_elem_of_In. vm_compute. tauto.
  - repeat split; vm_compute; reflexivity.
Qed.

End TwinsRuns.

(** X18. [main], with the catalog and the workload of the program, runs
    to completion: none of its seven searches reaches undefined behaviour,
    and it returns 0. *)
Theorem main_runs_to_completion : exists out, Main.main = Some (out, 0%Z).
Proof.
  destruct (main_loop_completes Binary32.techs Binary32.workload Main.budgets) as [out Hout].
  - intros budget _. apply printed_completes; [done|apply MainRuns.main_workload_simulates].
  - exists out. unfold Main.main. by rewrite Hout.
Qed.

Module Examples.

(** The seven calls of [main] run to completion. *)
Lemma findBestConfig_fails_only_in_simulator_witness :
  Forall (fun budget => is_Some (findBestConfig_printed Binary32.techs Binary32.workload (Binary32.f budget) true))
    [2000; 4000; 6000; 8000; 10000; 15000; 100000]%Z.
Proof.
  pose proof (findBestConfig_fails_only_in_simulator Binary32.techs Binary32.workload
                ltac:(discriminate) MainRuns.main_workload_simulates) as Hmain.
  repeat (constructor; [apply Hmain|]). constructor.
Defined.

Lemma findBestConfig_prints_in_bounds_witness :
  findBestConfig Binary32.techs Binary32.workload (Binary32.f 2000) true = Some Binary32.main_result /\
  length (bestConfig Binary32.main_result) = length Binary32.techs /\
  length (bestAccessFractions Binary32.main_result) = length Binary32.techs /\
  exists out,
    report Binary32.techs true Binary32.main_result = Some out /\
    findBestConfig_printed Binary32.techs Binary32.workload (Binary32.f 2000) true = Some (out, bestConfig Binary32.main_result).
Proof.
  split; [exact Runs.main_run_2000|].
  exact (findBestConfig_prints_in_bounds Binary32.techs Binary32.workload (Binary32.f 2000) true Binary32.main_result
           Runs.main_run_2000).
Defined.

(** Budgets of $400 (nothing is feasible) and $2000 (the first call of [main]). *)
Lemma findBestConfig_budget_monotone_witness :
  fle (Binary32.f 400) (Binary32.f 2000) = true /\
  flt (bestTime (initial Binary32.techs)) (bestTime Binary32.main_result) = false /\
  (untouched Binary32.techs Binary32.main_result -> untouched Binary32.techs (initial Binary32.techs)).
Proof.
  split; [reflexivity|].
  exact (findBestConfig_budget_monotone Binary32.techs Binary32.workload true (Binary32.f 400) (Binary32.f 2000)
           (initial Binary32.techs) Binary32.main_result eq_refl MainRuns.run_400 Runs.main_run_2000).
Defined.

(** On the catalog with twin tiers, under a budget of $200: the
    configurations [1,0,1] and [1,1,0] tie on time and cost; the search
    returns [1,0,1], and [1,1,0] comes after it. *)
Lemma findBestConfig_tie_lexicographic_witness :
  findBestConfig Twins.techs Twins.workload (Binary32.f 200) true = Some Twins.result /\
  bestConfig Twins.result = [1; 0; 1]%N /\
  ([1; 1; 0]%N = bestConfig Twins.result \/ lex_lt (bestConfig Twins.result) [1; 1; 0]%N).
Proof.
  split; [exact TwinsRuns.run_200|]. split; [reflexivity|].
  exact (findBestConfig_tie_lexicographic Twins.techs Twins.workload true (Binary32.f 200)
           Twins.result [1; 1; 0]%N _ _ _ TwinsRuns.run_200
           (proj1 TwinsRuns.scored_110) (proj2 TwinsRuns.scored_110)
           eq_refl eq_refl).
Defined.

Lemma findBestConfig_reports_numbers_witness :
  bestTime Binary32.main_result <> S754_nan /\ bestTime Binary32.main_result <> S754_infinity false /\
  bestCost Binary32.main_result <> S754_nan.
Proof.
  exact (findBestConfig_reports_numbers Binary32.techs Binary32.workload (Binary32.f 2000) true Binary32.main_result
           Runs.main_run_2000).
Defined.

(** One RAM device more: [1,0,1,3] and [2,0,1,3]. *)
Lemma configCost_monotone_witness :
  exists c c',
    configCost Binary32.techs [1; 0; 1; 3]%N = Some c /\
    configCost Binary32.techs [2; 0; 1; 3]%N = Some c' /\
    fle (of_Z 0) c = true /\ fle (of_Z 0) c' = true /\ flt c' c = false.
Proof.
  refine (configCost_monotone Binary32.techs [1; 0; 1; 3]%N [2; 0; 1; 3]%N _ _ _ _).
  - repeat constructor.
  - repeat constructor.
  - simpl. lia.
  - repeat constructor; lia.
Defined.

(** One RAM device, no NVM, one SSD and three HDDs: the NVM tier is
    credited nothing. *)
Lemma unpopulated_tier_unused_witness :
  exists out x,
    computeAccessFractions Binary32.techs Binary32.workload [1; 0; 1; 3]%N
      (replicate 4 (Binary32.f 0)) = Some out /\
    out !! 1 = Some x /\ feq x (of_Z 0) = true.
Proof.
  destruct (computeAccessFractions Binary32.techs Binary32.workload [1; 0; 1; 3]%N
              (replicate 4 (Binary32.f 0)))
    as [out|] eqn:Hrun; [|vm_compute in Hrun; discriminate].
  destruct (out !! 1) as [x|] eqn:Hx.
  2:{ apply computeAccessFractions_length in Hrun. apply lookup_ge_None_1 in Hx.
      simpl in Hrun. lia. }
  exists out, x. split; [done|]. split; [done|].
  refine (unpopulated_tier_unused Binary32.techs Binary32.workload [1; 0; 1; 3]%N
            (replicate 4 (Binary32.f 0)) out _ _ _ Hrun 1 x eq_refl Hx).
  - repeat constructor.
  - repeat constructor.
  - repeat constructor.
Defined.

(** One RAM device: 64 GB. *)
Lemma printCapacity_unit_witness :
  exists x k label,
    printCapacity Binary32.techs [1; 0; 1; 3]%N 0 = Some (Number x :: label) /\
    finite_nonneg x /\
    (SF2Q x * 2 ^ k == SF2Q (Binary32.mul (Binary32.f 64) Binary32.GB))%Q /\
    ((k = 40%Z /\ label = [Text " TB"] /\ (1 <= SF2Q x)%Q) \/
     (k = 30%Z /\ label = [Text " GB"] /\ (1 <= SF2Q x)%Q /\ (SF2Q x < 1024)%Q) \/
     (k = 20%Z /\ label = [Text " MB"] /\ (1 <= SF2Q x)%Q /\ (SF2Q x < 1024)%Q) \/
     (k = 0%Z /\ label = [] /\ (SF2Q x < 1048576)%Q)).
Proof.
  refine (printCapacity_unit Binary32.techs [1; 0; 1; 3]%N 0 _ eq_refl _).
  vm_compute. reflexivity.
Defined.

(** The search with a budget of $1700, from the one with $2000, whose best
    configuration costs $1600. *)
Lemma findBestConfig_budget_slack_witness :
  exists r,
    findBestConfig Binary32.techs Binary32.workload (Binary32.f 1700) true = Some r /\
    bestConfig r = bestConfig Binary32.main_result /\
    bestTime r = bestTime Binary32.main_result /\
    bestCost r = bestCost Binary32.main_result /\
    bestAccessFractions r = bestAccessFractions Binary32.main_result.
Proof.
  destruct (search_completes Binary32.techs Binary32.workload (Binary32.f 1700) true
              ltac:(discriminate) MainRuns.main_workload_simulates) as [r Hrun].
  exists r. split; [exact Hrun|].
  exact (findBestConfig_budget_slack Binary32.techs Binary32.workload true
           (Binary32.f 1700) (Binary32.f 2000) r Binary32.main_result
           eq_refl Hrun Runs.main_run_2000 eq_refl).
Defined.

(** The workload of [main] (about 11 TB) and a single group of 192 GB. *)
Lemma isValid_smaller_working_set_witness :
  isValid Binary32.techs [1; 0; 1; 3]%N Binary32.workload = Some true /\
  isValid Binary32.techs [1; 0; 1; 3]%N Binary32.tenth_workload = Some true.
Proof.
  assert (isValid Binary32.techs [1; 0; 1; 3]%N Binary32.workload = Some true) as Hvalid
    by (vm_compute; reflexivity).
  split; [exact Hvalid|].
  exact (isValid_smaller_working_set Binary32.techs [1; 0; 1; 3]%N
           Binary32.workload Binary32.tenth_workload Hvalid eq_refl eq_refl).
Defined.

End Examples.

